(** * tslox, the bytecode back end (src/lox2): scanner, string pool, table, VM

    A shallow embedding of the TypeScript sources of the bytecode interpreter:
    [Scanner] (scanner.ts), [hashString], [Table], [Pool] and the objects
    (chunk.ts), both in main.ts here, and [VM] (vm.ts), followed by the
    properties the specification states about them.

    Conventions of the embedding.
    - A JavaScript number is a binary64 float ([PrimFloat.float]) wherever the
      source computes with it as such (hashing, arithmetic on Lox values);
      array lengths, indices and byte operands are [nat] or [Z].
    - JavaScript [undefined] is a value of its own ([VUndefined]); an array
      read out of range yields it.
    - An unbounded source loop ([for(;;)], [while]) takes a budget [fuel];
      [OutOfFuel] says the budget did not suffice.  Divergence of the source
      is: [OutOfFuel] for every budget.
    - A source object with identity or mutable state lives in a store
      ([heap]) and is named by its address.
    - [IllTyped] stands for a state in which a value is not of the class its
      TypeScript type names; [Throw] for an exception of the host, which no
      code of the interpreter catches. *)

From Stdlib Require Import ZArith PrimFloat FloatOps Uint63 DecimalString.
From Stdlib Require Import Ascii.
From stdpp Require Import base tactics option list strings numbers.

Local Open Scope Z_scope.

(** ** Outcomes of host code *)

Inductive Result (A : Type) : Type :=
| Ok (a : A)
| Throw (e : string)
| IllTyped
| OutOfFuel.
Arguments Ok {A} a.
Arguments Throw {A} e.
Arguments IllTyped {A}.
Arguments OutOfFuel {A}.

#[global] Instance Result_ret : MRet Result := fun A a => Ok a.
#[global] Instance Result_bind : MBind Result := fun A B f m =>
  match m with
  | Ok a => f a
  | Throw e => Throw e
  | IllTyped => IllTyped
  | OutOfFuel => OutOfFuel
  end.

Definition is_Ok {A} (r : Result A) : Prop := exists a, r = Ok a.

(** ** JavaScript numbers *)

Module Js.

(** The integer part of a finite float, rounded towards zero; 0 for NaN and
    the infinities (the first steps of ToInt32). *)
Definition trunc (x : float) : Z :=
  match Prim2SF x with
  | SpecFloat.S754_finite s m e =>
      let mag := if 0 <=? e then Z.pos m * 2 ^ e else Z.pos m / 2 ^ (- e) in
      if s then - mag else mag
  | _ => 0
  end.

(** ToInt32 on an integer: reduce modulo 2^32 into [-2^31, 2^31). *)
Definition wrap32 (z : Z) : Z :=
  let u := z mod 2 ^ 32 in if u <? 2 ^ 31 then u else u - 2 ^ 32.

Definition ToInt32 (x : float) : Z := wrap32 (trunc x).

(** The float of an integer (exact below 2^53 in magnitude). *)
Definition of_int (z : Z) : float :=
  if z <? 0 then PrimFloat.opp (PrimFloat.of_uint63 (Uint63.of_Z (- z)))
  else PrimFloat.of_uint63 (Uint63.of_Z z).

(** [x ^ c] and [x & m] of the source: both operands through ToInt32. *)
Definition bxor (x : float) (c : Z) : float :=
  of_int (Z.lxor (ToInt32 x) (wrap32 c)).

(** [key.charCodeAt(i)] for every [i] below [key.length]. *)
Definition charCodes (s : string) : list Z :=
  (fun a => Z.of_nat (Ascii.nat_of_ascii a)) <$> String.list_ascii_of_string s.

End Js.

(** ** chunk.ts: hashString *)

(** [let hash = 2166136261;
     for (...) { hash ^= key.charCodeAt(i); hash *= 16777619; }
     return hash | 0;]
    [hash *= 16777619] is a multiplication of doubles. *)
Definition hashString (key : string) : Z :=
  Js.ToInt32
    (fold_left
       (fun hash c => PrimFloat.mul (Js.bxor hash c) (Js.of_int 16777619))
       (Js.charCodes key) (Js.of_int 2166136261)).

(** 32-bit FNV-1a as the specification words it: offset basis 2166136261,
    XOR the code, multiply by the prime 16777619, every step modulo 2^32. *)
Definition fnv1a32 (codes : list Z) : Z :=
  fold_left (fun h c => (Z.lxor h c * 16777619) mod 2 ^ 32) codes 2166136261.

(** ** chunk.ts: values and strings *)

(** [class LoxString { readonly chars; readonly hash }].  The object is
    immutable; [ref] is its identity (the address the host gave it), so that
    [===] on two strings is equality of the records. *)
Record LoxString : Type := { ref : nat; chars : string; hash : Z }.

#[global] Instance LoxString_eq_dec : EqDecision LoxString.
Proof. solve_decision. Defined.

(** [type Value = null | boolean | number | Obj], and [undefined].  Strings
    are carried by value with their identity, every other object by its
    address in the store. *)
Inductive Value : Type :=
| VUndefined
| VNil
| VBool (b : bool)
| VNumber (n : float)
| VString (s : LoxString)
| VObj (r : nat).

Definition is_undefined (v : Value) : bool :=
  match v with VUndefined => true | _ => false end.

(** ** chunk.ts: Table *)

Module Table.

(** [count], [capacity], [keys: LoxString[]], [values: Value[]].  A hole of
    [keys] is [None], a hole of [values] is [VUndefined]. *)
Record t : Type := {
  count : nat;
  capacity : nat;
  keys : list (option LoxString);
  values : list Value
}.

(** [new Table()] *)
Definition new : t := {| count := 0; capacity := 0; keys := []; values := [] |}.

(** [keys[i]] and [values[i]]: [undefined] out of range. *)
Definition key_at (ks : list (option LoxString)) (i : nat) : option LoxString :=
  mjoin (ks !! i).
Definition value_at (vs : list Value) (i : nat) : Value :=
  default VUndefined (vs !! i).

(** [x & mask] used as an array index. *)
Definition band (x mask : Z) : nat := Z.to_nat (Z.land x mask).

(** [mask = capacity - 1] *)
Definition mask_of (capacity : nat) : Z := Z.of_nat capacity - 1.

(** The body of [Table.#find]: [for (;;) { ... index = (index + 1) & mask }]. *)
Fixpoint find_loop (fuel : nat) (ks : list (option LoxString)) (vs : list Value)
    (mask : Z) (key : LoxString) (tombstone : option nat) (index : nat)
    : Result nat :=
  match fuel with
  | O => OutOfFuel
  | S fuel =>
      match key_at ks index with
      | None =>
          if is_undefined (value_at vs index)
          then Ok (default index tombstone)
          else find_loop fuel ks vs mask key (Some index)
                 (band (Z.of_nat index + 1) mask)
      | Some key2 =>
          if decide (key = key2) then Ok index
          else find_loop fuel ks vs mask key tombstone
                 (band (Z.of_nat index + 1) mask)
      end
  end.

Definition find (fuel : nat) (ks : list (option LoxString)) (vs : list Value)
    (mask : Z) (key : LoxString) : Result nat :=
  find_loop fuel ks vs mask key None (band (hash key) mask).

(** The loop of [#grow]: [for (let i = 0; i < this.capacity; i++)], [n]
    iterations left, rehashing the live keys of the old arrays into the new
    ones ([ks], [vs]) and counting them. *)
Fixpoint grow_loop (fuel : nat) (old_keys : list (option LoxString))
    (old_values : list Value) (mask : Z) (n i : nat)
    (ks : list (option LoxString)) (vs : list Value) (cnt : nat)
    : Result (list (option LoxString) * list Value * nat) :=
  match n with
  | O => Ok (ks, vs, cnt)
  | S n =>
      match key_at old_keys i with
      | None => grow_loop fuel old_keys old_values mask n (S i) ks vs cnt
      | Some key =>
          index ← find fuel ks vs mask key;
          grow_loop fuel old_keys old_values mask n (S i)
            (<[index := Some key]> ks)
            (<[index := value_at old_values i]> vs) (S cnt)
      end
  end.

(** [#grow(capacity)].  The branch on [this.keys === null] is dead: both
    fields are initialised to [[]] and never assigned [null]. *)
Definition grow (fuel : nat) (tb : t) (capacity' : nat) : Result t :=
  r ← grow_loop fuel (keys tb) (values tb) (mask_of capacity') (capacity tb) 0
        (replicate capacity' None) (replicate capacity' VUndefined) 0;
  Ok {| count := r.2; capacity := capacity'; keys := r.1.1; values := r.1.2 |}.

(** The loop of [findString]: [for (let i = 0; i < this.capacity; i++)],
    and after it [throw new Error("wtf!?")]. *)
Fixpoint findString_loop (n : nat) (ks : list (option LoxString))
    (vs : list Value) (mask : Z) (chars' : string) (hash' : Z) (index : nat)
    : Result (option LoxString) :=
  match n with
  | O => Throw "wtf!?"
  | S n =>
      match key_at ks index with
      | None =>
          if is_undefined (value_at vs index) then Ok None
          else findString_loop n ks vs mask chars' hash'
                 (band (Z.of_nat index + 1) mask)
      | Some key =>
          if bool_decide (hash key = hash') && bool_decide (chars key = chars')
          then Ok (Some key)
          else findString_loop n ks vs mask chars' hash'
                 (band (Z.of_nat index + 1) mask)
      end
  end.

(** [findString(chars, hash)]; [None] is [undefined]. *)
Definition findString (tb : t) (chars' : string) (hash' : Z)
    : Result (option LoxString) :=
  if decide (count tb = 0%nat) then Ok None
  else findString_loop (capacity tb) (keys tb) (values tb)
         (mask_of (capacity tb)) chars' hash'
         (band hash' (mask_of (capacity tb))).

(** [get(key)]; [VUndefined] is [undefined]. *)
Definition get (fuel : nat) (tb : t) (key : LoxString) : Result Value :=
  if decide (count tb = 0%nat) then Ok VUndefined
  else
    index ← find fuel (keys tb) (values tb) (mask_of (capacity tb)) key;
    match key_at (keys tb) index with
    | None => Ok VUndefined
    | Some _ => Ok (value_at (values tb) index)
    end.

(** [this.count + 1 > this.capacity * MAX_LOAD] with [MAX_LOAD = 0.75]:
    the product is exact, so the test is [4 * (count + 1) > 3 * capacity]. *)
Definition over_load (tb : t) : bool :=
  bool_decide (3 * capacity tb < 4 * (count tb + 1))%nat.

(** [set(key, value)], with the table after the call and [isNewKey]. *)
Definition set (fuel : nat) (tb : t) (key : LoxString) (value : Value)
    : Result (t * bool) :=
  tb ← (if over_load tb
        then grow fuel tb
               (if bool_decide (capacity tb < 8)%nat then 8%nat
                else (capacity tb * 2)%nat)
        else Ok tb);
  index ← find fuel (keys tb) (values tb) (mask_of (capacity tb)) key;
  let isNewKey := bool_decide (key_at (keys tb) index = None) in
  let tb :=
    if isNewKey then
      {| count := if is_undefined (value_at (values tb) index)
                  then S (count tb) else count tb;
         capacity := capacity tb;
         keys := <[index := Some key]> (keys tb);
         values := values tb |}
    else tb in
  Ok ({| count := count tb; capacity := capacity tb; keys := keys tb;
         values := <[index := value]> (values tb) |}, isNewKey).

(** [delete(key)]: [delete this.keys[index]] leaves the value in place. *)
Definition delete (fuel : nat) (tb : t) (key : LoxString) : Result (t * bool) :=
  if decide (count tb = 0%nat) then Ok (tb, false)
  else
    index ← find fuel (keys tb) (values tb) (mask_of (capacity tb)) key;
    match key_at (keys tb) index with
    | None => Ok (tb, false)
    | Some _ =>
        Ok ({| count := count tb; capacity := capacity tb;
               keys := <[index := None]> (keys tb);
               values := values tb |}, true)
    end.

(** What [entries()] yields when the table is not changed meanwhile. *)
Definition entries (tb : t) : list (LoxString * Value) :=
  omap (fun i => key ← key_at (keys tb) i; Some (key, value_at (values tb) i))
    (seq 0 (capacity tb)).

Fixpoint set_all (fuel : nat) (tb : t) (es : list (LoxString * Value))
    : Result t :=
  match es with
  | [] => Ok tb
  | (key, value) :: es => r ← set fuel tb key value; set_all fuel r.1 es
  end.

(** [this.addAll(other)] for another table [other]. *)
Definition addAll (fuel : nat) (tb other : t) : Result t :=
  set_all fuel tb (entries other).

(** [this.addAll(this)]: the generator reads [this.capacity], [this.keys]
    and [this.values] anew at every step, and sees what [set] did to them.
    [steps] bounds the iterations of the [for ... of]. *)
Fixpoint addAll_self (steps fuel : nat) (tb : t) (i : nat) : Result t :=
  match steps with
  | O => OutOfFuel
  | S steps =>
      if bool_decide (i < capacity tb)%nat then
        match key_at (keys tb) i with
        | None => addAll_self steps fuel tb (S i)
        | Some key =>
            r ← set fuel tb key (value_at (values tb) i);
            addAll_self steps fuel r.1 (S i)
        end
      else Ok tb
  end.

End Table.

(** ** chunk.ts: Pool *)

(** [strings = new Table()].  [fresh] is the host allocator's part: the
    identity the next [new LoxString] receives. *)
Record Pool : Type := { strings : Table.t; fresh : nat }.

Definition Pool_new : Pool := {| strings := Table.new; fresh := 0 |}.

(** [intern(name)] *)
Definition intern (fuel : nat) (p : Pool) (name : string)
    : Result (Pool * LoxString) :=
  let hash' := hashString name in
  found ← Table.findString (strings p) name hash';
  match found with
  | Some key => Ok (p, key)
  | None =>
      let key := {| ref := fresh p; chars := name; hash := hash' |} in
      r ← Table.set fuel (strings p) key VNil;
      Ok ({| strings := r.1; fresh := S (fresh p) |}, key)
  end.

(** ** scanner.ts *)

Inductive TokenType : Type :=
| LEFT_PAREN | RIGHT_PAREN | LEFT_BRACE | RIGHT_BRACE | COMMA | DOT | MINUS
| PLUS | SEMICOLON | SLASH | STAR
| BANG | BANG_EQUAL | EQUAL | EQUAL_EQUAL | GREATER | GREATER_EQUAL | LESS
| LESS_EQUAL
| IDENTIFIER | STRING | NUMBER
| AND | CLASS | ELSE | FALSE | FUN | FOR | IF | NIL | OR | PRINT | RETURN
| SUPER | THIS | TRUE | VAR | WHILE
| ERROR | EOF
(** [KEYWORDS[text]] for a [text] that names a property [KEYWORDS] inherits
    from [Object.prototype]: a host object, not a [TokenType]. *)
| INHERITED (name : string).

Module Token.
Record t : Type := {
  type : TokenType;
  lexeme : string;
  line : nat;
  column : Z
}.
End Token.

Module Scanner.

Record t : Type := {
  source : string;
  start : nat;
  current : nat;
  line : nat;
  lineStart : nat
}.

(** [new Scanner(source)] *)
Definition new (source : string) : t :=
  {| source := source; start := 0; current := 0; line := 1; lineStart := 0 |}.

Definition newline : ascii := "010"%char.
Definition quote : ascii := "034"%char.

(** [this.current++] *)
Definition bump (sc : t) : t :=
  {| source := source sc; start := start sc; current := S (current sc);
     line := line sc; lineStart := lineStart sc |}.

Definition done (sc : t) : bool :=
  bool_decide (String.length (source sc) <= current sc)%nat.

(** [this.source[this.current + offset]]; [None] is [undefined]. *)
Definition peek (sc : t) (offset : nat) : option ascii :=
  String.get (current sc + offset) (source sc).

(** [advance()]: the character read and the scanner after it. *)
Definition advance (sc : t) : option ascii * t := (peek sc 0, bump sc).

(** [match(ch)] *)
Definition match_ (sc : t) (ch : ascii) : bool * t :=
  if done sc || negb (bool_decide (peek sc 0 = Some ch)) then (false, sc)
  else (true, bump sc).

Definition column_of (sc : t) : Z := Z.of_nat (current sc) - Z.of_nat (lineStart sc).

(** [error(message)] *)
Definition error (sc : t) (message : string) : Token.t :=
  {| Token.type := ERROR; Token.lexeme := message; Token.line := line sc;
     Token.column := column_of sc |}.

(** [token(type)]: the lexeme is [source.substring(start, current)]. *)
Definition token (sc : t) (type : TokenType) : Token.t :=
  {| Token.type := type;
     Token.lexeme := String.substring (start sc) (current sc - start sc) (source sc);
     Token.line := line sc; Token.column := column_of sc |}.

Definition nextLine (sc : t) : t :=
  {| source := source sc; start := start sc; current := current sc;
     line := S (line sc); lineStart := current sc |}.

(** [while (!this.done() && this.peek() !== "\n") this.current++] *)
Fixpoint skip_comment (fuel : nat) (sc : t) : Result t :=
  match fuel with
  | O => OutOfFuel
  | S fuel =>
      if negb (done sc) && negb (bool_decide (peek sc 0 = Some newline))
      then skip_comment fuel (bump sc)
      else Ok sc
  end.

(** [skipWhiteSpace()] *)
Fixpoint skipWhiteSpace (fuel : nat) (sc : t) : Result t :=
  match fuel with
  | O => OutOfFuel
  | S fuel =>
      match peek sc 0 with
      | Some c =>
          if bool_decide (c = newline) then skipWhiteSpace fuel (bump (nextLine sc))
          else if bool_decide (c = " "%char) || bool_decide (c = "013"%char)
                  || bool_decide (c = "009"%char)
          then skipWhiteSpace fuel (bump sc)
          else if bool_decide (c = "/"%char) then
            if negb (bool_decide (peek sc 1 = Some "/"%char)) then Ok sc
            else sc ← skip_comment fuel sc; skipWhiteSpace fuel sc
          else Ok sc
      | None => Ok sc
      end
  end.

(** [isDigit(ch)] and [isAlpha(ch)]; on [undefined] the comparisons fail. *)
Definition isDigit (ch : option ascii) : bool :=
  match ch with
  | Some c => bool_decide (48 <= nat_of_ascii c <= 57)%nat
  | None => false
  end.

Definition isAlpha (ch : option ascii) : bool :=
  match ch with
  | Some c =>
      bool_decide (65 <= nat_of_ascii c <= 90)%nat
      || bool_decide (97 <= nat_of_ascii c <= 122)%nat
      || bool_decide (c = "_"%char)
  | None => false
  end.

(** [while (this.isDigit(this.peek())) this.current++] *)
Fixpoint digits (fuel : nat) (sc : t) : Result t :=
  match fuel with
  | O => OutOfFuel
  | S fuel => if isDigit (peek sc 0) then digits fuel (bump sc) else Ok sc
  end.

(** [number()] *)
Definition number (fuel : nat) (sc : t) : Result (Token.t * t) :=
  sc ← digits fuel sc;
  sc ← (if bool_decide (peek sc 0 = Some "."%char) && isDigit (peek sc 1)
        then digits fuel (bump sc) else Ok sc);
  Ok (token sc NUMBER, sc).

Definition KEYWORDS : list (string * TokenType) :=
  [("and", AND); ("class", CLASS); ("else", ELSE); ("false", FALSE);
   ("for", FOR); ("fun", FUN); ("if", IF); ("nil", NIL); ("or", OR);
   ("print", PRINT); ("return", RETURN); ("super", SUPER); ("this", THIS);
   ("true", TRUE); ("var", VAR); ("while", WHILE)]%string.

(** The properties every object literal inherits. *)
Definition Object_prototype : list string :=
  ["constructor"; "__defineGetter__"; "__defineSetter__"; "hasOwnProperty";
   "__lookupGetter__"; "__lookupSetter__"; "isPrototypeOf";
   "propertyIsEnumerable"; "toString"; "valueOf"; "__proto__";
   "toLocaleString"]%string.

(** [KEYWORDS[text] || TokenType.IDENTIFIER]: every [TokenType] of
    [KEYWORDS] is a non-zero number, every inherited property an object. *)
Definition keyword_or_identifier (text : string) : TokenType :=
  match list_find (fun kv => kv.1 = text) KEYWORDS with
  | Some (_, kv) => kv.2
  | None =>
      if bool_decide (text ∈ Object_prototype) then INHERITED text
      else IDENTIFIER
  end.

(** [while (isAlpha(peek()) || isDigit(peek())) this.current++] *)
Fixpoint alnums (fuel : nat) (sc : t) : Result t :=
  match fuel with
  | O => OutOfFuel
  | S fuel =>
      if isAlpha (peek sc 0) || isDigit (peek sc 0) then alnums fuel (bump sc)
      else Ok sc
  end.

(** [identifier()] *)
Definition identifier (fuel : nat) (sc : t) : Result (Token.t * t) :=
  sc ← alnums fuel sc;
  let text := String.substring (start sc) (current sc - start sc) (source sc) in
  Ok (token sc (keyword_or_identifier text), sc).

(** The loop of [string()]: while [this.peek()] is not the closing quote,
    [{ if (this.peek() === NEWLINE) this.nextLine(); this.current++; }];
    the loop does not ask [this.done()]. *)
Fixpoint string_loop (fuel : nat) (sc : t) : Result t :=
  match fuel with
  | O => OutOfFuel
  | S fuel =>
      if bool_decide (peek sc 0 = Some quote) then Ok sc
      else string_loop fuel
             (bump (if bool_decide (peek sc 0 = Some newline)
                    then nextLine sc else sc))
  end.

(** [string()] *)
Definition string_ (fuel : nat) (sc : t) : Result (Token.t * t) :=
  sc ← string_loop fuel sc;
  if done sc then Ok (error sc "Unfinished string", sc)
  else Ok (token (bump sc) STRING, bump sc).

(** [scanToken()] *)
Definition scanToken (fuel : nat) (sc : t) : Result (Token.t * t) :=
  sc ← skipWhiteSpace fuel sc;
  let sc := {| source := source sc; start := current sc; current := current sc;
               line := line sc; lineStart := lineStart sc |} in
  if done sc then Ok (token sc EOF, sc)
  else
    let (ch, sc) := advance sc in
    let one (type : TokenType) := Ok (token sc type, sc) in
    let two (type2 type1 : TokenType) :=
      let (m, sc) := match_ sc "="%char in
      Ok (token sc (if m then type2 else type1), sc) in
    match ch with
    | None => Ok (error sc "Unexpected character undefined", sc)
    | Some c =>
        if bool_decide (c = "("%char) then one LEFT_PAREN
        else if bool_decide (c = ")"%char) then one RIGHT_PAREN
        else if bool_decide (c = "{"%char) then one LEFT_BRACE
        else if bool_decide (c = "}"%char) then one RIGHT_BRACE
        else if bool_decide (c = ","%char) then one COMMA
        else if bool_decide (c = "."%char) then one DOT
        else if bool_decide (c = "-"%char) then one MINUS
        else if bool_decide (c = "+"%char) then one PLUS
        else if bool_decide (c = ";"%char) then one SEMICOLON
        else if bool_decide (c = "*"%char) then one STAR
        else if bool_decide (c = "!"%char) then two BANG_EQUAL BANG
        else if bool_decide (c = "="%char) then two EQUAL_EQUAL EQUAL
        else if bool_decide (c = "<"%char) then two LESS_EQUAL LESS
        else if bool_decide (c = ">"%char) then two GREATER_EQUAL GREATER
        else if bool_decide (c = "/"%char) then
          let (m1, sc1) := match_ sc "/"%char in
          if m1 then Ok (error sc1 "Missed comment", sc1)
          else
            let (m2, sc2) := match_ sc1 "*"%char in
            if m2 then Ok (error sc2 "Missed comment", sc2)
            else Ok (token sc2 SLASH, sc2)
        else if bool_decide (c = quote) then string_ fuel sc
        else if isDigit (Some c) then number fuel sc
        else if isAlpha (Some c) then identifier fuel sc
        else Ok (error sc ("Unexpected character " +:+ String c EmptyString), sc)
    end.

End Scanner.

(** ** chunk.ts: chunks and objects *)

Inductive OpCode : Type :=
| OP_CONSTANT | OP_NIL | OP_TRUE | OP_FALSE | OP_POP | OP_GET_LOCAL
| OP_GET_GLOBAL | OP_DEFINE_GLOBAL | OP_SET_LOCAL | OP_SET_GLOBAL
| OP_GET_UPVALUE | OP_SET_UPVALUE | OP_GET_PROPERTY | OP_SET_PROPERTY
| OP_GET_SUPER | OP_EQUAL | OP_GREATER | OP_LESS | OP_ADD | OP_SUBTRACT
| OP_MULTIPLY | OP_DIVIDE | OP_NOT | OP_NEGATE | OP_PRINT | OP_JUMP
| OP_JUMP_IF_FALSE | OP_LOOP | OP_CALL | OP_INVOKE | OP_SUPER_INVOKE
| OP_CLOSURE | OP_CLOSE_UPVALUE | OP_RETURN | OP_CLASS | OP_INHERIT
| OP_METHOD.

(** The members of [enum OpCode] in the order of their numbers, from 0. *)
Definition opcodes : list OpCode :=
  [OP_CONSTANT; OP_NIL; OP_TRUE; OP_FALSE; OP_POP; OP_GET_LOCAL;
   OP_GET_GLOBAL; OP_DEFINE_GLOBAL; OP_SET_LOCAL; OP_SET_GLOBAL;
   OP_GET_UPVALUE; OP_SET_UPVALUE; OP_GET_PROPERTY; OP_SET_PROPERTY;
   OP_GET_SUPER; OP_EQUAL; OP_GREATER; OP_LESS; OP_ADD; OP_SUBTRACT;
   OP_MULTIPLY; OP_DIVIDE; OP_NOT; OP_NEGATE; OP_PRINT; OP_JUMP;
   OP_JUMP_IF_FALSE; OP_LOOP; OP_CALL; OP_INVOKE; OP_SUPER_INVOKE;
   OP_CLOSURE; OP_CLOSE_UPVALUE; OP_RETURN; OP_CLASS; OP_INHERIT;
   OP_METHOD].

Definition decode (byte : nat) : option OpCode := opcodes !! byte.

Record Chunk : Type := {
  code : list nat;
  lines : list nat;
  constants : list Value
}.

Record LoxFunction : Type := {
  arity : nat;
  upvalueCount : nat;
  chunk : Chunk;
  name : option LoxString
}.

(** [type NativeFn = (arity: number, args: Value[]) => Value] *)
Definition NativeFn : Type := nat -> list Value -> Value.

(** The objects of the host's store that the machine works on: the
    subclasses of [Obj] other than [LoxString], and [CallFrame].  A
    reference to one of them is its address in the store. *)
Inductive Obj : Type :=
| OFunction (f : LoxFunction)
| ONative (nativeFn : NativeFn)
| OUpvalue (index : Z) (next : option nat) (closed : Value)
| OClosure (func : nat) (upvalues : list nat)
| OClass (name : LoxString) (methods : Table.t)
| OInstance (klass : nat) (fields : Table.t)
| OBoundMethod (receiver : Value) (method : nat)
| OFrame (closure : nat) (ip : Z) (offset : Z).

Inductive InterpretResult : Type :=
| INTERPRET_OK | COMPILE_ERROR | RUNTIME_ERROR.

(** A line written by [console.log]: a text, or the decimal form of a
    number ([String(x)]), which the embedding keeps as the number. *)
Inductive Line : Type :=
| Text (s : string)
| Number (n : float).

(** ** vm.ts *)

Module VM.

Record t : Type := {
  frames : list nat;
  stack : list Value;
  globals : Table.t;
  initString : LoxString;
  openUpvalues : option nat;
  pool : Pool;
  heap : list Obj;
  out : list Line;
  err : list string
}.

(** Code that reads and writes the machine: the state goes in, and comes
    out with the result unless the host throws, a cast fails or the budget
    ends. *)
Definition M (A : Type) : Type := t -> Result (A * t).

#[global] Instance M_ret : MRet M := fun A a vm => Ok (a, vm).
#[global] Instance M_bind : MBind M := fun A B f m vm =>
  match m vm with
  | Ok (a, vm') => f a vm'
  | Throw e => Throw e
  | IllTyped => IllTyped
  | OutOfFuel => OutOfFuel
  end.

Definition read : M t := fun vm => Ok (vm, vm).
Definition lift {A} (r : Result A) : M A := fun vm =>
  match r with
  | Ok a => Ok (a, vm)
  | Throw e => Throw e
  | IllTyped => IllTyped
  | OutOfFuel => OutOfFuel
  end.
Definition throw {A} (e : string) : M A := fun _ => Throw e.
Definition ill_typed {A} : M A := fun _ => IllTyped.

(** *** Writes, one field at a time *)

Definition set_frames (fs : list nat) : M unit := fun vm =>
  Ok (tt, {| frames := fs; stack := stack vm; globals := globals vm;
             initString := initString vm; openUpvalues := openUpvalues vm;
             pool := pool vm; heap := heap vm; out := out vm; err := err vm |}).
Definition set_stack (st : list Value) : M unit := fun vm =>
  Ok (tt, {| frames := frames vm; stack := st; globals := globals vm;
             initString := initString vm; openUpvalues := openUpvalues vm;
             pool := pool vm; heap := heap vm; out := out vm; err := err vm |}).
Definition set_globals (g : Table.t) : M unit := fun vm =>
  Ok (tt, {| frames := frames vm; stack := stack vm; globals := g;
             initString := initString vm; openUpvalues := openUpvalues vm;
             pool := pool vm; heap := heap vm; out := out vm; err := err vm |}).
Definition set_openUpvalues (u : option nat) : M unit := fun vm =>
  Ok (tt, {| frames := frames vm; stack := stack vm; globals := globals vm;
             initString := initString vm; openUpvalues := u;
             pool := pool vm; heap := heap vm; out := out vm; err := err vm |}).
Definition set_pool (p : Pool) : M unit := fun vm =>
  Ok (tt, {| frames := frames vm; stack := stack vm; globals := globals vm;
             initString := initString vm; openUpvalues := openUpvalues vm;
             pool := p; heap := heap vm; out := out vm; err := err vm |}).
Definition set_heap (h : list Obj) : M unit := fun vm =>
  Ok (tt, {| frames := frames vm; stack := stack vm; globals := globals vm;
             initString := initString vm; openUpvalues := openUpvalues vm;
             pool := pool vm; heap := h; out := out vm; err := err vm |}).
(** [console.log] and [console.error] *)
Definition log (l : Line) : M unit := fun vm =>
  Ok (tt, {| frames := frames vm; stack := stack vm; globals := globals vm;
             initString := initString vm; openUpvalues := openUpvalues vm;
             pool := pool vm; heap := heap vm; out := out vm ++ [l];
             err := err vm |}).
Definition log_error (s : string) : M unit := fun vm =>
  Ok (tt, {| frames := frames vm; stack := stack vm; globals := globals vm;
             initString := initString vm; openUpvalues := openUpvalues vm;
             pool := pool vm; heap := heap vm; out := out vm;
             err := err vm ++ [s] |}).

(** *** The store *)

(** [new C(...)]: the object goes to a fresh address. *)
Definition alloc (o : Obj) : M nat :=
  vm ← read; _ ← set_heap (heap vm ++ [o]); mret (length (heap vm)).

Definition deref (r : nat) : M Obj :=
  vm ← read;
  match heap vm !! r with Some o => mret o | None => ill_typed end.

Definition the_frame (r : nat) : M (nat * Z * Z) :=
  o ← deref r;
  match o with OFrame c ip off => mret (c, ip, off) | _ => ill_typed end.
Definition the_closure (r : nat) : M (nat * list nat) :=
  o ← deref r;
  match o with OClosure f us => mret (f, us) | _ => ill_typed end.
Definition the_function (r : nat) : M LoxFunction :=
  o ← deref r;
  match o with OFunction f => mret f | _ => ill_typed end.
Definition the_class (r : nat) : M (LoxString * Table.t) :=
  o ← deref r;
  match o with OClass n ms => mret (n, ms) | _ => ill_typed end.
Definition the_upvalue (r : nat) : M (Z * option nat * Value) :=
  o ← deref r;
  match o with OUpvalue i n c => mret (i, n, c) | _ => ill_typed end.

(** Assignments to a field of an object of the store. *)
Definition set_ip (r : nat) (ip : Z) : M unit :=
  '(c, _, off) ← the_frame r;
  vm ← read; set_heap (<[r := OFrame c ip off]> (heap vm)).
Definition set_upvalues (r : nat) (us : list nat) : M unit :=
  '(f, _) ← the_closure r;
  vm ← read; set_heap (<[r := OClosure f us]> (heap vm)).
Definition set_methods (r : nat) (ms : Table.t) : M unit :=
  '(n, _) ← the_class r;
  vm ← read; set_heap (<[r := OClass n ms]> (heap vm)).
Definition set_fields (r : nat) (fs : Table.t) : M unit :=
  o ← deref r;
  match o with
  | OInstance k _ => vm ← read; set_heap (<[r := OInstance k fs]> (heap vm))
  | _ => ill_typed
  end.
Definition set_closed (r : nat) (v : Value) : M unit :=
  '(i, n, _) ← the_upvalue r;
  vm ← read; set_heap (<[r := OUpvalue i n v]> (heap vm)).
Definition set_next (r : nat) (n : option nat) : M unit :=
  '(i, _, c) ← the_upvalue r;
  vm ← read; set_heap (<[r := OUpvalue i n c]> (heap vm)).
(** [upvalue.closed = v; upvalue.index = -1] *)
Definition close (r : nat) (v : Value) : M unit :=
  '(_, n, _) ← the_upvalue r;
  vm ← read; set_heap (<[r := OUpvalue (-1) n v]> (heap vm)).

(** *** Arrays *)

(** [a[i]] for a number [i]: [undefined] outside the array. *)
Definition at_Z {A} (l : list A) (i : Z) : option A :=
  if i <? 0 then None else l !! Z.to_nat i.

Definition value_at_Z (l : list Value) (i : Z) : Value :=
  default VUndefined (at_Z l i).

(** [a[i] = v] for [0 <= i]: past the end the array grows, the slots in
    between are holes. *)
Definition store_at (l : list Value) (i : nat) (v : Value) : list Value :=
  if bool_decide (i < length l)%nat then <[i := v]> l
  else l ++ replicate (i - length l) VUndefined ++ [v].

(** [a.length = n] for [0 <= n] *)
Definition resize (l : list Value) (n : nat) : list Value :=
  take n l ++ replicate (n - length l) VUndefined.

Definition show_nat (n : nat) : string := NilEmpty.string_of_uint (Nat.to_uint n).

(** *** The machine's methods *)

Definition resetStack : M unit :=
  _ ← set_stack []; _ ← set_frames []; set_openUpvalues None.

(** One line of the trace: [[line N] in script] or [[line N] in f()]. *)
Definition trace_line (r : nat) : M string :=
  '(c, ip, _) ← the_frame r;
  '(f, _) ← the_closure c;
  func ← the_function f;
  let line := match at_Z (lines (chunk func)) ip with
              | Some n => show_nat n
              | None => "undefined"
              end in
  mret ("[line " +:+ line +:+ "] in " +:+
        match name func with
        | None => "script"
        | Some n => chars n +:+ "()"
        end).

Fixpoint trace (rs : list nat) : M unit :=
  match rs with
  | [] => mret tt
  | r :: rs => l ← trace_line r; _ ← log_error l; trace rs
  end.

(** [runtimeError(message)]: the frames are listed from the last one. *)
Definition runtimeError (message : string) : M unit :=
  _ ← log_error message;
  vm ← read;
  _ ← trace (reverse (frames vm));
  resetStack.

Definition push (v : Value) : M unit :=
  vm ← read; set_stack (stack vm ++ [v]).

(** [this.stack.pop()]: [undefined] on the empty array. *)
Definition pop : M Value :=
  vm ← read;
  match reverse (stack vm) with
  | [] => mret VUndefined
  | v :: rest => _ ← set_stack (reverse rest); mret v
  end.

Definition peek (distance : nat) : M Value :=
  vm ← read;
  mret (value_at_Z (stack vm)
          (Z.of_nat (length (stack vm)) - 1 - Z.of_nat distance)).

(** [put(distance, value)]; below the array the write is no array write. *)
Definition put (distance : nat) (v : Value) : M unit :=
  vm ← read;
  let i := Z.of_nat (length (stack vm)) - 1 - Z.of_nat distance in
  if i <? 0 then ill_typed else set_stack (store_at (stack vm) (Z.to_nat i) v).

(** [call(closure, argCount)] *)
Definition call (closure : nat) (argCount : nat) : M bool :=
  '(f, _) ← the_closure closure;
  func ← the_function f;
  if negb (bool_decide (argCount = arity func)) then
    _ ← runtimeError ("Expected " +:+ show_nat (arity func) +:+
                      " arguments but got " +:+ show_nat argCount +:+ ".");
    mret false
  else
    vm ← read;
    if bool_decide (length (frames vm) = 64%nat) then
      _ ← runtimeError "Stack overflow."; mret false
    else
      frame ← alloc (OFrame closure 0
                       (Z.of_nat (length (stack vm)) - Z.of_nat argCount - 1));
      vm ← read;
      _ ← set_frames (frames vm ++ [frame]);
      mret true.

(** JavaScript's truth of a value, as [if (value)] and [!value] ask it. *)
Definition truthy (v : Value) : bool :=
  match v with
  | VUndefined | VNil => false
  | VBool b => b
  | VNumber n => negb (PrimFloat.eqb n 0 || PrimFloat.is_nan n)
  | VString _ | VObj _ => true
  end.

(** [v as Closure] *)
Definition as_closure (v : Value) : M nat :=
  match v with
  | VObj r => _ ← the_closure r; mret r
  | _ => ill_typed
  end.

(** [v as LoxClass] *)
Definition as_class (v : Value) : M nat :=
  match v with
  | VObj r => _ ← the_class r; mret r
  | _ => ill_typed
  end.

Section fuel.
(** The budget of the host's loops: the probes of the tables and the walks
    along the open upvalues. *)
Variable fuel : nat.

Definition table_get (tb : Table.t) (key : LoxString) : M Value :=
  lift (Table.get fuel tb key).

(** [callValue(callee, argCount)] *)
Definition callValue (callee : Value) (argCount : nat) : M bool :=
  let not_callable : M bool :=
    _ ← runtimeError "Can only call functions and classes."; mret false in
  match callee with
  | VObj r =>
      o ← deref r;
      match o with
      | OBoundMethod receiver method =>
          _ ← put argCount receiver; call method argCount
      | OClass _ methods =>
          instance ← alloc (OInstance r Table.new);
          _ ← put argCount (VObj instance);
          vm ← read;
          initializer ← table_get methods (initString vm);
          if truthy initializer then
            c ← as_closure initializer; call c argCount
          else if negb (bool_decide (argCount = 0%nat)) then
            _ ← runtimeError ("Expected 0 arguments but got " +:+
                              show_nat argCount +:+ ".");
            mret false
          else mret true
      | OClosure _ _ => call r argCount
      | ONative nativeFn =>
          vm ← read;
          if bool_decide (length (stack vm) < argCount)%nat then
            (* [this.stack.length -= argCount] asks for a length below 0 *)
            throw "RangeError"
          else
            let result :=
              nativeFn argCount
                (drop (length (stack vm) - argCount) (stack vm)) in
            _ ← set_stack (take (length (stack vm) - argCount) (stack vm));
            _ ← push result;
            mret true
      | _ => not_callable
      end
  | _ => not_callable
  end.


(** [invokeFromClass(klass, name, argCount)] *)
Definition invokeFromClass (klass : nat) (name : LoxString) (argCount : nat)
    : M bool :=
  '(_, methods) ← the_class klass;
  method ← table_get methods name;
  if negb (truthy method) then
    _ ← runtimeError ("Undefined property '" +:+ chars name +:+ "'.");
    mret false
  else c ← as_closure method; call c argCount.

(** [invoke(name, argCount)] *)
Definition invoke (name : LoxString) (argCount : nat) : M bool :=
  receiver ← peek argCount;
  vm ← read;
  match receiver with
  | VObj r =>
      match heap vm !! r with
      | Some (OInstance klass fields) =>
          value ← table_get fields name;
          if truthy value then
            _ ← put argCount value; callValue value argCount
          else invokeFromClass klass name argCount
      | _ => _ ← runtimeError "Only instances have methods."; mret false
      end
  | _ => _ ← runtimeError "Only instances have methods."; mret false
  end.

(** [bindMethod(klass, name)] *)
Definition bindMethod (klass : nat) (name : LoxString) : M bool :=
  '(_, methods) ← the_class klass;
  method ← table_get methods name;
  if negb (truthy method) then
    _ ← runtimeError ("Undefined property '" +:+ chars name +:+ "'.");
    mret false
  else
    receiver ← pop;
    c ← as_closure method;
    bound ← alloc (OBoundMethod receiver c);
    _ ← push (VObj bound);
    mret true.

(** The loop of [captureUpvalue]:
    [while (upvalue !== null && upvalue.index > index)]; it returns
    [prevUpvalue] and [upvalue]. *)
Fixpoint capture_walk (n : nat) (h : list Obj) (prevUpvalue upvalue : option nat)
    (index : Z) : Result (option nat * option nat) :=
  match n with
  | O => OutOfFuel
  | S n =>
      match upvalue with
      | None => Ok (prevUpvalue, None)
      | Some u =>
          match h !! u with
          | Some (OUpvalue i next _) =>
              if index <? i then capture_walk n h (Some u) next index
              else Ok (prevUpvalue, Some u)
          | _ => IllTyped
          end
      end
  end.

(** [captureUpvalue(index)] *)
Definition captureUpvalue (index : Z) : M nat :=
  vm ← read;
  '(prevUpvalue, upvalue) ←
     lift (capture_walk fuel (heap vm) None (openUpvalues vm) index);
  found ← match upvalue with
          | Some u => '(i, _, _) ← the_upvalue u; mret (bool_decide (i = index))
          | None => mret false
          end;
  if (found : bool) then
    match upvalue with Some u => mret u | None => ill_typed end
  else
    createdUpvalue ← alloc (OUpvalue index upvalue VNil);
    _ ← match prevUpvalue with
        | None => set_openUpvalues (Some createdUpvalue)
        | Some p => set_next p (Some createdUpvalue)
        end;
    mret createdUpvalue.

(** [closeUpvalues(last)] *)
Fixpoint closeUpvalues_loop (n : nat) (last : Z) : M unit :=
  match n with
  | O => lift OutOfFuel
  | S n =>
      vm ← read;
      match openUpvalues vm with
      | None => mret tt
      | Some u =>
          '(i, next, _) ← the_upvalue u;
          if last <=? i then
            _ ← close u (value_at_Z (stack vm) i);
            _ ← set_openUpvalues next;
            closeUpvalues_loop n last
          else mret tt
      end
  end.

Definition closeUpvalues (last : Z) : M unit := closeUpvalues_loop fuel last.

(** [defineMethod(name)] *)
Definition defineMethod (name : LoxString) : M unit :=
  method ← peek 0;
  k ← peek 1;
  klass ← as_class k;
  '(_, methods) ← the_class klass;
  r ← lift (Table.set fuel methods name method);
  _ ← set_methods klass r.1;
  _ ← pop;
  mret tt.

(** [defineNative(name, f)]: the arguments of [set] from left to right. *)
Definition defineNative (name : string) (f : NativeFn) : M unit :=
  vm ← read;
  r ← lift (intern fuel (pool vm) name);
  _ ← set_pool r.1;
  native ← alloc (ONative f);
  vm ← read;
  g ← lift (Table.set fuel (globals vm) r.2 (VObj native));
  set_globals g.1.

Definition isFalsey (v : Value) : bool :=
  match v with
  | VNil | VBool false => true
  | _ => false
  end.

(** [concatenate()] *)
Definition concatenate : M unit :=
  b ← pop;
  a ← pop;
  match a, b with
  | VString a, VString b =>
      vm ← read;
      r ← lift (intern fuel (pool vm) (chars a +:+ chars b));
      _ ← set_pool r.1;
      push (VString r.2)
  | _, _ => ill_typed
  end.

(** [binaryOp(op)]: what it returns is [RUNTIME_ERROR] or [undefined]. *)
Definition binaryOp (op : float -> float -> Value) : M (option InterpretResult) :=
  b ← pop;
  a ← pop;
  match a, b with
  | VNumber x, VNumber y => _ ← push (op x y); mret None
  | _, _ =>
      _ ← runtimeError "Operands must be numbers.";
      mret (Some RUNTIME_ERROR)
  end.

(** [valueType(value)] inside a template string *)
Definition valueType (v : Value) : string :=
  match v with
  | VUndefined => "undefined"
  | VNil => "nil"
  | VBool _ => "boolean"
  | VNumber _ => "number"
  | VString _ | VObj _ => "object"
  end.

(** [a === b] *)
Definition strict_equal (a b : Value) : bool :=
  match a, b with
  | VUndefined, VUndefined | VNil, VNil => true
  | VBool x, VBool y => bool_decide (x = y)
  | VNumber x, VNumber y => PrimFloat.eqb x y
  | VString x, VString y => bool_decide (x = y)
  | VObj x, VObj y => bool_decide (x = y)
  | _, _ => false
  end.

(** [func.print()] of a [LoxFunction] *)
Definition function_text (func : LoxFunction) : string :=
  match name func with
  | Some n => "<fn " +:+ chars n +:+ ">"
  | None => "<script>"
  end.

(** [printValue(x)] *)
Definition printValue (x : Value) : M unit :=
  match x with
  | VNil => log (Text "nil")
  | VUndefined => log (Text "undefined")
  | VBool b => log (Text (if b then "true" else "false"))
  | VNumber n => log (Number n)
  | VString s => log (Text (chars s))
  | VObj r =>
      o ← deref r;
      match o with
      | OFunction f => log (Text (function_text f))
      | ONative _ => log (Text "<native fn>")
      | OUpvalue _ _ _ => log (Text "upvalue")
      | OClosure f _ => func ← the_function f; log (Text (function_text func))
      | OClass n _ => log (Text (chars n))
      | OInstance k _ =>
          '(n, _) ← the_class k; log (Text (chars n +:+ " instance"))
      | OBoundMethod _ m =>
          '(f, _) ← the_closure m;
          func ← the_function f; log (Text (function_text func))
      | OFrame _ _ _ => ill_typed
      end
  end.

(** *** The dispatch loop *)

(** [frame.closure.func.chunk] of the current frame; [frame] is
    [undefined] when [this.frames] was empty where the loop read it. *)
Definition current (frame : option nat) : M (nat * nat * Z * Z * LoxFunction) :=
  match frame with
  | None => throw "TypeError"
  | Some r =>
      '(c, ip, off) ← the_frame r;
      '(f, _) ← the_closure c;
      func ← the_function f;
      mret (r, c, ip, off, func)
  end.

(** [readByte()]: [None] is [undefined], past the end of the code. *)
Definition readByte (frame : option nat) : M (option nat) :=
  '(r, _, ip, _, func) ← current frame;
  _ ← set_ip r (ip + 1);
  mret (at_Z (code (chunk func)) ip).

(** An operand byte; the compiler writes every operand of an opcode. *)
Definition operand (frame : option nat) : M nat :=
  b ← readByte frame;
  match b with Some n => mret n | None => ill_typed end.

(** [readShort()]: [(readByte() << 8) | readByte()] *)
Definition readShort (frame : option nat) : M Z :=
  hi ← operand frame;
  lo ← operand frame;
  mret (Z.lor (Z.shiftl (Z.of_nat hi) 8) (Z.of_nat lo)).

Definition readConstant (frame : option nat) : M Value :=
  i ← operand frame;
  '(_, _, _, _, func) ← current frame;
  mret (default VUndefined (constants (chunk func) !! i)).

(** [readConstant() as LoxString] *)
Definition readString (frame : option nat) : M LoxString :=
  v ← readConstant frame;
  match v with VString s => mret s | _ => ill_typed end.

(** [frame.ip += d] *)
Definition jump (frame : option nat) (d : Z) : M unit :=
  '(r, _, ip, _, _) ← current frame;
  set_ip r (ip + d).

(** The loop of [OpCode.CLOSURE]: [for (let i = 0; i < func.upvalueCount;
    i++)], [n] iterations left. *)
Fixpoint capture_all (n : nat) (frame : option nat) (closure : nat) : M unit :=
  match n with
  | O => mret tt
  | S n =>
      isLocal ← operand frame;
      index ← operand frame;
      '(_, c, _, off, _) ← current frame;
      u ← (if bool_decide (isLocal = 0%nat) then
             '(_, us) ← the_closure c;
             match us !! index with Some u => mret u | None => ill_typed end
           else captureUpvalue (off + Z.of_nat index));
      '(_, mine) ← the_closure closure;
      _ ← set_upvalues closure (mine ++ [u]);
      capture_all n frame closure
  end.

Inductive Next : Type :=
| Continue (frame : option nat)
| Halt (result : InterpretResult).

(** [this.frames.length--]; on the empty array the host refuses the
    length -1. *)
Definition drop_frame : M unit :=
  vm ← read;
  match reverse (frames vm) with
  | [] => throw "RangeError"
  | _ :: rest => set_frames (reverse rest)
  end.

(** [frame = this.frames[this.frames.length - 1]] *)
Definition top_frame : M (option nat) := vm ← read; mret (list.last (frames vm)).

(** After [callValue], [invoke] or [invokeFromClass]. *)
Definition called (ok : bool) : M Next :=
  if ok then f ← top_frame; mret (Continue f) else mret (Halt RUNTIME_ERROR).

(** The cases of [switch (readByte()) { ... }] in [run()]. *)
Definition execute (frame : option nat) (op : OpCode) : M Next :=
  match op with
  | OP_CONSTANT => v ← readConstant frame; _ ← push v; mret (Continue frame)
  | OP_NIL => _ ← push VNil; mret (Continue frame)
  | OP_TRUE => _ ← push (VBool true); mret (Continue frame)
  | OP_FALSE => _ ← push (VBool false); mret (Continue frame)
  | OP_POP => _ ← pop; mret (Continue frame)
  | OP_GET_LOCAL =>
      slot ← operand frame;
      '(_, _, _, off, _) ← current frame;
      vm ← read;
      _ ← push (value_at_Z (stack vm) (off + Z.of_nat slot));
      mret (Continue frame)
  | OP_GET_GLOBAL =>
      name ← readString frame;
      vm ← read;
      value ← table_get (globals vm) name;
      if is_undefined value then
        _ ← runtimeError ("Undefined global '" +:+ chars name +:+ "'.");
        mret (Halt RUNTIME_ERROR)
      else _ ← push value; mret (Continue frame)
  | OP_DEFINE_GLOBAL =>
      name ← readString frame;
      v ← pop;
      vm ← read;
      r ← lift (Table.set fuel (globals vm) name v);
      _ ← set_globals r.1;
      mret (Continue frame)
  | OP_SET_LOCAL =>
      slot ← operand frame;
      '(_, _, _, off, _) ← current frame;
      v ← peek 0;
      vm ← read;
      let i := off + Z.of_nat slot in
      if i <? 0 then ill_typed
      else _ ← set_stack (store_at (stack vm) (Z.to_nat i) v);
           mret (Continue frame)
  | OP_SET_GLOBAL =>
      name ← readString frame;
      v ← peek 0;
      vm ← read;
      r ← lift (Table.set fuel (globals vm) name v);
      _ ← set_globals r.1;
      if r.2 : bool then
        d ← lift (Table.delete fuel r.1 name);
        _ ← set_globals d.1;
        _ ← runtimeError ("Undefined global '" +:+ chars name +:+ "'.");
        mret (Halt RUNTIME_ERROR)
      else mret (Continue frame)
  | OP_GET_UPVALUE =>
      slot ← operand frame;
      '(_, c, _, _, _) ← current frame;
      '(_, us) ← the_closure c;
      match us !! slot with
      | None => throw "TypeError"
      | Some u =>
          '(index, _, closed) ← the_upvalue u;
          vm ← read;
          _ ← push (if index <? 0 then closed else value_at_Z (stack vm) index);
          mret (Continue frame)
      end
  | OP_SET_UPVALUE =>
      slot ← operand frame;
      '(_, c, _, _, _) ← current frame;
      '(_, us) ← the_closure c;
      match us !! slot with
      | None => throw "TypeError"
      | Some u =>
          '(index, _, _) ← the_upvalue u;
          v ← peek 0;
          vm ← read;
          _ ← (if index <? 0 then set_closed u v
               else set_stack (store_at (stack vm) (Z.to_nat index) v));
          mret (Continue frame)
      end
  | OP_GET_PROPERTY =>
      instance ← peek 0;
      vm ← read;
      match instance with
      | VObj r =>
          match heap vm !! r with
          | Some (OInstance klass fields) =>
              name ← readString frame;
              value ← table_get fields name;
              if truthy value then
                _ ← pop; _ ← push value; mret (Continue frame)
              else
                ok ← bindMethod klass name;
                if ok : bool then mret (Continue frame)
                else mret (Halt RUNTIME_ERROR)
          | _ =>
              _ ← runtimeError "Only instances have properties.";
              mret (Halt RUNTIME_ERROR)
          end
      | _ =>
          _ ← runtimeError "Only instances have properties.";
          mret (Halt RUNTIME_ERROR)
      end
  | OP_SET_PROPERTY =>
      instance ← peek 1;
      vm ← read;
      match instance with
      | VObj r =>
          match heap vm !! r with
          | Some (OInstance klass fields) =>
              name ← readString frame;
              v ← peek 0;
              s ← lift (Table.set fuel fields name v);
              _ ← set_fields r s.1;
              value ← pop;
              _ ← pop;
              _ ← push value;
              mret (Continue frame)
          | _ =>
              _ ← runtimeError "Only instances have fields.";
              mret (Halt RUNTIME_ERROR)
          end
      | _ =>
          _ ← runtimeError "Only instances have fields.";
          mret (Halt RUNTIME_ERROR)
      end
  | OP_GET_SUPER =>
      name ← readString frame;
      s ← pop;
      superclass ← as_class s;
      ok ← bindMethod superclass name;
      if ok : bool then mret (Continue frame) else mret (Halt RUNTIME_ERROR)
  | OP_EQUAL =>
      b ← pop; a ← pop; _ ← push (VBool (strict_equal a b));
      mret (Continue frame)
  | OP_GREATER =>
      _ ← binaryOp (fun a b => VBool (PrimFloat.ltb b a)); mret (Continue frame)
  | OP_LESS =>
      _ ← binaryOp (fun a b => VBool (PrimFloat.ltb a b)); mret (Continue frame)
  | OP_ADD =>
      b ← peek 0;
      a ← peek 1;
      match b, a with
      | VString _, VString _ => _ ← concatenate; mret (Continue frame)
      | VNumber _, VNumber _ =>
          b ← pop; a ← pop;
          match a, b with
          | VNumber x, VNumber y =>
              _ ← push (VNumber (PrimFloat.add x y)); mret (Continue frame)
          | _, _ => ill_typed
          end
      | _, _ =>
          _ ← runtimeError
                ("Operands must be two numbers or two strings, where " +:+
                 valueType a +:+ " and " +:+ valueType b);
          mret (Halt RUNTIME_ERROR)
      end
  | OP_SUBTRACT =>
      _ ← binaryOp (fun a b => VNumber (PrimFloat.sub a b)); mret (Continue frame)
  | OP_MULTIPLY =>
      _ ← binaryOp (fun a b => VNumber (PrimFloat.mul a b)); mret (Continue frame)
  | OP_DIVIDE =>
      _ ← binaryOp (fun a b => VNumber (PrimFloat.div a b)); mret (Continue frame)
  | OP_NOT =>
      v ← pop; _ ← push (VBool (isFalsey v)); mret (Continue frame)
  | OP_NEGATE =>
      v ← peek 0;
      match v with
      | VNumber _ =>
          v ← pop;
          match v with
          | VNumber x => _ ← push (VNumber (PrimFloat.opp x)); mret (Continue frame)
          | _ => ill_typed
          end
      | _ =>
          _ ← runtimeError "Operand must be a number.";
          mret (Halt RUNTIME_ERROR)
      end
  | OP_PRINT => v ← pop; _ ← printValue v; mret (Continue frame)
  | OP_JUMP =>
      offset ← readShort frame; _ ← jump frame offset; mret (Continue frame)
  | OP_JUMP_IF_FALSE =>
      offset ← readShort frame;
      v ← peek 0;
      _ ← (if isFalsey v then jump frame offset else mret tt);
      mret (Continue frame)
  | OP_LOOP =>
      offset ← readShort frame; _ ← jump frame (- offset); mret (Continue frame)
  | OP_CALL =>
      argCount ← operand frame;
      callee ← peek argCount;
      ok ← callValue callee argCount;
      called ok
  | OP_INVOKE =>
      method ← readString frame;
      argCount ← operand frame;
      ok ← invoke method argCount;
      called ok
  | OP_SUPER_INVOKE =>
      method ← readString frame;
      argCount ← operand frame;
      s ← pop;
      superclass ← as_class s;
      ok ← invokeFromClass superclass method argCount;
      called ok
  | OP_CLOSURE =>
      v ← readConstant frame;
      match v with
      | VObj f =>
          func ← the_function f;
          closure ← alloc (OClosure f []);
          _ ← push (VObj closure);
          _ ← capture_all (upvalueCount func) frame closure;
          mret (Continue frame)
      | _ => ill_typed
      end
  | OP_CLOSE_UPVALUE =>
      vm ← read;
      _ ← closeUpvalues (Z.of_nat (length (stack vm)) - 1);
      _ ← pop;
      mret (Continue frame)
  | OP_RETURN =>
      result ← pop;
      '(_, _, _, off, _) ← current frame;
      _ ← closeUpvalues off;
      _ ← drop_frame;
      vm ← read;
      if bool_decide (length (frames vm) = 0%nat) then
        _ ← pop; mret (Halt INTERPRET_OK)
      else if off <? 0 then throw "RangeError"
      else
        _ ← set_stack (resize (stack vm) (Z.to_nat off));
        _ ← push result;
        f ← top_frame;
        mret (Continue f)
  | OP_CLASS =>
      name ← readString frame;
      klass ← alloc (OClass name Table.new);
      _ ← push (VObj klass);
      mret (Continue frame)
  | OP_INHERIT =>
      s ← peek 1;
      vm ← read;
      match s with
      | VObj sup =>
          match heap vm !! sup with
          | Some (OClass _ super_methods) =>
              b ← peek 0;
              sub ← as_class b;
              '(_, sub_methods) ← the_class sub;
              ms ← lift (if bool_decide (sub = sup)
                         then Table.addAll_self fuel fuel sub_methods 0
                         else Table.addAll fuel sub_methods super_methods);
              _ ← set_methods sub ms;
              _ ← pop;
              mret (Continue frame)
          | _ =>
              _ ← runtimeError "Superclass must be a class.";
              mret (Halt RUNTIME_ERROR)
          end
      | _ =>
          _ ← runtimeError "Superclass must be a class.";
          mret (Halt RUNTIME_ERROR)
      end
  | OP_METHOD =>
      name ← readString frame; _ ← defineMethod name; mret (Continue frame)
  end.

(** One turn of [for (;;) { switch (readByte()) { ... } }]: a byte that is
    no opcode, or [undefined], meets no case. *)
Definition step (frame : option nat) : M Next :=
  byte ← readByte frame;
  match byte ≫= decode with
  | None => mret (Continue frame)
  | Some op => execute frame op
  end.

(** [run()]: at most [steps] turns of the loop. *)
Fixpoint run_from (steps : nat) (frame : option nat) : M InterpretResult :=
  match steps with
  | O => lift OutOfFuel
  | S steps =>
      n ← step frame;
      match n with
      | Continue frame => run_from steps frame
      | Halt result => mret result
      end
  end.

Definition run (steps : nat) : M InterpretResult :=
  frame ← top_frame; run_from steps frame.

(** [interpret(source)] from the function [compile] returned, which the
    host's store holds at [func]: first the three statements before
    [this.run()]. *)
Definition enter (func : nat) : M bool :=
  closure ← alloc (OClosure func []);
  _ ← push (VObj closure);
  call closure 0.

Definition interpret (steps : nat) (func : nat) : M InterpretResult :=
  _ ← enter func; run steps.

End fuel.

(** [new VM(pool)]: the fields as declared, [defineNative("clock", ...)]
    on them, then the assignment of [initString].  [clock] is the native
    the constructor registers, [(_) => Date.now() / 1000]. *)
Definition new (fuel : nat) (pool : Pool) (clock : NativeFn) : Result t :=
  c ← intern fuel pool "clock";
  g ← Table.set fuel Table.new c.2 (VObj 0);
  i ← intern fuel c.1 "init";
  Ok {| frames := []; stack := []; globals := g.1; initString := i.2;
        openUpvalues := None; pool := i.1; heap := [ONative clock];
        out := []; err := [] |}.

(** What [compile(source, this.pool)] leaves behind when it succeeds: the
    functions it built, in the store, and the pool with the strings it
    interned. *)
Definition load (fs : list LoxFunction) (p : Pool) (vm : t) : t :=
  {| frames := frames vm; stack := stack vm; globals := globals vm;
     initString := initString vm; openUpvalues := openUpvalues vm;
     pool := p; heap := heap vm ++ (OFunction <$> fs); out := out vm;
     err := err vm |}.

End VM.

(** * Verification *)

Local Close Scope Z_scope.

(** ** hashString *)

(** C9: on the one-letter string [b] the function differs from FNV-1a by
    one: the product -2128831065 * 16777619 = -35716716523934235 is beyond
    2^53 in magnitude, and the double that holds it is the even neighbour
    -35716716523934236.  The strings [init] and [b] are no exceptions: the
    machine's own [init] hashes to 363975136, FNV-1a gives 380752755. *)
Theorem hashString_is_not_fnv1a :
  hashString "b" = (-418632220)%Z /\
  Js.wrap32 (fnv1a32 (Js.charCodes "b")) = (-418632219)%Z /\
  hashString "init" = 363975136%Z /\
  Js.wrap32 (fnv1a32 (Js.charCodes "init")) = 380752755%Z.
Proof. vm_compute. done. Qed.

(** ** Tables and the pool *)

Module TableFacts.
Import Table.

(** *** Probing arithmetic *)

Definition probe (c h d : nat) : nat := (h + d) mod c.
Definition dist (c a b : nat) : nat := (b + c - a) mod c.

Definition pow2 (c : nat) : Prop := exists k, c = 2 ^ k.

Lemma pow2_pos c : pow2 c -> 0 < c.
Proof. intros [k ->]. pose proof (Nat.pow_nonzero 2 k). lia. Qed.

Lemma band_mod c (x : Z) : pow2 c -> band x (mask_of c) = Z.to_nat (x mod Z.of_nat c).
Proof.
  intros [k ->]. unfold band, mask_of.
  rewrite Nat2Z.inj_pow. change (Z.of_nat 2) with 2%Z.
  rewrite Z.sub_1_r, <- Z.ones_equiv.
  rewrite Z.land_ones by lia. reflexivity.
Qed.

Lemma band_lt c (x : Z) : pow2 c -> band x (mask_of c) < c.
Proof.
  intros Hc. rewrite band_mod by done. apply pow2_pos in Hc.
  pose proof (Z.mod_pos_bound x (Z.of_nat c)). lia.
Qed.

Lemma band_next c (i : nat) : pow2 c -> band (Z.of_nat i + 1) (mask_of c) = probe c i 1.
Proof.
  intros Hc. rewrite band_mod by done. unfold probe. apply pow2_pos in Hc.
  replace (Z.of_nat i + 1)%Z with (Z.of_nat (i + 1)) by lia.
  rewrite <- Nat2Z.inj_mod. apply Nat2Z.id.
Qed.

Lemma probe_lt c h d : 0 < c -> probe c h d < c.
Proof. intros. unfold probe. apply Nat.mod_upper_bound. lia. Qed.

Lemma probe_0 c h : h < c -> probe c h 0 = h.
Proof. intros. unfold probe. rewrite Nat.add_0_r. by apply Nat.mod_small. Qed.

Lemma probe_S c h d : probe c (probe c h 1) d = probe c h (S d).
Proof.
  unfold probe. rewrite Nat.Div0.add_mod_idemp_l. f_equal. lia.
Qed.

Lemma probe_dist c h j : h < c -> j < c -> probe c h (dist c h j) = j.
Proof.
  intros. unfold probe, dist.
  rewrite Nat.Div0.add_mod_idemp_r.
  replace (h + (j + c - h)) with (j + 1 * c) by lia.
  rewrite Nat.Div0.mod_add. by apply Nat.mod_small.
Qed.

Lemma dist_lt c a b : 0 < c -> dist c a b < c.
Proof. intros. unfold dist. apply Nat.mod_upper_bound. lia. Qed.

Lemma probe_inj c h d1 d2 : d1 < c -> d2 < c -> probe c h d1 = probe c h d2 -> d1 = d2.
Proof.
  unfold probe. intros H1 H2 He.
  pose proof (Nat.div_mod_eq (h + d1) c) as E1.
  pose proof (Nat.div_mod_eq (h + d2) c) as E2.
  rewrite He in E1.
  set (q1 := (h + d1) `div` c) in *. set (q2 := (h + d2) `div` c) in *.
  set (r := (h + d2) `mod` c) in *. clearbody q1 q2 r.
  assert (q1 = q2) by nia. subst. lia.
Qed.

Lemma dist_probe c h d : h < c -> d < c -> dist c h (probe c h d) = d.
Proof.
  intros. apply (probe_inj c h); [apply dist_lt; lia|done|].
  rewrite probe_dist; [done..|apply probe_lt; lia].
Qed.

Lemma probe_wrap c h d : probe c h (d + c) = probe c h d.
Proof.
  unfold probe. replace (h + (d + c)) with (h + d + 1 * c) by lia.
  apply Nat.Div0.mod_add.
Qed.

(** *** Slots *)

Definition empty_slot (ks : list (option LoxString)) (vs : list Value) (i : nat) : bool :=
  bool_decide (key_at ks i = None) && is_undefined (value_at vs i).

Fixpoint used (ks : list (option LoxString)) (vs : list Value) (n : nat) : nat :=
  match n with
  | 0 => 0
  | S m => used ks vs m + (if empty_slot ks vs m then 0 else 1)
  end.

(** Where a probe for the keys selected by [P] comes to rest. *)
Definition stops (P : LoxString -> bool) (ks : list (option LoxString))
    (vs : list Value) (i : nat) : bool :=
  match key_at ks i with
  | None => is_undefined (value_at vs i)
  | Some k => P k
  end.

Definition same (key : LoxString) : LoxString -> bool := fun k => bool_decide (key = k).

Lemma used_le ks vs n : used ks vs n <= n.
Proof. induction n; simpl; [lia|]. destruct (empty_slot ks vs n); lia. Qed.

Lemma used_full ks vs n : used ks vs n = n -> forall i, i < n -> empty_slot ks vs i = false.
Proof.
  induction n; simpl; intros Hu i Hi; [lia|].
  pose proof (used_le ks vs n).
  destruct (empty_slot ks vs n) eqn:E; [lia|].
  destruct (decide (i = n)) as [->|]; [done|]. apply IHn; lia.
Qed.

Lemma used_hole ks vs n : used ks vs n < n -> exists i, i < n /\ empty_slot ks vs i = true.
Proof.
  induction n; simpl; intros Hu; [lia|].
  destruct (empty_slot ks vs n) eqn:E; [exists n; split; [lia|done]|].
  destruct IHn as (i & ? & ?); [lia|]. exists i. split; [lia|done].
Qed.

Lemma used_ext ks vs ks' vs' n :
  (forall i, i < n -> empty_slot ks' vs' i = empty_slot ks vs i) ->
  used ks' vs' n = used ks vs n.
Proof.
  induction n; simpl; intros He; [done|].
  rewrite He by lia. rewrite IHn; [done|]. intros; apply He; lia.
Qed.

Lemma used_update ks vs ks' vs' n r :
  r < n ->
  (forall i, i <> r -> empty_slot ks' vs' i = empty_slot ks vs i) ->
  used ks' vs' n + (if empty_slot ks vs r then 0 else 1)
  = used ks vs n + (if empty_slot ks' vs' r then 0 else 1).
Proof.
  induction n; simpl; intros Hr He; [lia|].
  destruct (decide (r = n)) as [->|Hne].
  - rewrite (used_ext ks vs ks' vs' n); [lia|]. intros; apply He; lia.
  - rewrite (He n) by lia. specialize (IHn ltac:(lia) He). lia.
Qed.

Lemma stops_empty P ks vs i : empty_slot ks vs i = true -> stops P ks vs i = true.
Proof.
  unfold empty_slot, stops. intros [Hk Hv]%andb_true_iff.
  apply bool_decide_eq_true in Hk. by rewrite Hk.
Qed.

Section find.
Context (c : nat) (Hc : pow2 c).
Context (ks : list (option LoxString)) (vs : list Value).
#[local] Set Default Proof Using "All".

Lemma find_loop_total key n : forall fuel tomb h,
  n < fuel -> h < c -> stops (same key) ks vs (probe c h n) = true ->
  is_Ok (find_loop fuel ks vs (mask_of c) key tomb h).
Proof.
  induction n as [|n IH]; intros fuel tomb h Hf Hh Hs;
    (destruct fuel as [|fuel]; [lia|]); simpl.
  - rewrite (probe_0 c) in Hs by done. unfold stops, same in Hs.
    destruct (key_at ks h) as [k2|].
    + apply bool_decide_eq_true in Hs. subst. rewrite decide_True by done. by eexists.
    + rewrite Hs. by eexists.
  - rewrite (band_next c) by done.
    destruct (key_at ks h) as [k2|].
    + destruct (decide (key = k2)); [by eexists|].
      apply IH; [lia|by apply probe_lt, pow2_pos|by rewrite (probe_S c)].
    + destruct (is_undefined (value_at vs h)); [by eexists|].
      apply IH; [lia|by apply probe_lt, pow2_pos|by rewrite (probe_S c)].
Qed.

Lemma find_loop_sound key : forall fuel tomb h r,
  h < c -> find_loop fuel ks vs (mask_of c) key tomb h = Ok r ->
  exists n,
    (forall d, d < n -> stops (same key) ks vs (probe c h d) = false) /\
    stops (same key) ks vs (probe c h n) = true /\
    ((key_at ks (probe c h n) = Some key /\ r = probe c h n) \/
     (key_at ks (probe c h n) = None /\
      (Some r = tomb \/ exists m, m <= n /\ r = probe c h m /\ key_at ks r = None))).
Proof.
  induction fuel as [|fuel IH]; intros tomb h r Hh Hr; simpl in Hr; [done|].
  rewrite (band_next c) in Hr by done.
  destruct (key_at ks h) as [k2|] eqn:Ek.
  - destruct (decide (key = k2)) as [<-|Hne].
    + inversion Hr; subst r. exists 0. rewrite (probe_0 c) by done.
      split; [intros; lia|]. split; [|by left].
      unfold stops, same. rewrite Ek. by apply bool_decide_eq_true.
    + apply IH in Hr as (n & Hp & Hs & Hres); [|by apply probe_lt, pow2_pos].
      exists (S n). rewrite <- (probe_S c h n). split; [|split; [done|]].
      * intros [|d] Hd.
        -- rewrite (probe_0 c) by done. unfold stops, same. rewrite Ek.
           by apply bool_decide_eq_false.
        -- rewrite <- (probe_S c h d). apply Hp. lia.
      * destruct Hres as [?|(? & [?|(m & ? & ? & ?)])]; [by left|right..].
        -- split; [done|by left].
        -- split; [done|]. right. exists (S m). rewrite <- (probe_S c h m).
           split; [lia|done].
  - destruct (is_undefined (value_at vs h)) eqn:Ev.
    + inversion Hr; subst r. exists 0. rewrite (probe_0 c) by done.
      split; [intros; lia|]. split; [by unfold stops; rewrite Ek|].
      right. split; [done|]. destruct tomb as [t|]; simpl; [by left|].
      right. exists 0. rewrite (probe_0 c) by done. done.
    + apply IH in Hr as (n & Hp & Hs & Hres); [|by apply probe_lt, pow2_pos].
      exists (S n). rewrite <- (probe_S c h n). split; [|split; [done|]].
      * intros [|d] Hd.
        -- rewrite (probe_0 c) by done. unfold stops. by rewrite Ek.
        -- rewrite <- (probe_S c h d). apply Hp. lia.
      * destruct Hres as [?|(? & [Ht|(m & ? & ? & ?)])]; [by left|right..].
        -- split; [done|]. right. exists 0. rewrite (probe_0 c) by done.
           inversion Ht; subst. split; [lia|done].
        -- split; [done|]. right. exists (S m). rewrite <- (probe_S c h m).
           split; [lia|done].
Qed.

(** A probe that has not stopped after [n] steps has [n] below the capacity. *)
Lemma passes_lt P h n :
  (forall d, d < n -> stops P ks vs (probe c h d) = false) ->
  stops P ks vs (probe c h n) = true -> n < c.
Proof.
  intros Hp Hs. destruct (decide (n < c)); [done|].
  pose proof (pow2_pos c Hc). specialize (Hp (n - c) ltac:(lia)). rewrite <- (probe_wrap c) in Hp.
  replace (n - c + c) with n in Hp by lia. congruence.
Qed.

End find.

(** *** The arrays of a table *)

Definition home (c : nat) (key : LoxString) : nat := band (hash key) (mask_of c).

(** Every live key is met by the probe that starts at its home slot before
    an empty slot is, and sits in one slot only. *)
Record awf (c : nat) (ks : list (option LoxString)) (vs : list Value) : Prop := {
  awf_pow2 : pow2 c;
  awf_klen : length ks = c;
  awf_vlen : length vs = c;
  awf_uniq : forall i j key, key_at ks i = Some key -> key_at ks j = Some key -> i = j;
  awf_chain : forall j key, key_at ks j = Some key ->
    forall d, d < dist c (home c key) j ->
    empty_slot ks vs (probe c (home c key) d) = false
}.

(** No live key holds [undefined]. *)
Definition typed (ks : list (option LoxString)) (vs : list Value) : Prop :=
  forall j key, key_at ks j = Some key -> is_undefined (value_at vs j) = false.

Lemma key_at_Some_lt ks j key : key_at ks j = Some key -> j < length ks.
Proof.
  unfold key_at. destruct (ks !! j) eqn:E; [|done]. intros _. by eapply lookup_lt_Some.
Qed.

Lemma key_at_insert ks r x i :
  key_at (<[r := x]> ks) i = if decide (i = r /\ r < length ks) then x else key_at ks i.
Proof.
  unfold key_at. destruct (decide (i = r /\ r < length ks)) as [[-> ?]|Hn].
  - by rewrite list_lookup_insert_eq.
  - destruct (decide (r = i)) as [->|].
    + rewrite list_insert_ge; [done|]. lia.
    + by rewrite list_lookup_insert_ne.
Qed.

Lemma value_at_insert vs r x i :
  value_at (<[r := x]> vs) i = if decide (i = r /\ r < length vs) then x else value_at vs i.
Proof.
  unfold value_at. destruct (decide (i = r /\ r < length vs)) as [[-> ?]|Hn].
  - by rewrite list_lookup_insert_eq.
  - destruct (decide (r = i)) as [->|].
    + rewrite list_insert_ge; [done|]. lia.
    + by rewrite list_lookup_insert_ne.
Qed.

Lemma key_at_replicate c i : key_at (replicate c None) i = None.
Proof.
  unfold key_at. destruct (replicate c None !! i) eqn:E; [|done].
  apply lookup_replicate in E as [-> _]. done.
Qed.

Lemma value_at_replicate c i : value_at (replicate c VUndefined) i = VUndefined.
Proof.
  unfold value_at. destruct (replicate c VUndefined !! i) eqn:E; [|done].
  apply lookup_replicate in E as [-> _]. done.
Qed.

Lemma awf_fresh c : pow2 c -> awf c (replicate c None) (replicate c VUndefined).
Proof.
  intros Hc. split; try done; try apply length_replicate;
    intros *; rewrite key_at_replicate; done.
Qed.

Lemma used_fresh c n : used (replicate c None) (replicate c VUndefined) n = 0.
Proof.
  induction n; simpl; [done|]. rewrite IHn. unfold empty_slot.
  by rewrite key_at_replicate, value_at_replicate.
Qed.

Lemma empty_slot_false_key ks vs j key : key_at ks j = Some key -> empty_slot ks vs j = false.
Proof. unfold empty_slot. intros ->. done. Qed.

Lemma home_lt c key : pow2 c -> home c key < c.
Proof. apply band_lt. Qed.

(** With an empty slot among the [c] slots, [#find] returns. *)
Lemma find_total c ks vs fuel key e :
  pow2 c -> e < c -> empty_slot ks vs e = true -> c <= fuel ->
  is_Ok (find fuel ks vs (mask_of c) key).
Proof.
  intros Hc He Hempty Hf.
  apply (find_loop_total c Hc ks vs key (dist c (home c key) e)).
  - pose proof (dist_lt c (home c key) e (pow2_pos _ Hc)). lia.
  - by apply home_lt.
  - rewrite probe_dist by (done || by apply home_lt). by apply stops_empty.
Qed.


Section arrays.
Context (c : nat) (ks : list (option LoxString)) (vs : list Value).
Context (Hwf : awf c ks vs).
#[local] Set Default Proof Using "All".

Lemma find_present fuel key j r :
  key_at ks j = Some key -> find fuel ks vs (mask_of c) key = Ok r -> r = j.
Proof.
  intros Hj Hr. pose proof (awf_pow2 _ _ _ Hwf) as Hc.
  pose proof (home_lt c key Hc) as Hh.
  assert (j < c) as Hjc by (rewrite <- (awf_klen _ _ _ Hwf); by eapply key_at_Some_lt).
  apply (find_loop_sound c Hc ks vs) in Hr as (n & Hp & Hs & Hres); [|done].
  fold (home c key) in Hp, Hs, Hres.
  pose proof (passes_lt c Hc ks vs _ _ _ Hp Hs) as Hn.
  pose proof (dist_lt c (home c key) j (pow2_pos _ Hc)) as Hd.
  assert (stops (same key) ks vs j = true) as Hsj.
  { unfold stops, same. rewrite Hj. by apply bool_decide_eq_true. }
  assert (n = dist c (home c key) j) as ->.
  { destruct (Nat.lt_trichotomy n (dist c (home c key) j)) as [Hlt|[?|Hgt]]; [|done|].
    - exfalso. unfold stops in Hs.
      destruct (key_at ks (probe c (home c key) n)) as [k2|] eqn:Ek.
      + apply bool_decide_eq_true in Hs. subst k2.
        pose proof (awf_uniq _ _ _ Hwf _ _ _ Ek Hj) as Heq.
        pose proof (probe_dist c (home c key) j Hh Hjc) as Hpd.
        assert (probe c (home c key) n = probe c (home c key) (dist c (home c key) j)) as Hpp
          by congruence.
        apply probe_inj in Hpp; lia.
      + pose proof (awf_chain _ _ _ Hwf _ _ Hj _ Hlt) as Hne.
        unfold empty_slot in Hne. rewrite Ek, Hs in Hne. done.
    - exfalso. specialize (Hp _ Hgt). rewrite probe_dist in Hp by done. congruence. }
  rewrite probe_dist in Hres by done.
  destruct Hres as [[_ ->]|[? _]]; [done|congruence].
Qed.

Lemma find_absent fuel key r :
  (forall j, key_at ks j <> Some key) -> find fuel ks vs (mask_of c) key = Ok r ->
  r < c /\ key_at ks r = None /\
  forall d, d < dist c (home c key) r -> empty_slot ks vs (probe c (home c key) d) = false.
Proof.
  intros Habs Hr. pose proof (awf_pow2 _ _ _ Hwf) as Hc.
  pose proof (home_lt c key Hc) as Hh.
  apply (find_loop_sound c Hc ks vs) in Hr as (n & Hp & Hs & Hres); [|done].
  fold (home c key) in Hp, Hs, Hres.
  pose proof (passes_lt c Hc ks vs _ _ _ Hp Hs) as Hn.
  destruct Hres as [[Hk _]|[_ [?|(m & Hm & -> & Hk)]]]; [by apply Habs in Hk|done|].
  split; [apply probe_lt, pow2_pos, Hc|]. split; [done|].
  rewrite dist_probe by (done || lia). intros d Hd.
  destruct (empty_slot ks vs (probe c (home c key) d)) eqn:E; [|done].
  apply (stops_empty (same key)) in E. rewrite Hp in E by lia. done.
Qed.

End arrays.

Lemma empty_slot_insert ks vs r kx vx i :
  r < length ks -> r < length vs ->
  empty_slot (<[r := kx]> ks) (<[r := vx]> vs) i =
  if decide (i = r) then bool_decide (kx = None) && is_undefined vx
  else empty_slot ks vs i.
Proof.
  intros. unfold empty_slot. rewrite key_at_insert, value_at_insert.
  destruct (decide (i = r)) as [->|].
  - by rewrite !decide_True by done.
  - by rewrite !decide_False by (intros [? _]; done).
Qed.

Lemma awf_insert c ks vs key v r :
  awf c ks vs ->
  (forall j, key_at ks j <> Some key) ->
  r < c -> key_at ks r = None ->
  (forall d, d < dist c (home c key) r -> empty_slot ks vs (probe c (home c key) d) = false) ->
  awf c (<[r := Some key]> ks) (<[r := v]> vs).
Proof.
  intros Hwf Habs Hr Hkr Hpath.
  pose proof (awf_klen _ _ _ Hwf) as Hkl. pose proof (awf_vlen _ _ _ Hwf) as Hvl.
  assert (forall i, empty_slot (<[r := Some key]> ks) (<[r := v]> vs) i = true ->
                    empty_slot ks vs i = true) as Hmono.
  { intros i. rewrite empty_slot_insert by lia. destruct (decide (i = r)); [done|auto]. }
  split.
  - apply Hwf.
  - by rewrite length_insert.
  - by rewrite length_insert.
  - intros i j key'. rewrite !key_at_insert.
    destruct (decide (i = r)) as [->|]; destruct (decide (j = r)) as [->|]; [done|..].
    + rewrite decide_True by (split; [done|lia]).
      rewrite decide_False by (intros [? _]; done).
      intros [= <-] Hj. by apply Habs in Hj.
    + rewrite decide_False by (intros [? _]; done).
      rewrite decide_True by (split; [done|lia]).
      intros Hi [= <-]. by apply Habs in Hi.
    + rewrite !decide_False by (intros [? _]; done). apply Hwf.
  - intros j key'. rewrite key_at_insert.
    destruct (decide (j = r)) as [->|].
    + rewrite decide_True by (split; [done|lia]). intros [= <-] d Hd.
      destruct (empty_slot _ _ _) eqn:E; [|done]. apply Hmono in E.
      rewrite Hpath in E; done.
    + rewrite decide_False by (intros [? _]; done). intros Hj d Hd.
      destruct (empty_slot _ _ _) eqn:E; [|done]. apply Hmono in E.
      rewrite (awf_chain _ _ _ Hwf _ _ Hj) in E; done.
Qed.

Lemma typed_insert ks vs key v r :
  typed ks vs -> is_undefined v = false -> r < length vs ->
  typed (<[r := Some key]> ks) (<[r := v]> vs).
Proof.
  intros Ht Hv Hr j key'. rewrite key_at_insert, value_at_insert.
  destruct (decide (j = r)) as [->|].
  - intros _. by rewrite decide_True by done.
  - rewrite !decide_False by (intros [? _]; done). apply Ht.
Qed.

Lemma awf_update c ks vs key v r :
  awf c ks vs -> key_at ks r = Some key -> awf c ks (<[r := v]> vs).
Proof.
  intros Hwf Hkr.
  pose proof (awf_klen _ _ _ Hwf) as Hkl. pose proof (awf_vlen _ _ _ Hwf) as Hvl.
  assert (forall i, empty_slot ks (<[r := v]> vs) i = true -> empty_slot ks vs i = true) as Hmono.
  { intros i. unfold empty_slot. rewrite value_at_insert.
    destruct (decide (i = r /\ r < length vs)) as [[-> ?]|]; [|done].
    rewrite Hkr. done. }
  split; try apply Hwf.
  - by rewrite length_insert.
  - intros j key' Hj d Hd.
    destruct (empty_slot _ _ _) eqn:E; [|done]. apply Hmono in E.
    rewrite (awf_chain _ _ _ Hwf _ _ Hj) in E; done.
Qed.

Lemma typed_update ks vs v r :
  typed ks vs -> is_undefined v = false -> typed ks (<[r := v]> vs).
Proof.
  intros Ht Hv j key' Hj. rewrite value_at_insert.
  destruct (decide _); [done|]. by eapply Ht.
Qed.

Lemma awf_delete c ks vs key r :
  awf c ks vs -> key_at ks r = Some key -> is_undefined (value_at vs r) = false ->
  awf c (<[r := None]> ks) vs.
Proof.
  intros Hwf Hkr Hvr.
  pose proof (awf_klen _ _ _ Hwf) as Hkl. pose proof (awf_vlen _ _ _ Hwf) as Hvl.
  assert (forall i, empty_slot (<[r := None]> ks) vs i = empty_slot ks vs i) as Hsame.
  { intros i. unfold empty_slot. rewrite key_at_insert.
    destruct (decide (i = r /\ r < length ks)) as [[-> ?]|]; [|done].
    rewrite Hkr, Hvr. done. }
  split; try apply Hwf.
  - by rewrite length_insert.
  - intros i j key'. rewrite !key_at_insert.
    repeat destruct (decide _); try done. apply Hwf.
  - intros j key'. rewrite key_at_insert. destruct (decide _); [done|].
    intros Hj d Hd. rewrite Hsame. by apply (awf_chain _ _ _ Hwf _ _ Hj).
Qed.

Lemma typed_delete ks vs r : typed ks vs -> typed (<[r := None]> ks) vs.
Proof.
  intros Ht j key'. rewrite key_at_insert. destruct (decide _); [done|]. apply Ht.
Qed.

(** *** Tables *)

Definition present (tb : t) (key : LoxString) (v : Value) : Prop :=
  exists j, key_at (keys tb) j = Some key /\ value_at (values tb) j = v.

Definition absent (tb : t) (key : LoxString) : Prop :=
  forall j, key_at (keys tb) j <> Some key.

(** The table as [new Table()] leaves it, or a table that has grown: then
    the slots in use are at most [count], and [count] is at most 0.75 of
    the capacity. *)
Definition wfc (tb : t) : Prop :=
  (capacity tb = 0 /\ count tb = 0 /\ keys tb = [] /\ values tb = []) \/
  (awf (capacity tb) (keys tb) (values tb) /\ 8 <= capacity tb /\
   used (keys tb) (values tb) (capacity tb) <= count tb /\
   4 * count tb <= 3 * capacity tb).

Definition wf (tb : t) : Prop := wfc tb /\ typed (keys tb) (values tb).

Lemma wf_new : wf new.
Proof. split; [by left|]. intros j key. unfold key_at. simpl. by destruct j. Qed.

Lemma used_0 ks vs n : used ks vs n = 0 -> forall i, i < n -> empty_slot ks vs i = true.
Proof.
  induction n; simpl; intros Hu i Hi; [lia|].
  destruct (empty_slot ks vs n) eqn:E; [|lia].
  destruct (decide (i = n)) as [->|]; [done|]. apply IHn; lia.
Qed.

Lemma wfc_hole tb :
  wfc tb -> 0 < capacity tb ->
  exists e, e < capacity tb /\ empty_slot (keys tb) (values tb) e = true.
Proof.
  intros [(? & _)|(_ & ? & ? & ?)] ?; [lia|]. apply used_hole. lia.
Qed.

Lemma wfc_count_0 tb key : wfc tb -> count tb = 0 -> absent tb key.
Proof.
  intros Hwf Hc0 j Hj. destruct Hwf as [(_ & _ & Hk & _)|(Ha & _ & Hu & _)].
  - rewrite Hk in Hj. unfold key_at in Hj. by rewrite lookup_nil in Hj.
  - pose proof (key_at_Some_lt _ _ _ Hj) as Hlt. rewrite (awf_klen _ _ _ Ha) in Hlt.
    assert (used (keys tb) (values tb) (capacity tb) = 0) as H0 by lia.
    pose proof (used_0 _ _ _ H0 j Hlt) as He.
    by rewrite (empty_slot_false_key _ _ _ _ Hj) in He.
Qed.

Lemma present_absent tb key v : present tb key v -> absent tb key -> False.
Proof. intros (j & Hj & _) Ha. by apply Ha in Hj. Qed.

Lemma absent_or_present tb key : absent tb key \/ exists v, present tb key v.
Proof.
  unfold absent, present.
  destruct (decide (Some key ∈ keys tb)) as [Hin|Hnin].
  - right. apply list_elem_of_lookup in Hin as [j Hj].
    exists (value_at (values tb) j), j. unfold key_at. by rewrite Hj.
  - left. intros j Hj. apply Hnin. unfold key_at in Hj.
    destruct (keys tb !! j) as [o|] eqn:E; [|done]. simpl in Hj. subst o.
    apply list_elem_of_lookup. eauto.
Qed.

Lemma absent_iff tb key : absent tb key <-> forall v, ~ present tb key v.
Proof.
  split.
  - intros Ha v Hp. by eapply present_absent.
  - intros Hn j Hj. apply (Hn (value_at (values tb) j)). by exists j.
Qed.

Lemma absent_congr tb tb' key :
  (forall v, present tb' key v <-> present tb key v) -> absent tb' key <-> absent tb key.
Proof. intros H. rewrite !absent_iff. split; intros Hn v Hp; apply (Hn v), H, Hp. Qed.


Lemma get_spec fuel tb key :
  wfc tb -> capacity tb <= fuel ->
  exists v, get fuel tb key = Ok v /\
    (forall v', present tb key v' -> v = v') /\
    (absent tb key -> v = VUndefined).
Proof.
  intros Hwf Hf. unfold get. destruct (decide (count tb = 0)) as [Hc0|Hc0].
  - exists VUndefined. split; [done|]. split; [|done].
    intros v' Hp. exfalso. eapply present_absent; [done|]. by apply wfc_count_0.
  - destruct Hwf as [(_ & ? & _)|(Ha & Hc8 & Hu & Hl)]; [done|].
    destruct (used_hole (keys tb) (values tb) (capacity tb)) as (e & He & Hee); [lia|].
    destruct (find_total _ (keys tb) (values tb) fuel key e (awf_pow2 _ _ _ Ha) He Hee Hf)
      as [r Hr]. rewrite Hr. simpl.
    destruct (absent_or_present tb key) as [Habs|(v & j & Hj & Hv)].
    + destruct (find_absent _ _ _ Ha fuel key r Habs Hr) as (_ & Hk & _). rewrite Hk.
      exists VUndefined. split; [done|]. split; [|done].
      intros v' Hp. exfalso. by eapply present_absent.
    + pose proof (find_present _ _ _ Ha fuel key j r Hj Hr) as ->. rewrite Hj.
      exists v. split; [by rewrite Hv|]. split.
      * intros v' (j' & Hj' & Hv'). pose proof (awf_uniq _ _ _ Ha _ _ _ Hj Hj'). by subst.
      * intros Habs. exfalso. by apply Habs in Hj.
Qed.

(** The new arrays hold exactly the live entries of the first [i] old slots. *)
Definition copied (oks : list (option LoxString)) (ovs : list Value) (i : nat)
    (ks : list (option LoxString)) (vs : list Value) : Prop :=
  (forall key j, key_at ks j = Some key ->
     exists j0, j0 < i /\ key_at oks j0 = Some key /\ value_at vs j = value_at ovs j0) /\
  (forall j0 key, j0 < i -> key_at oks j0 = Some key ->
     exists j, key_at ks j = Some key /\ value_at vs j = value_at ovs j0).

Lemma used_mono ks vs n m : n <= m -> used ks vs n <= used ks vs m.
Proof. induction 1; simpl; lia. Qed.

Lemma used_insert_key ks vs key v r c :
  r < c -> r < length ks -> r < length vs ->
  used (<[r:=Some key]> ks) (<[r:=v]> vs) c + (if empty_slot ks vs r then 0 else 1)
  = used ks vs c + 1.
Proof.
  intros Hrc Hk Hv. rewrite (used_update ks vs _ _ c r Hrc).
  - rewrite empty_slot_insert by lia. by rewrite decide_True.
  - intros i0 Hi0. rewrite empty_slot_insert by lia. by rewrite decide_False.
Qed.

Lemma grow_loop_spec c' oks ovs fuel :
  pow2 c' -> c' <= fuel ->
  (forall i j key, key_at oks i = Some key -> key_at oks j = Some key -> i = j) ->
  forall n i ks vs cnt,
    i + n < c' ->
    awf c' ks vs -> used ks vs c' <= cnt -> cnt <= used oks ovs i ->
    copied oks ovs i ks vs -> (typed oks ovs -> typed ks vs) ->
    exists ks' vs' cnt',
      grow_loop fuel oks ovs (mask_of c') n i ks vs cnt = Ok (ks', vs', cnt') /\
      awf c' ks' vs' /\ used ks' vs' c' <= cnt' /\ cnt' <= used oks ovs (i + n) /\
      copied oks ovs (i + n) ks' vs' /\ (typed oks ovs -> typed ks' vs').
Proof.
  intros Hc Hf Huniq. induction n as [|n IH]; intros i ks vs cnt Hin Hwf Hu Hcnt Hcp Hty; simpl.
  - rewrite Nat.add_0_r. eauto 10.
  - replace (i + S n) with (S i + n) by lia.
    destruct (key_at oks i) as [key|] eqn:Ek.
    + assert (forall j, key_at ks j <> Some key) as Habs.
      { intros j Hj. destruct Hcp as [H1 _]. apply H1 in Hj as (j0 & Hj0 & Hk0 & _).
        pose proof (Huniq _ _ _ Hk0 Ek). lia. }
      pose proof (used_le oks ovs i).
      destruct (used_hole ks vs c') as (e & He & Hee); [lia|].
      destruct (find_total _ ks vs fuel key e Hc He Hee Hf) as [r Hr]. rewrite Hr. simpl.
      destruct (find_absent _ _ _ Hwf fuel key r Habs Hr) as (Hrc & Hkr & Hpath).
      pose proof (awf_klen _ _ _ Hwf) as Hkl. pose proof (awf_vlen _ _ _ Hwf) as Hvl.
      apply IH; [lia|..].
      * by apply awf_insert.
      * pose proof (used_insert_key ks vs key (value_at ovs i) r c' Hrc) as Hup.
        destruct (empty_slot ks vs r); lia.
      * simpl. by rewrite (empty_slot_false_key _ _ _ _ Ek); lia.
      * destruct Hcp as [H1 H2]. split.
        -- intros key' j. rewrite key_at_insert, value_at_insert.
           destruct (decide (j = r)) as [->|].
           ++ rewrite !decide_True by (split; [done|lia]). intros [= <-].
              exists i. split; [lia|done].
           ++ rewrite !decide_False by (intros [? _]; done). intros Hj.
              apply H1 in Hj as (j0 & ? & ? & ?). exists j0. split; [lia|done].
        -- intros j0 key' Hj0 Hk0. destruct (decide (j0 = i)) as [->|].
           ++ rewrite Ek in Hk0. injection Hk0 as <-. exists r.
              rewrite key_at_insert, value_at_insert.
              rewrite !decide_True by (split; [done|lia]). done.
           ++ destruct (H2 j0 key') as (j & Hj & Hv); [lia|done|].
              exists j. rewrite key_at_insert, value_at_insert.
              assert (j <> r) by (intros ->; congruence).
              rewrite !decide_False by (intros [? _]; done). done.
      * intros Hto. apply typed_insert; [by apply Hty|by eapply Hto|lia].
    + apply IH; [lia|done|done|simpl; lia| |done].
      destruct Hcp as [H1 H2]. split.
      * intros key j Hj. apply H1 in Hj as (j0 & ? & ? & ?). exists j0. split; [lia|done].
      * intros j0 key Hj0 Hk0. destruct (decide (j0 = i)) as [->|]; [congruence|].
        apply H2; [lia|done].
Qed.

Lemma pow2_8 : pow2 8.
Proof. by exists 3. Qed.

Lemma pow2_double c : pow2 c -> pow2 (c * 2).
Proof. intros [k ->]. exists (S k). simpl. lia. Qed.

Lemma grow_spec fuel tb c' :
  wfc tb -> pow2 c' -> capacity tb < c' -> c' <= fuel ->
  exists tb', grow fuel tb c' = Ok tb' /\
    awf c' (keys tb') (values tb') /\ capacity tb' = c' /\
    used (keys tb') (values tb') c' <= count tb' /\ count tb' <= count tb /\
    (forall key v, present tb' key v <-> present tb key v) /\
    (typed (keys tb) (values tb) -> typed (keys tb') (values tb')).
Proof.
  intros Hwf Hc Hlt Hf. unfold grow.
  destruct (grow_loop_spec c' (keys tb) (values tb) fuel Hc Hf) with
    (n := capacity tb) (i := 0) (ks := replicate c' (@None LoxString))
    (vs := replicate c' VUndefined) (cnt := 0)
    as (ks' & vs' & cnt' & Hg & Ha & Hu & Hcnt & [H1 H2] & Hty).
  - destruct Hwf as [(_ & _ & Hk & _)|(Ha & _)].
    + intros i j key. rewrite Hk. unfold key_at. by rewrite lookup_nil.
    + apply Ha.
  - lia.
  - by apply awf_fresh.
  - by rewrite used_fresh.
  - done.
  - split.
    + intros key j. by rewrite key_at_replicate.
    + intros; lia.
  - intros _ j key. by rewrite key_at_replicate.
  - rewrite Hg. simpl. eexists. split; [done|]. simpl. split_and!; try done.
    + simpl in Hcnt. destruct Hwf as [(E1 & E2 & _)|(_ & _ & ? & _)]; [|lia].
      rewrite E1 in Hcnt. simpl in Hcnt. lia.
    + intros key v. unfold present; simpl. split.
      * intros (j & Hj & Hv). apply H1 in Hj as (j0 & _ & ? & ?). exists j0. split; [done|congruence].
      * intros (j0 & Hj0 & Hv).
        assert (j0 < capacity tb) as Hj0c.
        { pose proof (key_at_Some_lt _ _ _ Hj0) as Hl.
          destruct Hwf as [(_ & _ & Hk & _)|(Ha' & _)].
          - rewrite Hk in Hl. simpl in Hl. lia.
          - by rewrite (awf_klen _ _ _ Ha') in Hl. }
        destruct (H2 j0 key Hj0c Hj0) as (j & ? & ?). exists j. split; [done|congruence].
Qed.

(** The first step of [set]: make room. *)
Lemma set_room fuel tb :
  wfc tb -> 2 * capacity tb + 8 <= fuel ->
  exists tb1,
    (if over_load tb
     then grow fuel tb (if bool_decide (capacity tb < 8) then 8 else capacity tb * 2)
     else Ok tb) = Ok tb1 /\
    awf (capacity tb1) (keys tb1) (values tb1) /\ 8 <= capacity tb1 /\
    capacity tb <= capacity tb1 /\ capacity tb1 <= 2 * capacity tb + 8 /\
    used (keys tb1) (values tb1) (capacity tb1) <= count tb1 /\
    4 * (count tb1 + 1) <= 3 * capacity tb1 /\
    (forall key v, present tb1 key v <-> present tb key v) /\
    (typed (keys tb) (values tb) -> typed (keys tb1) (values tb1)).
Proof.
  intros Hwf Hf. unfold over_load. case_bool_decide as Hov.
  - set (c' := if bool_decide (capacity tb < 8) then 8 else capacity tb * 2).
    assert (pow2 c' /\ capacity tb < c' /\ c' <= 2 * capacity tb + 8 /\ 8 <= c' /\
            4 * (count tb + 1) <= 3 * c') as (Hp & Hlt & Hle & H8 & Hld).
    { subst c'. destruct Hwf as [(-> & -> & _)|(Ha & ? & ? & ?)].
      - rewrite bool_decide_eq_true_2 by lia. split; [apply pow2_8|lia].
      - rewrite bool_decide_eq_false_2 by lia. split; [apply pow2_double, Ha|lia]. }
    destruct (grow_spec fuel tb c' Hwf Hp Hlt) as (tb1 & Hg & Ha & Hcap & Hu & Hcnt & Hpres & Hty); [lia|].
    exists tb1. rewrite Hcap. split_and!; try done; lia.
  - destruct Hwf as [(E1 & E2 & _)|(Ha & ? & ? & ?)]; [lia|].
    exists tb. split_and!; try done; lia.
Qed.

Lemma set_spec fuel tb key v :
  wfc tb -> 2 * capacity tb + 8 <= fuel ->
  exists tb' b, set fuel tb key v = Ok (tb', b) /\ wfc tb' /\
    8 <= capacity tb' /\ capacity tb <= capacity tb' /\
    capacity tb' <= 2 * capacity tb + 8 /\
    (b = true <-> absent tb key) /\ present tb' key v /\
    (forall key' v', key' <> key -> present tb' key' v' <-> present tb key' v') /\
    (typed (keys tb) (values tb) -> is_undefined v = false ->
     typed (keys tb') (values tb')).
Proof.
  intros Hwf Hf. unfold set.
  destruct (set_room fuel tb Hwf Hf) as (tb1 & -> & Ha & H8 & Hge & Hle & Hu & Hld & Hpres & Hty).
  simpl.
  pose proof (awf_klen _ _ _ Ha) as Hkl. pose proof (awf_vlen _ _ _ Ha) as Hvl.
  destruct (used_hole (keys tb1) (values tb1) (capacity tb1)) as (e & He & Hee); [lia|].
  destruct (find_total _ (keys tb1) (values tb1) fuel key e (awf_pow2 _ _ _ Ha) He Hee)
    as [r Hr]; [lia|]. rewrite Hr. simpl.
  destruct (absent_or_present tb1 key) as [Habs|(v0 & j & Hj & Hv0)].
  - destruct (find_absent _ _ _ Ha fuel key r Habs Hr) as (Hrc & Hkr & Hpath).
    rewrite Hkr. rewrite bool_decide_eq_true_2 by done. simpl.
    eexists _, _. split; [done|]. simpl.
    pose proof (used_insert_key (keys tb1) (values tb1) key v r (capacity tb1) Hrc) as Hup.
    assert (empty_slot (keys tb1) (values tb1) r = is_undefined (value_at (values tb1) r)) as Hem.
    { unfold empty_slot. rewrite Hkr. by rewrite bool_decide_eq_true_2. }
    rewrite Hem in Hup.
    split_and!; try done.
    + right. simpl. split; [by apply awf_insert|]. split; [done|].
      destruct (is_undefined (value_at (values tb1) r)); lia.
    + split; [|done]. intros _. by apply (absent_congr tb tb1 key).
    + exists r. simpl. rewrite key_at_insert, value_at_insert.
      by rewrite !decide_True by (split; [done|lia]).
    + intros key' v' Hne. rewrite <- Hpres. unfold present; simpl.
      split; intros (j & Hj & Hvj); exists j; revert Hj Hvj;
        rewrite key_at_insert, value_at_insert;
        (destruct (decide (j = r)) as [->|];
         [rewrite ?decide_True by (split; [done|lia])
         |rewrite ?decide_False by (intros [? _]; done)]); intros ??; split; congruence.
    + intros Ht Hv. apply typed_insert; [by apply Hty|done|lia].
  - pose proof (find_present _ _ _ Ha fuel key j r Hj Hr) as ->. rewrite Hj.
    rewrite bool_decide_eq_false_2 by done. simpl.
    eexists _, _. split; [done|]. simpl.
    assert (j < capacity tb1) as Hjc by (rewrite <- Hkl; by eapply key_at_Some_lt).
    split_and!; try done.
    + right. simpl. split; [by eapply awf_update|]. split; [done|].
      rewrite (used_ext (keys tb1) (values tb1)); [lia|].
      intros i _. unfold empty_slot. rewrite value_at_insert.
      destruct (decide (i = j /\ j < length (values tb1))) as [[-> _]|]; [|done].
      by rewrite Hj.
    + split; [done|]. intros Habs. exfalso.
      apply (absent_congr tb tb1 key) in Habs; [|apply Hpres]. by apply Habs in Hj.
    + exists j. simpl. rewrite value_at_insert.
      by rewrite decide_True by (split; [done|lia]).
    + intros key' v' Hne. rewrite <- Hpres. unfold present; simpl.
      split; intros (j' & Hj' & Hvj); exists j'; revert Hvj;
        rewrite value_at_insert;
        (destruct (decide (j' = j)) as [->|];
         [rewrite ?decide_True by (split; [done|lia])
         |rewrite ?decide_False by (intros [? _]; done)]); intros ?; split; congruence.
    + intros Ht Hv. apply typed_update; [by apply Hty|done].
Qed.

Lemma delete_spec fuel tb key :
  wfc tb -> capacity tb <= fuel ->
  exists tb' b, delete fuel tb key = Ok (tb', b) /\
    capacity tb' = capacity tb /\ count tb' = count tb /\
    (b = false <-> absent tb key) /\ absent tb' key /\
    (forall key' v', key' <> key -> present tb' key' v' <-> present tb key' v') /\
    (0 < capacity tb ->
     pow2 (capacity tb') /\
     exists e, e < capacity tb' /\ empty_slot (keys tb') (values tb') e = true) /\
    ((forall v, present tb key v -> is_undefined v = false) -> wfc tb') /\
    (typed (keys tb) (values tb) -> typed (keys tb') (values tb')).
Proof.
  intros Hwf Hf. unfold delete.
  assert (0 < capacity tb -> pow2 (capacity tb) /\
          exists e, e < capacity tb /\ empty_slot (keys tb) (values tb) e = true) as Hhole.
  { intros Hpos. split; [|by apply wfc_hole].
    destruct Hwf as [(? & _)|(Ha & _)]; [lia|apply Ha]. }
  destruct (decide (count tb = 0)) as [E0|E0].
  { exists tb, false. split_and!; auto.
    - split; [|done]. intros _. by apply wfc_count_0.
    - by apply wfc_count_0. }
  destruct Hwf as [(_ & ? & _)|(Ha & Hc8 & Hu & Hl)]; [done|].
  pose proof (awf_klen _ _ _ Ha) as Hkl. pose proof (awf_vlen _ _ _ Ha) as Hvl.
  destruct (used_hole (keys tb) (values tb) (capacity tb)) as (e & He & Hee); [lia|].
  destruct (find_total _ (keys tb) (values tb) fuel key e (awf_pow2 _ _ _ Ha) He Hee Hf)
    as [r Hr]. rewrite Hr. simpl.
  destruct (absent_or_present tb key) as [Habs|(v & j & Hj & Hv)].
  - destruct (find_absent _ _ _ Ha fuel key r Habs Hr) as (_ & Hk & _). rewrite Hk.
    exists tb, false. split_and!; auto; [done|]. intros _. by right.
  - pose proof (find_present _ _ _ Ha fuel key j r Hj Hr) as ->. rewrite Hj.
    assert (j < capacity tb) as Hjc by (rewrite <- Hkl; by eapply key_at_Some_lt).
    eexists _, _. split; [done|]. simpl.
    split_and!; try done.
    + split; [done|]. intros Habs. by apply Habs in Hj.
    + intros j'. simpl. rewrite key_at_insert.
      destruct (decide (j' = j /\ j < length (keys tb))) as [[-> _]|Hn]; [done|].
      intros Hj'. apply Hn. split; [|lia]. by eapply (awf_uniq _ _ _ Ha).
    + intros key' v' Hne. unfold present; simpl.
      split; intros (j' & Hj' & Hvj); exists j'; revert Hj';
        rewrite key_at_insert;
        (destruct (decide (j' = j)) as [->|];
         [rewrite ?decide_True by (split; [done|lia])
         |rewrite ?decide_False by (intros [? _]; done)]); intros ?; split; congruence.
    + intros _. split; [apply Ha|]. exists e. split; [done|].
      unfold empty_slot in *. rewrite key_at_insert.
      destruct (decide (e = j /\ j < length (keys tb))) as [[-> _]|]; [|done].
      by rewrite Hj in Hee.
    + intros Hdef. right. simpl.
      assert (is_undefined (value_at (values tb) j) = false) as Hvj.
      { apply Hdef. by exists j. }
      split; [by eapply awf_delete|]. split; [done|]. split; [|done].
      rewrite (used_ext (keys tb) (values tb)); [lia|].
      intros i _. unfold empty_slot. rewrite key_at_insert.
      destruct (decide (i = j /\ j < length (keys tb))) as [[-> _]|]; [|done].
      by rewrite Hj, Hvj.
    + apply typed_delete.
Qed.

(** *** A larger budget changes no result *)

Lemma find_loop_mono ks vs mask key n : forall m tomb index r,
  find_loop n ks vs mask key tomb index = Ok r -> n <= m ->
  find_loop m ks vs mask key tomb index = Ok r.
Proof.
  induction n as [|n IH]; intros m tomb index r Hr Hm; simpl in Hr; [done|].
  destruct m as [|m]; [lia|]. simpl.
  destruct (key_at ks index).
  - destruct (decide _); [done|]. apply IH; [done|lia].
  - destruct (is_undefined _); [done|]. apply IH; [done|lia].
Qed.

Lemma find_mono ks vs mask key n m r :
  find n ks vs mask key = Ok r -> n <= m -> find m ks vs mask key = Ok r.
Proof. apply find_loop_mono. Qed.

Lemma bind_Ok {A B} (m : Result A) (f : A -> Result B) b :
  m ≫= f = Ok b -> exists a, m = Ok a /\ f a = Ok b.
Proof. destruct m; simpl; [eauto|done..]. Qed.

Lemma grow_loop_mono oks ovs mask f g : f <= g ->
  forall n i ks vs cnt r,
    grow_loop f oks ovs mask n i ks vs cnt = Ok r ->
    grow_loop g oks ovs mask n i ks vs cnt = Ok r.
Proof.
  intros Hfg. induction n as [|n IH]; intros i ks vs cnt r Hr; simpl in *; [done|].
  destruct (key_at oks i); [|by apply IH].
  apply bind_Ok in Hr as (index & Hi & Hr).
  rewrite (find_mono _ _ _ _ _ _ _ Hi Hfg). simpl. by apply IH.
Qed.

Lemma grow_mono f g tb c r : f <= g -> grow f tb c = Ok r -> grow g tb c = Ok r.
Proof.
  intros Hfg Hr. unfold grow in *. apply bind_Ok in Hr as (x & Hx & Hr).
  by rewrite (grow_loop_mono _ _ _ _ _ Hfg _ _ _ _ _ _ Hx).
Qed.

Lemma set_mono f g tb key v r : f <= g -> set f tb key v = Ok r -> set g tb key v = Ok r.
Proof.
  intros Hfg Hr. unfold set in *. apply bind_Ok in Hr as (tb1 & H1 & Hr).
  apply bind_Ok in Hr as (index & Hi & Hr).
  assert ((if over_load tb
           then grow g tb (if bool_decide (capacity tb < 8) then 8 else capacity tb * 2)
           else Ok tb) = Ok tb1) as ->.
  { destruct (over_load tb); [|done]. by eapply grow_mono. }
  simpl. by rewrite (find_mono _ _ _ _ _ _ _ Hi Hfg).
Qed.

Lemma delete_mono f g tb key r : f <= g -> delete f tb key = Ok r -> delete g tb key = Ok r.
Proof.
  intros Hfg Hr. unfold delete in *. destruct (decide _); [done|].
  apply bind_Ok in Hr as (index & Hi & Hr).
  by rewrite (find_mono _ _ _ _ _ _ _ Hi Hfg).
Qed.

Lemma get_mono f g tb key r : f <= g -> get f tb key = Ok r -> get g tb key = Ok r.
Proof.
  intros Hfg Hr. unfold get in *. destruct (decide _); [done|].
  apply bind_Ok in Hr as (index & Hi & Hr).
  by rewrite (find_mono _ _ _ _ _ _ _ Hi Hfg).
Qed.

(** *** The invariant is kept by every operation *)

Lemma set_wf fuel tb key v tb' b :
  wf tb -> is_undefined v = false -> set fuel tb key v = Ok (tb', b) -> wf tb'.
Proof.
  intros [Hc Ht] Hv Hs.
  destruct (set_spec (fuel `max` (2 * capacity tb + 8)) tb key v Hc)
    as (tb2 & b2 & Hs2 & Hc2 & _ & _ & _ & _ & _ & _ & Ht2); [lia|].
  rewrite (set_mono fuel _ _ _ _ _ (Nat.le_max_l _ _) Hs) in Hs2. injection Hs2 as <- <-.
  split; [done|]. by apply Ht2.
Qed.

Lemma delete_wf fuel tb key tb' b :
  wf tb -> delete fuel tb key = Ok (tb', b) -> wf tb'.
Proof.
  intros [Hc Ht] Hs.
  destruct (delete_spec (fuel `max` capacity tb) tb key Hc)
    as (tb2 & b2 & Hs2 & _ & _ & _ & _ & _ & _ & Hc2 & Ht2); [lia|].
  rewrite (delete_mono fuel _ _ _ _ (Nat.le_max_l _ _) Hs) in Hs2. injection Hs2 as <- <-.
  split; [|by apply Ht2]. apply Hc2. intros v (j & Hj & <-). by eapply Ht.
Qed.

Lemma set_all_wf fuel es : forall tb tb',
  wf tb -> Forall (fun e => is_undefined e.2 = false) es ->
  set_all fuel tb es = Ok tb' -> wf tb'.
Proof.
  induction es as [|[key v] es IH]; intros tb tb' Hwf Hes Hs; simpl in Hs.
  - by injection Hs as <-.
  - apply bind_Ok in Hs as ([tb1 b] & H1 & Hs). inversion Hes; subst.
    eapply IH; [|done|done]. by eapply set_wf.
Qed.

Lemma entries_typed tb :
  typed (keys tb) (values tb) -> Forall (fun e => is_undefined e.2 = false) (entries tb).
Proof.
  intros Ht. apply list.Forall_forall. intros [key v] Hin. unfold entries in Hin.
  apply list_elem_of_omap in Hin as (i & _ & Hi).
  destruct (key_at (keys tb) i) as [key'|] eqn:Ek; [|done]. simpl in Hi.
  injection Hi as <- <-. simpl. by eapply Ht.
Qed.

Lemma addAll_wf fuel tb other tb' :
  wf tb -> wf other -> addAll fuel tb other = Ok tb' -> wf tb'.
Proof.
  intros Hwf [_ Ht] Hs. eapply set_all_wf; [done| |done]. by apply entries_typed.
Qed.

Lemma addAll_self_wf fuel steps : forall tb i tb',
  wf tb -> addAll_self steps fuel tb i = Ok tb' -> wf tb'.
Proof.
  induction steps as [|steps IH]; intros tb i tb' Hwf Hs; simpl in Hs; [done|].
  case_bool_decide; [|by injection Hs as <-].
  destruct (key_at (keys tb) i) as [key|] eqn:Ek; [|by eapply IH].
  apply bind_Ok in Hs as ([tb1 b] & H1 & Hs).
  eapply IH; [|done]. eapply set_wf; [done| |done]. destruct Hwf as [_ Ht]. by eapply Ht.
Qed.

(** The tables a program can build: [new Table()], then any sequence of
    [set] (of a [Value]), [delete], [addAll]; [get] and [findString] change
    nothing. *)
Inductive reachable : t -> Prop :=
| reach_new : reachable new
| reach_set fuel tb key v tb' b :
    reachable tb -> is_undefined v = false ->
    set fuel tb key v = Ok (tb', b) -> reachable tb'
| reach_delete fuel tb key tb' b :
    reachable tb -> delete fuel tb key = Ok (tb', b) -> reachable tb'
| reach_addAll fuel tb other tb' :
    reachable tb -> reachable other ->
    addAll fuel tb other = Ok tb' -> reachable tb'
| reach_addAll_self steps fuel tb tb' :
    reachable tb -> addAll_self steps fuel tb 0 = Ok tb' -> reachable tb'.

Lemma reachable_wf tb : reachable tb -> wf tb.
Proof.
  induction 1.
  - apply wf_new.
  - by eapply set_wf.
  - by eapply delete_wf.
  - eapply addAll_wf; [| |eassumption]; assumption.
  - by eapply addAll_self_wf.
Qed.

(** *** findString *)

Definition matches (chars' : string) (hash' : Z) : LoxString -> bool :=
  fun key => bool_decide (hash key = hash') && bool_decide (chars key = chars').

Lemma findString_loop_stop c ks vs chars' hash' :
  pow2 c ->
  forall n bound h, n < bound -> h < c ->
    (forall d, d < n -> stops (matches chars' hash') ks vs (probe c h d) = false) ->
    stops (matches chars' hash') ks vs (probe c h n) = true ->
    findString_loop bound ks vs (mask_of c) chars' hash' h = Ok (key_at ks (probe c h n)).
Proof.
  intros Hc. induction n as [|n IH]; intros bound h Hb Hh Hp Hs;
    (destruct bound as [|bound]; [lia|]); simpl.
  - rewrite probe_0 in Hs |- * by done. unfold stops, matches in Hs.
    destruct (key_at ks h) as [k2|]; by rewrite Hs.
  - pose proof (Hp 0 ltac:(lia)) as H0. rewrite probe_0 in H0 by done.
    unfold stops, matches in H0. rewrite band_next by done.
    rewrite <- (probe_S c h n).
    destruct (key_at ks h) as [k2|]; rewrite H0;
      (apply IH; [lia|apply probe_lt, pow2_pos, Hc| |by rewrite probe_S]);
      intros d Hd; rewrite probe_S; apply Hp; lia.
Qed.

Lemma first_stop_aux (f : nat -> bool) n :
  (forall d, d < n -> f d = false) \/
  (exists m, m < n /\ f m = true /\ forall d, d < m -> f d = false).
Proof.
  induction n as [|n [IH|(m & ? & ? & ?)]].
  - left. intros; lia.
  - destruct (f n) eqn:E.
    + right. exists n. split; [lia|done].
    + left. intros d Hd. destruct (decide (d = n)) as [->|]; [done|]. apply IH; lia.
  - right. exists m. split; [lia|done].
Qed.

Lemma first_stop P ks vs c h n :
  stops P ks vs (probe c h n) = true ->
  exists m, m <= n /\ stops P ks vs (probe c h m) = true /\
    forall d, d < m -> stops P ks vs (probe c h d) = false.
Proof.
  intros Hs.
  destruct (first_stop_aux (fun d => stops P ks vs (probe c h d)) n) as [Hp|(m & ? & ? & ?)].
  - exists n. split; [lia|done].
  - exists m. split; [lia|done].
Qed.

Lemma findString_total tb chars' hash' :
  wfc tb -> exists r, findString tb chars' hash' = Ok r /\
    match r with
    | Some key => matches chars' hash' key = true /\ ~ absent tb key
    | None => True
    end.
Proof.
  intros Hwf. unfold findString. destruct (decide (count tb = 0)); [by exists None|].
  destruct Hwf as [(_ & ? & _)|(Ha & Hc8 & Hu & Hl)]; [done|].
  pose proof (awf_pow2 _ _ _ Ha) as Hc.
  destruct (used_hole (keys tb) (values tb) (capacity tb)) as (e & He & Hee); [lia|].
  set (h := band hash' (mask_of (capacity tb))).
  assert (h < capacity tb) as Hh by by apply band_lt.
  destruct (first_stop (matches chars' hash') (keys tb) (values tb) (capacity tb) h
              (dist (capacity tb) h e)) as (m & Hm & Hs & Hp).
  { rewrite probe_dist by done. by apply stops_empty. }
  pose proof (dist_lt (capacity tb) h e (pow2_pos _ Hc)).
  rewrite (findString_loop_stop _ _ _ _ _ Hc m) by (done || lia).
  eexists. split; [done|]. unfold stops in Hs.
  destruct (key_at (keys tb) (probe (capacity tb) h m)) as [key|] eqn:Ek; [|done].
  split; [done|]. intros Habs. by apply Habs in Ek.
Qed.

Lemma findString_found tb s :
  wfc tb -> ~ absent tb s ->
  (forall key, ~ absent tb key -> matches (chars s) (hash s) key = true -> key = s) ->
  findString tb (chars s) (hash s) = Ok (Some s).
Proof.
  intros Hwf Hlive Honly. unfold findString.
  destruct (decide (count tb = 0)) as [E0|E0].
  { exfalso. apply Hlive. by apply wfc_count_0. }
  destruct Hwf as [(_ & ? & _)|(Ha & Hc8 & Hu & Hl)]; [done|].
  pose proof (awf_pow2 _ _ _ Ha) as Hc.
  destruct (absent_or_present tb s) as [?|(v & j & Hj & _)]; [done|].
  assert (j < capacity tb) as Hjc
    by (rewrite <- (awf_klen _ _ _ Ha); by eapply key_at_Some_lt).
  fold (home (capacity tb) s). pose proof (home_lt _ s Hc) as Hh.
  pose proof (dist_lt (capacity tb) (home (capacity tb) s) j (pow2_pos _ Hc)) as Hd.
  assert (matches (chars s) (hash s) s = true) as Hms.
  { unfold matches. by rewrite !bool_decide_eq_true_2. }
  rewrite (findString_loop_stop _ _ _ _ _ Hc (dist (capacity tb) (home (capacity tb) s) j));
    try done.
  - by rewrite probe_dist, Hj.
  - intros d Hdd. unfold stops.
    destruct (key_at (keys tb) (probe (capacity tb) (home (capacity tb) s) d)) as [k2|] eqn:Ek.
    + destruct (matches (chars s) (hash s) k2) eqn:Em; [|done]. exfalso.
      assert (k2 = s) as ->.
      { apply Honly; [|done]. intros Habs. by apply Habs in Ek. }
      pose proof (awf_uniq _ _ _ Ha _ _ _ Ek Hj) as Heq.
      rewrite <- (probe_dist (capacity tb) (home (capacity tb) s) j Hh Hjc) in Heq.
      apply probe_inj in Heq; lia.
    + pose proof (awf_chain _ _ _ Ha _ _ Hj _ Hdd) as Hne.
      unfold empty_slot in Hne. rewrite Ek in Hne. by rewrite bool_decide_eq_true_2 in Hne.
  - rewrite probe_dist by done. unfold stops. by rewrite Hj.
Qed.

(** *** Empty slots, and a failed assignment *)

Definition hole (tb : t) : Prop :=
  exists i, i < length (keys tb) /\ i < length (values tb) /\
    empty_slot (keys tb) (values tb) i = true.

Lemma wfc_hole_or_fresh tb :
  wfc tb -> capacity tb = 0 /\ count tb = 0 \/ hole tb.
Proof.
  intros Hwf. destruct (decide (capacity tb = 0)) as [E|E].
  - left. split; [done|]. destruct Hwf as [(_ & ? & _)|(_ & ? & _)]; [done|lia].
  - right. destruct (wfc_hole tb Hwf) as (e & He & Hee); [lia|].
    destruct Hwf as [(? & _)|(Ha & _)]; [done|].
    exists e. by rewrite (awf_klen _ _ _ Ha), (awf_vlen _ _ _ Ha).
Qed.


(** *** The pool *)

Definition interned (p : Pool) (s : LoxString) : Prop :=
  exists j, key_at (keys (strings p)) j = Some s.

Record pool_inv (p : Pool) : Prop := {
  pi_wf : wf (strings p);
  pi_hash : forall s, interned p s -> hash s = hashString (chars s);
  pi_chars : forall s1 s2, interned p s1 -> interned p s2 -> chars s1 = chars s2 -> s1 = s2;
  pi_ref : forall s, interned p s -> ref s < fresh p;
  pi_refs : forall s1 s2, interned p s1 -> interned p s2 -> ref s1 = ref s2 -> s1 = s2
}.

Lemma interned_present p s : interned p s <-> exists v, present (strings p) s v.
Proof.
  split.
  - intros (j & Hj). exists (value_at (values (strings p)) j), j. done.
  - intros (v & j & Hj & _). by exists j.
Qed.

Lemma interned_not_absent p s : interned p s <-> ~ absent (strings p) s.
Proof.
  split.
  - intros (j & Hj) Ha. by apply Ha in Hj.
  - intros Hn. destruct (absent_or_present (strings p) s) as [?|(v & j & Hj & _)]; [done|].
    by exists j.
Qed.

Lemma interned_new s : ~ interned Pool_new s.
Proof. intros (j & Hj). unfold key_at in Hj. simpl in Hj. by destruct j. Qed.

Lemma pool_inv_new : pool_inv Pool_new.
Proof.
  split; [apply wf_new|..].
  - intros s Hs. by apply interned_new in Hs.
  - intros s1 s2 Hs. by apply interned_new in Hs.
  - intros s Hs. by apply interned_new in Hs.
  - intros s1 s2 Hs. by apply interned_new in Hs.
Qed.

Lemma intern_spec fuel p name :
  pool_inv p -> 2 * capacity (strings p) + 8 <= fuel ->
  exists p' s, intern fuel p name = Ok (p', s) /\ pool_inv p' /\
    chars s = name /\ interned p' s /\
    (interned p s -> p' = p) /\
    (forall k, interned p' k <-> interned p k \/ k = s).
Proof.
  intros Hinv Hf. unfold intern. pose proof Hinv as [[Hc Ht] Hh Hch Hrf Hrfs].
  destruct (findString_total (strings p) name (hashString name) Hc) as (r & Hfs & Hr).
  rewrite Hfs. simpl. destruct r as [key|].
  - destruct Hr as [Hm Hlive]. apply interned_not_absent in Hlive.
    unfold matches in Hm. apply andb_true_iff in Hm as [_ Hm].
    apply bool_decide_eq_true in Hm.
    exists p, key. split_and!; try done. intros k. split; [by left|].
    intros [?| ->]; done.
  - clear Hr. set (key := {| ref := fresh p; chars := name; hash := hashString name |}).
    assert (forall k, interned p k -> chars k <> name) as Hnew.
    { intros k Hk Hck.
      assert (findString (strings p) (chars k) (hash k) = Ok (Some k)) as Hfound.
      { apply findString_found; [done|by apply interned_not_absent|].
        intros k2 Hk2 Hm. unfold matches in Hm. apply andb_true_iff in Hm as [_ Hm].
        apply bool_decide_eq_true in Hm. apply Hch; [by apply interned_not_absent|done..]. }
      rewrite (Hh k Hk), Hck in Hfound. congruence. }
    assert (absent (strings p) key) as Habs.
    { intros j Hj. apply (Hnew key); [by exists j|done]. }
    destruct (set_spec fuel (strings p) key VNil Hc Hf)
      as (tb' & b & Hs & Hc' & _ & _ & _ & _ & Hp' & Ho' & Ht').
    rewrite Hs. simpl. eexists _, key. split; [done|].
    assert (forall k, interned {| strings := tb'; fresh := S (fresh p) |} k
                      <-> interned p k \/ k = key) as Hiff.
    { intros k. rewrite !interned_present. simpl. split.
      - intros (v & Hv). destruct (decide (k = key)) as [->|Hne]; [by right|].
        left. exists v. by apply Ho'.
      - intros [(v & Hv)| ->]; [|by exists VNil].
        exists v. apply Ho'; [|done]. intros ->. eapply present_absent; done. }
    split_and!; try done.
    + split; simpl.
      * split; [done|by apply Ht'].
      * intros s [Hs0| ->]%Hiff; [by apply Hh|done].
      * intros s1 s2 [H1| ->]%Hiff [H2| ->]%Hiff; try done.
        -- by apply Hch.
        -- intros E. by apply Hnew in E.
        -- intros E. symmetry in E. by apply Hnew in E.
      * intros s [Hs0| ->]%Hiff; [|simpl; lia]. apply Hrf in Hs0. lia.
      * intros s1 s2 [H1| ->]%Hiff [H2| ->]%Hiff; try done.
        -- by apply Hrfs.
        -- intros E. apply Hrf in H1. simpl in E. lia.
        -- intros E. apply Hrf in H2. simpl in E. lia.
    + apply Hiff. by right.
    + intros Hk. exfalso. by apply (Hnew key).
Qed.

Lemma intern_mono f g p name r : f <= g -> intern f p name = Ok r -> intern g p name = Ok r.
Proof.
  intros Hfg Hr. unfold intern in *. apply bind_Ok in Hr as (found & -> & Hr). simpl.
  destruct found; [done|]. apply bind_Ok in Hr as (x & Hx & Hr).
  by rewrite (set_mono _ _ _ _ _ _ Hfg Hx).
Qed.

(** One [intern] after another. *)
Inductive pool_steps : Pool -> Pool -> Prop :=
| pool_steps_refl p : pool_steps p p
| pool_steps_intern fuel p p1 p2 name s :
    pool_steps p p1 -> intern fuel p1 name = Ok (p2, s) -> pool_steps p p2.

Lemma intern_inv fuel p name p' s :
  pool_inv p -> intern fuel p name = Ok (p', s) ->
  pool_inv p' /\ chars s = name /\ interned p' s /\
  (interned p s -> p' = p) /\
  (forall k, interned p' k <-> interned p k \/ k = s).
Proof.
  intros Hinv Hi.
  destruct (intern_spec (fuel `max` (2 * capacity (strings p) + 8)) p name Hinv)
    as (p2 & s2 & Hi2 & Hrest); [lia|].
  rewrite (intern_mono fuel _ _ _ _ (Nat.le_max_l _ _) Hi) in Hi2.
  by injection Hi2 as <- <-.
Qed.

Lemma pool_steps_inv p p' :
  pool_inv p -> pool_steps p p' ->
  pool_inv p' /\ forall k, interned p k -> interned p' k.
Proof.
  intros Hinv. induction 1 as [|fuel p p1 p2 name s _ IH Hi]; [done|].
  destruct (IH Hinv) as [Hinv1 Hsub].
  destruct (intern_inv _ _ _ _ _ Hinv1 Hi) as (Hinv2 & _ & _ & _ & Hiff).
  split; [done|]. intros k Hk. apply Hiff. left. by apply Hsub.
Qed.

(** An interned string is what [intern] returns for its characters, and the
    pool stays as it is. *)
Lemma intern_interned fuel p s :
  pool_inv p -> interned p s -> 2 * capacity (strings p) + 8 <= fuel ->
  intern fuel p (chars s) = Ok (p, s).
Proof.
  intros Hinv Hs Hf.
  destruct (intern_spec fuel p (chars s) Hinv Hf) as (p' & s' & Hi & _ & Hc & Hs' & Hsame & Hiff).
  assert (interned p' s) as Hs2 by (apply Hiff; by left).
  destruct (pool_steps_inv p p' Hinv) as [Hinv' _].
  { eapply pool_steps_intern; [apply pool_steps_refl|done]. }
  assert (s' = s) as -> by by apply (pi_chars _ Hinv').
  by rewrite Hsame in Hi.
Qed.

(** [absent], computed. *)
Lemma absent_check tb key :
  forallb (fun k => negb (bool_decide (k = Some key))) (keys tb) = true ->
  absent tb key.
Proof.
  intros H j Hj. unfold key_at in Hj.
  destruct (keys tb !! j) as [k|] eqn:E; [|done]. simpl in Hj. subst k.
  rewrite forallb_forall in H. specialize (H (Some key)).
  rewrite bool_decide_eq_true_2 in H by done. simpl in H.
  assert (false = true) as Hft; [|done].
  apply H. apply list_elem_of_In. by eapply list_elem_of_lookup_2.
Qed.

(** *** Properties of tables and of the pool *)

(** C10, as the specification words it, fails for the table that
    [new Table()] returns: its arrays have no slot. *)
Lemma new_table_has_no_slot : reachable new /\ ~ hole new.
Proof.
  split; [constructor|]. intros (i & Hi & _). simpl in Hi. lia.
Qed.

(** C10 (amended): a table built by [new Table()], [set], [delete] and
    [addAll] either is as [new Table()] left it, with no slot at all, or has
    a slot that was never written; in both cases [get], [set] and [delete]
    return when the budget of their probe is twice the capacity plus eight,
    and [findString] returns without reaching its [throw]. *)
Theorem probes_terminate tb :
  reachable tb ->
  (capacity tb = 0 /\ count tb = 0 \/ hole tb) /\
  (forall fuel key, 2 * capacity tb + 8 <= fuel ->
     is_Ok (get fuel tb key) /\ is_Ok (delete fuel tb key) /\
     forall v, is_Ok (set fuel tb key v)) /\
  (forall chars' hash', exists r, findString tb chars' hash' = Ok r).
Proof.
  intros [Hc Ht]%reachable_wf. split; [by apply wfc_hole_or_fresh|]. split.
  - intros fuel key Hf. split_and!.
    + destruct (get_spec fuel tb key Hc ltac:(lia)) as (v & Hv & _). by exists v.
    + destruct (delete_spec fuel tb key Hc ltac:(lia)) as (tb' & b & Hd & _).
      by exists (tb', b).
    + intros v. destruct (set_spec fuel tb key v Hc Hf) as (tb' & b & Hs & _).
      by exists (tb', b).
  - intros chars' hash'.
    destruct (findString_total tb chars' hash' Hc) as (r & Hr & _). by exists r.
Qed.

Definition demo_key : LoxString := {| ref := 0; chars := "a"; hash := hashString "a" |}.

Definition demo_table : t :=
  match set 8 new demo_key VNil with
  | Ok (tb, _) => tb
  | _ => new
  end.

Lemma probes_terminate_witness :
  (capacity demo_table = 0 /\ count demo_table = 0 \/ hole demo_table) /\
  (forall fuel key, 2 * capacity demo_table + 8 <= fuel ->
     is_Ok (get fuel demo_table key) /\ is_Ok (delete fuel demo_table key) /\
     forall v, is_Ok (set fuel demo_table key v)) /\
  (forall chars' hash', exists r, findString demo_table chars' hash' = Ok r).
Proof.
  apply (probes_terminate demo_table).
  apply (reach_set 8 new demo_key VNil demo_table true);
    [apply reach_new|reflexivity|vm_compute; reflexivity].
Defined.

(** C6: in a pool that [new Pool()] and calls of [intern] built, [intern]
    returns: for the characters of an interned string that string itself,
    leaving the pool as it is; for equal characters, now and after any
    further calls, the same string; and two interned strings have equal
    characters iff they are equal iff they have the same identity. *)
Theorem intern_canonical p :
  pool_steps Pool_new p ->
  (forall fuel name, 2 * capacity (strings p) + 8 <= fuel ->
     exists p' s, intern fuel p name = Ok (p', s) /\ chars s = name /\ interned p' s) /\
  (forall fuel s, interned p s -> 2 * capacity (strings p) + 8 <= fuel ->
     intern fuel p (chars s) = Ok (p, s)) /\
  (forall fuel fuel' a b p1 s1 p2 p3 s2,
     intern fuel p a = Ok (p1, s1) -> pool_steps p1 p2 ->
     intern fuel' p2 b = Ok (p3, s2) -> a = b -> s1 = s2 /\ p3 = p2) /\
  (forall s1 s2, interned p s1 -> interned p s2 ->
     (chars s1 = chars s2 <-> s1 = s2) /\ (s1 = s2 <-> ref s1 = ref s2)).
Proof.
  intros Hsteps. destruct (pool_steps_inv _ _ pool_inv_new Hsteps) as [Hinv _].
  split_and!.
  - intros fuel name Hf.
    destruct (intern_spec fuel p name Hinv Hf) as (p' & s & Hi & _ & Hc & Hs & _).
    by exists p', s.
  - intros fuel s Hs Hf. by apply intern_interned.
  - intros fuel fuel' a b p1 s1 p2 p3 s2 H1 H12 H2 <-.
    destruct (intern_inv _ _ _ _ _ Hinv H1) as (Hinv1 & Hc1 & Hs1 & _).
    destruct (pool_steps_inv _ _ Hinv1 H12) as [Hinv2 Hsub].
    destruct (intern_inv _ _ _ _ _ Hinv2 H2) as (Hinv3 & Hc2 & Hs2 & Hsame & Hiff).
    assert (s1 = s2) as <-.
    { apply (pi_chars _ Hinv3); [apply Hiff; left; by apply Hsub|done|congruence]. }
    split; [done|]. apply Hsame. by apply Hsub.
  - intros s1 s2 H1 H2. split; split; try (by intros ->).
    + by apply (pi_chars _ Hinv).
    + by apply (pi_refs _ Hinv).
Qed.

Definition demo_pool : Pool :=
  match intern 8 Pool_new "a" with
  | Ok (p, _) => p
  | _ => Pool_new
  end.

Lemma intern_canonical_witness :
  (forall fuel name, 2 * capacity (strings demo_pool) + 8 <= fuel ->
     exists p' s, intern fuel demo_pool name = Ok (p', s) /\ chars s = name /\
       interned p' s) /\
  (forall fuel s, interned demo_pool s -> 2 * capacity (strings demo_pool) + 8 <= fuel ->
     intern fuel demo_pool (chars s) = Ok (demo_pool, s)) /\
  (forall fuel fuel' a b p1 s1 p2 p3 s2,
     intern fuel demo_pool a = Ok (p1, s1) -> pool_steps p1 p2 ->
     intern fuel' p2 b = Ok (p3, s2) -> a = b -> s1 = s2 /\ p3 = p2) /\
  (forall s1 s2, interned demo_pool s1 -> interned demo_pool s2 ->
     (chars s1 = chars s2 <-> s1 = s2) /\ (s1 = s2 <-> ref s1 = ref s2)).
Proof.
  apply (intern_canonical demo_pool).
  apply (pool_steps_intern 8 Pool_new Pool_new demo_pool "a" demo_key);
    [apply pool_steps_refl|vm_compute; reflexivity].
Defined.

(** *** What the operations of a table do to its lookups *)

(** [get(key)] answers [v], whenever the budget lets the probe go once
    around the arrays. *)
Definition answers (tb : t) (key : LoxString) (v : Value) : Prop :=
  forall fuel, capacity tb <= fuel -> get fuel tb key = Ok v.

Lemma present_functional tb key v1 v2 :
  wfc tb -> present tb key v1 -> present tb key v2 -> v1 = v2.
Proof.
  intros Hwf (i & Hi & <-) (j & Hj & <-).
  destruct Hwf as [(_ & _ & Hk & _)|(Ha & _)].
  - rewrite Hk in Hi. unfold key_at in Hi. by rewrite lookup_nil in Hi.
  - by rewrite (awf_uniq _ _ _ Ha _ _ _ Hi Hj).
Qed.

Lemma answers_present tb key v : wfc tb -> present tb key v -> answers tb key v.
Proof.
  intros Hwf Hp fuel Hf. destruct (get_spec fuel tb key Hwf Hf) as (w & -> & Hw & _).
  by rewrite (Hw v Hp).
Qed.

Lemma answers_absent tb key : wfc tb -> absent tb key -> answers tb key VUndefined.
Proof.
  intros Hwf Ha fuel Hf. destruct (get_spec fuel tb key Hwf Hf) as (w & -> & _ & Hw).
  by rewrite (Hw Ha).
Qed.

Lemma answers_inv tb key v :
  wf tb -> answers tb key v ->
  is_undefined v = false /\ present tb key v \/ v = VUndefined /\ absent tb key.
Proof.
  intros [Hwf Ht] Hans. specialize (Hans (capacity tb) (le_n _)).
  destruct (get_spec (capacity tb) tb key Hwf (le_n _)) as (w & Hw & Hp & Ha).
  rewrite Hw in Hans. injection Hans as ->.
  destruct (absent_or_present tb key) as [Habs|(u & Hu)].
  - right. split; [by apply Ha|done].
  - left. rewrite (Hp u Hu). split; [|done]. destruct Hu as (j & Hj & <-). by eapply Ht.
Qed.

Lemma answers_undefined tb key : wf tb -> answers tb key VUndefined <-> absent tb key.
Proof.
  intros Hwf. split.
  - intros Hw. destruct (answers_inv _ _ _ Hwf Hw) as [[Hd _]|[_ Ha]]; done.
  - apply answers_absent, Hwf.
Qed.

(** What [answers] carries over, when the live entries of the other keys
    are the same. *)
Lemma answers_carried tb tb' key w :
  wf tb -> wfc tb' ->
  (forall v, present tb' key v <-> present tb key v) ->
  answers tb key w -> answers tb' key w.
Proof.
  intros Hwf Hwf' Hiff Hw. destruct (answers_inv _ _ _ Hwf Hw) as [[_ Hp]|[-> Ha]].
  - apply answers_present; [done|]. by apply Hiff.
  - apply answers_absent; [done|]. by apply (absent_congr tb tb').
Qed.

(** X1: [set(key, v)] of a value of the language returns, and afterwards
    [get(key)] answers [v] and every other key is answered as before; what
    [set] returns says whether the key was new. *)
Theorem set_then_get fuel tb key v :
  reachable tb -> is_undefined v = false -> 2 * capacity tb + 8 <= fuel ->
  exists tb' isNewKey,
    set fuel tb key v = Ok (tb', isNewKey) /\ reachable tb' /\
    answers tb' key v /\
    (forall key' w, key' <> key -> answers tb key' w -> answers tb' key' w) /\
    (isNewKey = true <-> answers tb key VUndefined).
Proof.
  intros Hr Hv Hf. pose proof (reachable_wf _ Hr) as Hwf. pose proof Hwf as [Hc Ht].
  destruct (set_spec fuel tb key v Hc Hf)
    as (tb' & b & Hs & Hc' & _ & _ & _ & Hb & Hp & Ho & _).
  exists tb', b. split; [done|]. split; [by eapply reach_set|]. split_and!.
  - by apply answers_present.
  - intros key' w Hne Hw. eapply answers_carried; [done|done| |done].
    intros u. by apply Ho.
  - by rewrite Hb, answers_undefined.
Qed.

(** X2: [delete(key)] returns, and afterwards [get(key)] answers
    [undefined] and every other key is answered as before; it returns
    [false] exactly when the key was not there; and it frees nothing: the
    capacity and [count] stay, the slot is left as a tombstone. *)
Theorem delete_then_get fuel tb key :
  reachable tb -> capacity tb <= fuel ->
  exists tb' found,
    delete fuel tb key = Ok (tb', found) /\ reachable tb' /\
    answers tb' key VUndefined /\
    (forall key' w, key' <> key -> answers tb key' w -> answers tb' key' w) /\
    (found = false <-> answers tb key VUndefined) /\
    capacity tb' = capacity tb /\ count tb' = count tb.
Proof.
  intros Hr Hf. pose proof (reachable_wf _ Hr) as Hwf. pose proof Hwf as [Hc Ht].
  destruct (delete_spec fuel tb key Hc Hf)
    as (tb' & b & Hd & Hcap & Hcnt & Hb & Ha & Ho & _ & Hc' & _).
  assert (reachable tb') as Hr' by by eapply reach_delete.
  pose proof (reachable_wf _ Hr') as [Hwc' _].
  exists tb', b. split; [done|]. split; [done|]. split_and!; try done.
  - by apply answers_absent.
  - intros key' w Hne Hw. eapply answers_carried; [done|done| |done].
    intros u. by apply Ho.
  - by rewrite Hb, answers_undefined.
Qed.

(** The live entries are among the slots in use. *)
Lemma entries_le_used ks vs : forall n,
  length (omap (fun i => key ← key_at ks i; Some (key, value_at vs i)) (seq 0 n))
  <= used ks vs n.
Proof.
  induction n as [|n IH]; [done|].
  rewrite seq_S, omap_app, length_app. simpl.
  destruct (key_at ks n) as [key|] eqn:E; simpl.
  - rewrite (empty_slot_false_key _ _ _ _ E). lia.
  - lia.
Qed.

(** X3: the shape of a table: the arrays are as long as [capacity], which
    is 0 or a power of two from 8 on; [count] is at most three quarters of
    it; and [count] bounds the number of live entries (it counts the
    tombstones too). *)
Theorem table_shape tb :
  reachable tb ->
  length (keys tb) = capacity tb /\ length (values tb) = capacity tb /\
  (capacity tb = 0 \/ 8 <= capacity tb /\ exists k, capacity tb = 2 ^ k) /\
  4 * count tb <= 3 * capacity tb /\
  length (entries tb) <= count tb.
Proof.
  intros [[(Hcap & Hcnt & Hk & Hv)|(Ha & H8 & Hu & Hl)] _]%reachable_wf.
  - rewrite Hcap, Hcnt, Hk, Hv. unfold entries. rewrite Hcap. simpl.
    split_and!; try done. by left.
  - split; [apply Ha|]. split; [apply Ha|]. split; [right; split; [done|apply Ha]|].
    split; [done|]. unfold entries. etrans; [apply entries_le_used|done].
Qed.

(** [entries()] yields the live entries, each key once. *)
Lemma entries_present tb key v :
  wfc tb -> (key, v) ∈ entries tb <-> present tb key v.
Proof.
  intros Hwf. unfold entries. rewrite list_elem_of_omap. split.
  - intros (i & _ & Hi). destruct (key_at (keys tb) i) as [k|] eqn:E; [|done].
    simpl in Hi. injection Hi as <- <-. by exists i.
  - intros (j & Hj & <-). exists j. rewrite Hj. split; [|done].
    apply elem_of_seq. pose proof (key_at_Some_lt _ _ _ Hj) as Hlt.
    destruct Hwf as [(_ & _ & Hk & _)|(Ha & _)].
    + rewrite Hk in Hlt. simpl in Hlt. lia.
    + rewrite (awf_klen _ _ _ Ha) in Hlt. lia.
Qed.

Lemma entries_keys_NoDup tb : wfc tb -> NoDup (entries tb).*1.
Proof.
  intros Hwf. unfold entries.
  assert (forall i j key, key_at (keys tb) i = Some key ->
            key_at (keys tb) j = Some key -> i = j) as Huniq.
  { destruct Hwf as [(_ & _ & Hk & _)|(Ha & _)]; [|apply Ha].
    intros i j key Hi. rewrite Hk in Hi. unfold key_at in Hi. by rewrite lookup_nil in Hi. }
  induction (capacity tb) as [|n IH]; [constructor|].
  rewrite seq_S, omap_app, fmap_app. simpl.
  destruct (key_at (keys tb) n) as [key|] eqn:E; simpl; [|by rewrite app_nil_r].
  apply list.NoDup_app. split; [done|]. split; [|apply NoDup_singleton].
  intros k Hk ->%list_elem_of_singleton.
  apply list_elem_of_fmap in Hk as ([k' v'] & -> & Hin). simpl in *.
  apply list_elem_of_omap in Hin as (i & Hi%elem_of_seq & Hf).
  destruct (key_at (keys tb) i) as [k2|] eqn:E2; [|done]. simpl in Hf.
  injection Hf as -> _. pose proof (Huniq _ _ _ E2 E). lia.
Qed.

Lemma set_all_mono f g es : forall tb r,
  f <= g -> set_all f tb es = Ok r -> set_all g tb es = Ok r.
Proof.
  induction es as [|[key v] es IH]; intros tb r Hfg H; simpl in *; [done|].
  apply bind_Ok in H as ([tb1 b] & H1 & H).
  rewrite (set_mono _ _ _ _ _ _ Hfg H1). simpl. by eapply IH.
Qed.

(** [set] of one entry after the other: the entries end up in the table,
    the other keys stay. *)
Lemma set_all_spec es : forall tb,
  wf tb -> Forall (fun e => is_undefined e.2 = false) es -> NoDup es.*1 ->
  exists fuel0 tb',
    (forall fuel, fuel0 <= fuel -> set_all fuel tb es = Ok tb') /\ wf tb' /\
    forall key v, present tb' key v <->
      (key, v) ∈ es \/ (key ∉ es.*1) /\ present tb key v.
Proof.
  induction es as [|[k w] es IH]; intros tb Hwf Hes Hnd.
  - exists 0, tb. split; [done|]. split; [done|]. intros key v. split.
    + intros Hp. right. split; [apply not_elem_of_nil|done].
    + intros [Hin|[_ Hp]]; [by apply elem_of_nil in Hin|done].
  - apply list.Forall_cons in Hes as [Hw Hes]. simpl in Hnd, Hw.
    apply list.NoDup_cons in Hnd as [Hk Hnd]. pose proof Hwf as [Hc Ht].
    destruct (set_spec (2 * capacity tb + 8) tb k w Hc (le_n _))
      as (tb1 & b & Hs & Hc1 & _ & _ & _ & _ & Hp1 & Ho1 & Ht1).
    assert (wf tb1) as Hwf1 by (split; [done|by apply Ht1]).
    destruct (IH tb1 Hwf1 Hes Hnd) as (fuel2 & tb' & Hrun & Hwf' & Hiff).
    exists ((2 * capacity tb + 8) `max` fuel2), tb'. split_and!; [|done|].
    + intros fuel Hf. simpl.
      rewrite (set_mono (2 * capacity tb + 8) fuel _ _ _ _ ltac:(lia) Hs). simpl.
      apply Hrun. lia.
    + intros key v. rewrite Hiff, fmap_cons, elem_of_cons, not_elem_of_cons. simpl.
      destruct (decide (key = k)) as [->|Hne].
      * split.
        -- intros [Hin|[_ Hp]].
           ++ exfalso. apply Hk. apply list_elem_of_fmap. by exists (k, v).
           ++ left. left. by rewrite (present_functional _ _ _ _ Hc1 Hp Hp1).
        -- intros [[[= ->]|Hin]|[[? _] _]]; [|by left|done].
           right. done.
      * rewrite (Ho1 key v Hne). split.
        -- intros [Hin|[Hn Hp]]; [left; by right|right; done].
        -- intros [[[= -> _]|Hin]|[[_ Hn] Hp]]; [done|by left|by right].
Qed.

Lemma addAll_answers tb other :
  reachable tb -> reachable other ->
  exists fuel0 tb',
    (forall fuel, fuel0 <= fuel -> addAll fuel tb other = Ok tb') /\
    reachable tb' /\
    forall key v, answers other key v ->
      if is_undefined v then forall w, answers tb key w -> answers tb' key w
      else answers tb' key v.
Proof.
  intros Hr Hro. pose proof (reachable_wf _ Hr) as Hwf.
  pose proof (reachable_wf _ Hro) as Hwfo. pose proof Hwfo as [Hco Hto].
  destruct (set_all_spec (entries other) tb Hwf (entries_typed _ Hto)
              (entries_keys_NoDup _ Hco)) as (fuel0 & tb' & Hrun & Hwf' & Hiff).
  exists fuel0, tb'. split; [done|].
  split; [eapply (reach_addAll fuel0 tb other); [done|done|by apply Hrun]|].
  pose proof Hwf' as [Hc' _].
  intros key v Hv. destruct (answers_inv _ _ _ Hwfo Hv) as [[Hd Hp]|[-> Ha]].
  - rewrite Hd. apply answers_present; [done|]. apply Hiff. left.
    by apply entries_present.
  - simpl. intros w Hw. eapply answers_carried; [exact Hwf|done| |done].
    intros u. rewrite Hiff. split.
    + intros [Hin|[_ Hp]]; [|done]. apply entries_present in Hin; [|done].
      exfalso. by eapply present_absent.
    + intros Hp. right. split; [|done]. intros Hin.
      apply list_elem_of_fmap in Hin as ([k' u'] & -> & Hin).
      apply entries_present in Hin; [|done]. by eapply present_absent.
Qed.

(** X4: [this.addAll(other)] returns; afterwards a key that [other] holds
    is answered as [other] answers it, and every other key as before. *)
Theorem addAll_then_get tb other :
  reachable tb -> reachable other ->
  exists fuel0 tb',
    (forall fuel, fuel0 <= fuel -> addAll fuel tb other = Ok tb') /\
    reachable tb' /\
    forall key v, answers other key v ->
      if is_undefined v then forall w, answers tb key w -> answers tb' key w
      else answers tb' key v.
Proof. apply addAll_answers. Qed.

(** ***** The pool's lookups *)

Lemma findString_none p name :
  pool_inv p -> (forall s, interned p s -> chars s <> name) ->
  findString (strings p) name (hashString name) = Ok None.
Proof.
  intros Hinv Hnone. pose proof Hinv as [[Hc Ht] Hh Hch Hrf Hrfs].
  destruct (findString_total (strings p) name (hashString name) Hc) as (r & -> & Hr).
  destruct r as [key|]; [|done]. destruct Hr as [Hm Hlive].
  unfold matches in Hm. apply andb_true_iff in Hm as [_ Hm].
  apply bool_decide_eq_true in Hm. exfalso.
  apply (Hnone key); [by apply interned_not_absent|done].
Qed.

(** X5: [findString] finds an interned string by its characters: called
    with characters and their hash, it returns the interned string with
    these characters when there is one, and [undefined] when there is
    none. *)
Theorem findString_by_content p name :
  pool_steps Pool_new p ->
  (forall s, interned p s -> chars s = name ->
     findString (strings p) name (hashString name) = Ok (Some s)) /\
  ((forall s, interned p s -> chars s <> name) ->
     findString (strings p) name (hashString name) = Ok None).
Proof.
  intros Hsteps. destruct (pool_steps_inv _ _ pool_inv_new Hsteps) as [Hinv _].
  pose proof Hinv as [[Hc Ht] Hh Hch Hrf Hrfs]. split.
  - intros s Hs <-. rewrite <- (Hh s Hs). apply findString_found; [done| |].
    + by apply interned_not_absent.
    + intros key Hk Hm. unfold matches in Hm. apply andb_true_iff in Hm as [_ Hm].
      apply bool_decide_eq_true in Hm. apply Hch; [by apply interned_not_absent|done..].
  - intros Hnone. by apply findString_none.
Qed.

(** X6: [intern(name)] returns a string with the characters [name] and
    their hash; the pool afterwards holds the strings it held and the one
    returned, no other; when no string with these characters was there the
    one returned is a new object, and when one was there the pool is left
    as it was. *)
Theorem intern_adds_at_most_one fuel p name :
  pool_steps Pool_new p -> 2 * capacity (strings p) + 8 <= fuel ->
  exists p' s,
    intern fuel p name = Ok (p', s) /\ pool_steps Pool_new p' /\
    chars s = name /\ hash s = hashString name /\
    (forall k, interned p' k <-> interned p k \/ k = s) /\
    ((forall k, interned p k -> chars k <> name) ->
     ref s = fresh p /\ fresh p' = S (fresh p) /\ ~ interned p s) /\
    ((exists k, interned p k /\ chars k = name) -> p' = p).
Proof.
  intros Hsteps Hf. destruct (pool_steps_inv _ _ pool_inv_new Hsteps) as [Hinv _].
  destruct (intern_spec fuel p name Hinv Hf)
    as (p' & s & Hi & Hinv' & Hc & Hs & Hsame & Hiff).
  exists p', s. split; [done|]. split; [by eapply pool_steps_intern|].
  split; [done|]. split; [by rewrite (pi_hash _ Hinv' s Hs), Hc|]. split; [done|]. split.
  - intros Hnone.
    pose proof (findString_none p name Hinv Hnone) as Hfs.
    unfold intern in Hi. rewrite Hfs in Hi. simpl in Hi.
    apply bind_Ok in Hi as ([tb' b] & _ & Hi). injection Hi as <- <-. simpl.
    split; [done|]. split; [done|]. intros Hk. by apply (Hnone _ Hk).
  - intros (k & Hk & Hkc). apply Hsame.
    assert (interned p' k) as Hk' by (apply Hiff; by left).
    assert (k = s) as <-; [|done]. apply (pi_chars _ Hinv'); [done|done|congruence].
Qed.

(** ***** The theorems above, on a table and a pool *)

Definition key_a : LoxString := {| ref := 0; chars := "a"; hash := hashString "a" |}.
Definition key_b : LoxString := {| ref := 1; chars := "b"; hash := hashString "b" |}.

(** [set(a, 1)] on [new Table()] *)
Definition table_a : t :=
  match set 8 new key_a (VNumber 1) with Ok (tb, _) => tb | _ => new end.

(** [set(b, 2)] on [new Table()] *)
Definition table_b : t :=
  match set 8 new key_b (VNumber 2) with Ok (tb, _) => tb | _ => new end.

Lemma table_a_reachable : reachable table_a.
Proof.
  apply (reach_set 8 new key_a (VNumber 1) table_a true);
    [apply reach_new|reflexivity|by vm_compute].
Qed.

Lemma table_b_reachable : reachable table_b.
Proof.
  apply (reach_set 8 new key_b (VNumber 2) table_b true);
    [apply reach_new|reflexivity|by vm_compute].
Qed.

Lemma set_then_get_witness :
  exists tb' isNewKey,
    set 24 table_a key_b VNil = Ok (tb', isNewKey) /\ reachable tb' /\
    answers tb' key_b VNil /\
    (forall key' w, key' <> key_b -> answers table_a key' w -> answers tb' key' w) /\
    (isNewKey = true <-> answers table_a key_b VUndefined).
Proof.
  apply (set_then_get 24 table_a key_b VNil);
    [exact table_a_reachable|reflexivity|vm_compute; lia].
Defined.

Lemma delete_then_get_witness :
  exists tb' found,
    delete 8 table_a key_a = Ok (tb', found) /\ reachable tb' /\
    answers tb' key_a VUndefined /\
    (forall key' w, key' <> key_a -> answers table_a key' w -> answers tb' key' w) /\
    (found = false <-> answers table_a key_a VUndefined) /\
    capacity tb' = capacity table_a /\ count tb' = count table_a.
Proof.
  apply (delete_then_get 8 table_a key_a); [exact table_a_reachable|vm_compute; lia].
Defined.

Lemma table_shape_witness :
  length (keys table_a) = capacity table_a /\
  length (values table_a) = capacity table_a /\
  (capacity table_a = 0 \/ 8 <= capacity table_a /\ exists k, capacity table_a = 2 ^ k) /\
  4 * count table_a <= 3 * capacity table_a /\
  length (entries table_a) <= count table_a.
Proof. apply (table_shape table_a). exact table_a_reachable. Defined.

Lemma addAll_then_get_witness :
  exists fuel0 tb',
    (forall fuel, fuel0 <= fuel -> addAll fuel table_a table_b = Ok tb') /\
    reachable tb' /\
    forall key v, answers table_b key v ->
      if is_undefined v then forall w, answers table_a key w -> answers tb' key w
      else answers tb' key v.
Proof.
  apply (addAll_then_get table_a table_b);
    [exact table_a_reachable|exact table_b_reachable].
Defined.

(** [intern("a")] on [new Pool()] *)
Definition pool_a : Pool :=
  match intern 8 Pool_new "a" with Ok (p, _) => p | _ => Pool_new end.

Lemma pool_a_steps : pool_steps Pool_new pool_a.
Proof.
  apply (pool_steps_intern 8 Pool_new Pool_new pool_a "a" key_a);
    [apply pool_steps_refl|by vm_compute].
Qed.

Lemma findString_by_content_witness :
  (forall s, interned pool_a s -> chars s = "b"%string ->
     findString (strings pool_a) "b" (hashString "b") = Ok (Some s)) /\
  ((forall s, interned pool_a s -> chars s <> "b"%string) ->
     findString (strings pool_a) "b" (hashString "b") = Ok None).
Proof. apply (findString_by_content pool_a "b"). exact pool_a_steps. Defined.

Lemma intern_adds_at_most_one_witness :
  exists p' s,
    intern 24 pool_a "b" = Ok (p', s) /\ pool_steps Pool_new p' /\
    chars s = "b"%string /\ hash s = hashString "b" /\
    (forall k, interned p' k <-> interned pool_a k \/ k = s) /\
    ((forall k, interned pool_a k -> chars k <> "b"%string) ->
     ref s = fresh pool_a /\ fresh p' = S (fresh pool_a) /\ ~ interned pool_a s) /\
    ((exists k, interned pool_a k /\ chars k = "b"%string) -> p' = pool_a).
Proof.
  apply (intern_adds_at_most_one 24 pool_a "b"); [exact pool_a_steps|vm_compute; lia].
Defined.

(** One look-up with budget [capacity] settles [answers]. *)
Lemma answers_check tb key v :
  wfc tb -> get (capacity tb) tb key = Ok v -> answers tb key v.
Proof.
  intros Hwf Hget fuel Hf.
  destruct (get_spec (capacity tb) tb key Hwf (le_n _)) as (w & Hw & Hp & Ha).
  destruct (get_spec fuel tb key Hwf Hf) as (w' & Hw' & Hp' & Ha').
  rewrite Hw in Hget. injection Hget as ->. rewrite Hw'. f_equal.
  destruct (absent_or_present tb key) as [Habs|(u & Hu)].
  - by rewrite (Ha Habs), (Ha' Habs).
  - by rewrite (Hp _ Hu), (Hp' _ Hu).
Qed.

End TableFacts.

(** ** The scanner *)

Module ScannerFacts.
Import Scanner.

Lemma get_Some_lt (s : string) : forall n c, String.get n s = Some c -> n < String.length s.
Proof.
  induction s as [|a s IH]; intros n c H; [done|]. destruct n as [|n]; simpl in *; [lia|].
  apply IH in H. lia.
Qed.

(** No quote from [current] on. *)
Definition open_ended (sc : t) : Prop :=
  forall i, current sc <= i -> String.get i (source sc) <> Some quote.

(** Without a quote ahead the loop of [string()] uses up every budget. *)
Lemma string_loop_diverges : forall fuel sc,
  open_ended sc -> string_loop fuel sc = OutOfFuel.
Proof.
  induction fuel as [|fuel IH]; intros sc Hsc; [done|]. simpl.
  rewrite bool_decide_eq_false_2.
  - apply IH. intros i Hi. destruct (bool_decide (peek sc 0 = Some newline));
      simpl in *; apply Hsc; lia.
  - unfold peek. rewrite Nat.add_0_r. apply Hsc. lia.
Qed.

(** C4: when the scanner stands at a quote and no quote follows, [scanToken]
    uses up every budget: the loop of [string()] runs past the end of the
    source, where [peek()] is [undefined] and never the quote, and no
    [ERROR] token is returned. *)
Theorem unterminated_string_is_not_scanned sc :
  peek sc 0 = Some quote ->
  (forall i, current sc < i -> String.get i (source sc) <> Some quote) ->
  forall fuel, scanToken fuel sc = OutOfFuel.
Proof.
  intros Hq Hrest fuel. unfold scanToken.
  destruct fuel as [|fuel]; [done|].
  assert (skipWhiteSpace (S fuel) sc = Ok sc) as ->.
  { simpl. rewrite Hq. by vm_compute. }
  unfold mbind, Result_bind.
  set (sc' := {| source := source sc; start := current sc; current := current sc;
                 line := line sc; lineStart := lineStart sc |}).
  assert (done sc' = false) as ->.
  { apply bool_decide_eq_false_2. simpl. apply get_Some_lt in Hq. lia. }
  unfold advance. change (peek sc' 0) with (peek sc 0). rewrite Hq.
  repeat (rewrite bool_decide_eq_false_2 by done).
  rewrite (bool_decide_eq_true_2 (quote = quote)) by done.
  unfold string_. rewrite string_loop_diverges; [done|].
  intros i Hi. apply Hrest. simpl in Hi. lia.
Qed.

Lemma unterminated_string_is_not_scanned_witness :
  peek (new (String quote "abc")) 0 = Some quote /\
  forall fuel, scanToken fuel (new (String quote "abc")) = OutOfFuel.
Proof.
  split; [reflexivity|].
  apply (unterminated_string_is_not_scanned (new (String quote "abc"))).
  - reflexivity.
  - intros i Hi. simpl in Hi. do 5 (destruct i as [|i]; [simpl; done || lia|]). done.
Defined.

(** *** Tokens that are scanned *)

(** The newlines among the [n] characters from [from] on. *)
Fixpoint lines_in (s : string) (from n : nat) : nat :=
  match n with
  | O => 0
  | S n =>
      (if bool_decide (String.get from s = Some newline) then 1 else 0)
      + lines_in s (S from) n
  end.

(** With a quote [n] characters ahead the loop of [string()] stops there. *)
Lemma string_loop_finds : forall n fuel sc,
  String.get (current sc + n) (source sc) = Some quote ->
  (forall i, current sc <= i < current sc + n -> String.get i (source sc) <> Some quote) ->
  n < fuel ->
  exists sc', string_loop fuel sc = Ok sc' /\ source sc' = source sc /\
    start sc' = start sc /\ current sc' = current sc + n /\
    line sc' = line sc + lines_in (source sc) (current sc) n.
Proof.
  induction n as [|n IH]; intros fuel sc Hq Hno Hf;
    (destruct fuel as [|fuel]; [lia|]); simpl.
  - rewrite Nat.add_0_r in Hq. unfold peek. rewrite Nat.add_0_r, Hq.
    rewrite bool_decide_eq_true_2 by done. exists sc. split_and!; try done; lia.
  - rewrite bool_decide_eq_false_2.
    2:{ unfold peek. rewrite Nat.add_0_r. apply Hno. lia. }
    unfold peek. rewrite (Nat.add_0_r (current sc)).
    destruct (IH fuel (bump (if bool_decide (String.get (current sc) (source sc) = Some newline)
                             then nextLine sc else sc)))
      as (sc' & Hl & Hs & Hst & Hc & Hln).
    + case_bool_decide; simpl; by rewrite <- Nat.add_succ_comm in Hq.
    + intros i Hi. case_bool_decide; simpl in *; apply Hno; lia.
    + lia.
    + exists sc'. split; [done|]. case_bool_decide; simpl in *; split_and!; try done; lia.
Qed.

(** X7: a string literal that is closed is scanned as one [STRING] token:
    it ends after the first quote that follows the opening one, its lexeme
    is the text from quote to quote, and the scanner's line is advanced by
    the newlines inside the literal. *)
Theorem terminated_string_is_scanned sc j fuel :
  peek sc 0 = Some quote ->
  current sc < j ->
  String.get j (source sc) = Some quote ->
  (forall i, current sc < i < j -> String.get i (source sc) <> Some quote) ->
  j - current sc <= fuel ->
  exists tok sc',
    scanToken fuel sc = Ok (tok, sc') /\
    Token.type tok = STRING /\
    Token.lexeme tok =
      String.substring (current sc) (j + 1 - current sc) (source sc) /\
    source sc' = source sc /\ start sc' = current sc /\ current sc' = j + 1 /\
    line sc' = line sc + lines_in (source sc) (S (current sc)) (j - S (current sc)) /\
    Token.line tok = line sc'.
Proof.
  intros Hq Hj Hjq Hno Hf. unfold scanToken.
  destruct fuel as [|fuel]; [lia|].
  assert (skipWhiteSpace (S fuel) sc = Ok sc) as ->.
  { simpl. rewrite Hq. by vm_compute. }
  unfold mbind, Result_bind.
  set (sc0 := {| source := source sc; start := current sc; current := current sc;
                 line := line sc; lineStart := lineStart sc |}).
  assert (done sc0 = false) as ->.
  { apply bool_decide_eq_false_2. simpl. apply get_Some_lt in Hq. lia. }
  unfold advance. change (peek sc0 0) with (peek sc 0). rewrite Hq.
  repeat (rewrite bool_decide_eq_false_2 by done).
  rewrite (bool_decide_eq_true_2 (quote = quote)) by done.
  unfold string_.
  destruct (string_loop_finds (j - S (current sc)) (S fuel) (bump sc0))
    as (sc1 & -> & Hs & Hst & Hc & Hln); simpl.
  - by replace (S (current sc + (j - S (current sc)))) with j by lia.
  - intros i Hi. apply Hno. lia.
  - lia.
  - simpl in *. assert (current sc1 = j) as Hcj by lia.
    assert (done sc1 = false) as ->.
    { apply bool_decide_eq_false_2. rewrite Hs. apply get_Some_lt in Hjq. lia. }
    eexists _, _. split; [reflexivity|]. unfold token. simpl.
    rewrite Hs, Hst, Hcj, Hln. split_and!; try done; try lia.
    f_equal. lia.
Qed.

(** The source: a quote, [a], a quote, [b]. *)
Definition two_quotes : string := String quote (String "a" (String quote "b")).

Lemma terminated_string_is_scanned_witness :
  exists tok sc',
    scanToken 4 (new two_quotes) = Ok (tok, sc') /\
    Token.type tok = STRING /\
    Token.lexeme tok = String.substring 0 (2 + 1 - 0) two_quotes /\
    source sc' = two_quotes /\ start sc' = 0 /\ current sc' = 2 + 1 /\
    line sc' = 1 + lines_in two_quotes 1 (2 - 1) /\
    Token.line tok = line sc'.
Proof.
  apply (terminated_string_is_scanned (new two_quotes) 2 4).
  - reflexivity.
  - simpl. lia.
  - reflexivity.
  - intros i Hi. simpl in Hi. assert (i = 1) as -> by lia. done.
  - simpl. lia.
Defined.

(** *** Every token takes a part of the source *)



Lemma peek_None_done sc :
  current sc <= String.length (source sc) -> peek sc 0 = None ->
  current sc = String.length (source sc).
Proof.
  unfold peek. rewrite Nat.add_0_r. intros Hle Hn.
  destruct (decide (current sc = String.length (source sc))) as [|Hne]; [done|].
  exfalso. assert (current sc < String.length (source sc)) as Hlt by lia.
  clear Hle Hne. revert Hn Hlt. generalize (current sc).
  induction (source sc) as [|a s IH]; intros n Hn Hlt; simpl in *; [lia|].
  destruct n as [|n]; [done|]. apply (IH n); [done|lia].
Qed.

















End ScannerFacts.

(** ** The machine *)

Module VMFacts.
Import VM.

(** *** The open upvalues *)

Definition upvalue_at (h : list Obj) (u : nat) : option (Z * option nat) :=
  match h !! u with
  | Some (OUpvalue i next _) => Some (i, next)
  | _ => None
  end.

(** [seg h a l b]: following [next] from [a] one meets the upvalues [l],
    each with its index, and arrives at [b]. *)
Inductive seg (h : list Obj) : option nat -> list (nat * Z) -> option nat -> Prop :=
| seg_nil a : seg h a [] a
| seg_cons u i next l b :
    upvalue_at h u = Some (i, next) -> seg h next l b ->
    seg h (Some u) ((u, i) :: l) b.

(** The list that starts at [head] and ends with [null]. *)
Definition chain (h : list Obj) (head : option nat) (l : list (nat * Z)) : Prop :=
  seg h head l None.

Fixpoint descending (l : list Z) : Prop :=
  match l with
  | a :: (b :: _) as t => (b < a)%Z /\ descending t
  | _ => True
  end.

Definition open_sorted (vm : t) : Prop :=
  exists l, chain (heap vm) (openUpvalues vm) l /\ descending l.*2.

(** A frame of [this.frames] is a frame of a closure of a function. *)
Definition frame_ok (h : list Obj) (r : nat) : Prop :=
  exists c ip off f us func,
    h !! r = Some (OFrame c ip off) /\ h !! c = Some (OClosure f us) /\
    h !! f = Some (OFunction func).

Definition frames_ok (vm : t) : Prop := Forall (frame_ok (heap vm)) (frames vm).

Definition Inv (vm : t) : Prop :=
  length (frames vm) <= 64 /\ open_sorted vm /\ frames_ok vm.

(** The store keeps its upvalues, their indices and their links. *)
Definition keeps (h h' : list Obj) : Prop :=
  forall u x, upvalue_at h u = Some x -> upvalue_at h' u = Some x.

(** What an object of the store stays: a frame of its closure, a closure
    of its function, a function. *)
Definition shape (o o' : Obj) : Prop :=
  match o with
  | OFrame c _ _ => exists ip off, o' = OFrame c ip off
  | OClosure f _ => exists us, o' = OClosure f us
  | OFunction func => o' = OFunction func
  | _ => True
  end.

Definition kept (h h' : list Obj) : Prop :=
  forall r o, h !! r = Some o -> exists o', h' !! r = Some o' /\ shape o o'.

Definition stable (vm vm' : t) : Prop :=
  keeps (heap vm) (heap vm') /\ kept (heap vm) (heap vm') /\
  openUpvalues vm' = openUpvalues vm /\ frames vm' = frames vm.

#[local] Instance keeps_refl : Reflexive keeps.
Proof. by intros h u x. Qed.
#[local] Instance keeps_trans : Transitive keeps.
Proof. intros h1 h2 h3 H1 H2 u x Hu. by apply H2, H1. Qed.
Lemma shape_refl o : shape o o.
Proof. destruct o; simpl; eauto. Qed.
Lemma shape_trans o1 o2 o3 : shape o1 o2 -> shape o2 o3 -> shape o1 o3.
Proof.
  destruct o1; simpl; try done.
  - by intros ->.
  - by intros [us' ->].
  - by intros (ip' & off' & ->).
Qed.
#[local] Instance kept_refl : Reflexive kept.
Proof. intros h r o Ho. exists o. split; [done|apply shape_refl]. Qed.
#[local] Instance kept_trans : Transitive kept.
Proof.
  intros h1 h2 h3 H1 H2 r o Ho. destruct (H1 r o Ho) as (o2 & Ho2 & Hs2).
  destruct (H2 r o2 Ho2) as (o3 & Ho3 & Hs3). exists o3. split; [done|].
  by eapply shape_trans.
Qed.
#[local] Instance stable_refl : Reflexive stable.
Proof. intros vm. split; [reflexivity|]. split; [reflexivity|done]. Qed.
#[local] Instance stable_trans : Transitive stable.
Proof.
  intros a b c (? & ? & ? & ?) (? & ? & ? & ?). split; [by etrans|].
  split; [by etrans|]. split; congruence.
Qed.

Definition keeps_Inv (vm vm' : t) : Prop := Inv vm -> Inv vm'.
#[local] Instance keeps_Inv_refl : Reflexive keeps_Inv.
Proof. intros vm H. exact H. Qed.
#[local] Instance keeps_Inv_trans : Transitive keeps_Inv.
Proof. intros a b c H1 H2 H. by apply H2, H1. Qed.

Lemma seg_keeps h h' a l b : keeps h h' -> seg h a l b -> seg h' a l b.
Proof. intros Hk. induction 1; econstructor; eauto. Qed.

Lemma frame_ok_kept h h' r : kept h h' -> frame_ok h r -> frame_ok h' r.
Proof.
  intros Hk (c & ip & off & f & us & func & Hr & Hc & Hf).
  destruct (Hk _ _ Hr) as (o1 & Hr' & ip' & off' & ->).
  destruct (Hk _ _ Hc) as (o2 & Hc' & us' & ->).
  destruct (Hk _ _ Hf) as (o3 & Hf' & ->).
  unfold frame_ok. eauto 10.
Qed.

Lemma frames_ok_kept h h' fs :
  kept h h' -> Forall (frame_ok h) fs -> Forall (frame_ok h') fs.
Proof. intros Hk. apply Forall_impl. intros r. by apply frame_ok_kept. Qed.

Lemma stable_Inv vm vm' : stable vm vm' -> Inv vm -> Inv vm'.
Proof.
  intros (Hk & Hkept & Ho & Hf) (Hl & (l & Hc & Hd) & Hfs). split; [by rewrite Hf|]. split.
  - exists l. split; [|done]. unfold chain. rewrite Ho. by eapply seg_keeps.
  - unfold frames_ok. rewrite Hf. by eapply frames_ok_kept.
Qed.

(** *** What a computation does to the state *)

Definition pres {A} (R : t -> t -> Prop) (m : M A) : Prop :=
  forall vm a vm', m vm = Ok (a, vm') -> R vm vm'.

Section pres.
Context (R : t -> t -> Prop) `{!Reflexive R, !Transitive R}.

Lemma pres_ret {A} (a : A) : pres R (mret a).
Proof. intros vm a' vm' [= <- <-]. done. Qed.

Lemma pres_bind {A B} (m : M A) (f : A -> M B) :
  pres R m -> (forall a, pres R (f a)) -> pres R (m ≫= f).
Proof.
  intros Hm Hf vm b vm' H. unfold mbind, M_bind in H.
  destruct (m vm) as [[a vm1]| | |] eqn:E; try done.
  etrans; [by eapply Hm|by eapply Hf].
Qed.

Lemma pres_read : pres R read.
Proof. intros vm a vm' [= <- <-]. done. Qed.

Lemma pres_lift {A} (r : Result A) : pres R (lift r).
Proof. intros vm a vm' H. unfold lift in H. destruct r; try done. by injection H as <- <-. Qed.

Lemma pres_throw {A} e : pres R (@throw A e).
Proof. by intros vm a vm' H. Qed.

Lemma pres_ill_typed {A} : pres R (@ill_typed A).
Proof. by intros vm a vm' H. Qed.

End pres.

Lemma pres_stable_Inv {A} (m : M A) : pres stable m -> pres keeps_Inv m.
Proof. intros H vm a vm' E. unfold keeps_Inv. apply stable_Inv. by eapply H. Qed.

(** Take a computation apart: binds, branches, and the hints for the rest. *)
Create HintDb pres discriminated.

Ltac pres_step :=
  lazymatch goal with
  | |- pres _ (mret _) => apply pres_ret; try apply _
  | |- pres _ (_ ≫= _) => apply pres_bind; [apply _| |intros ?]
  | |- pres _ (lift _) => apply pres_lift; apply _
  | |- pres _ read => apply pres_read; apply _
  | |- pres _ (throw _) => apply pres_throw
  | |- pres _ ill_typed => apply pres_ill_typed
  | |- pres _ (match ?x with _ => _ end) => destruct x
  | |- pres _ (let '(_, _) := ?x in _) => destruct x
  end.

Ltac pres_tac := repeat (first [pres_step | solve [eauto with pres]]).

(** **** Writes that leave the upvalues, their list and the frames alone *)

Lemma set_stack_stable st : pres stable (set_stack st).
Proof. intros vm a vm' [= <- <-]. done. Qed.
Lemma set_globals_stable g : pres stable (set_globals g).
Proof. intros vm a vm' [= <- <-]. done. Qed.
Lemma set_pool_stable p : pres stable (set_pool p).
Proof. intros vm a vm' [= <- <-]. done. Qed.
Lemma log_stable l : pres stable (log l).
Proof. intros vm a vm' [= <- <-]. done. Qed.
Lemma log_error_stable s : pres stable (log_error s).
Proof. intros vm a vm' [= <- <-]. done. Qed.
#[local] Hint Resolve set_stack_stable set_globals_stable set_pool_stable
  log_stable log_error_stable : pres.

Lemma upvalue_at_app h o u x : upvalue_at h u = Some x -> upvalue_at (h ++ [o]) u = Some x.
Proof.
  unfold upvalue_at. intros H. destruct (h !! u) as [o'|] eqn:E; [|done].
  by rewrite (lookup_app_l_Some _ _ _ _ E).
Qed.

Lemma keeps_app h o : keeps h (h ++ [o]).
Proof. intros u x. apply upvalue_at_app. Qed.

Lemma kept_app h l : kept h (h ++ l).
Proof.
  intros r o Ho. exists o. split; [by apply lookup_app_l_Some|apply shape_refl].
Qed.

Lemma kept_insert h r o :
  (forall o0, h !! r = Some o0 -> shape o0 o) -> kept h (<[r := o]> h).
Proof.
  intros Hr u x Hu. destruct (decide (u = r)) as [->|Hne].
  - exists o. split; [|by apply Hr].
    apply list_lookup_insert_eq. by eapply lookup_lt_Some.
  - exists x. split; [by rewrite list_lookup_insert_ne|apply shape_refl].
Qed.

(** Writing [o] over an object that is no upvalue, or over an upvalue with
    the same index and link. *)
Lemma keeps_insert h r o :
  (forall x, upvalue_at h r = Some x -> upvalue_at [o] 0 = Some x) ->
  keeps h (<[r := o]> h).
Proof.
  intros Hr u x Hu. unfold upvalue_at in *.
  destruct (decide (u = r)) as [->|Hne].
  - destruct (h !! r) as [o'|] eqn:E; [|done].
    rewrite list_lookup_insert_eq by by eapply lookup_lt_Some.
    by apply Hr.
  - by rewrite list_lookup_insert_ne.
Qed.

Lemma deref_stable r : pres stable (deref r).
Proof. unfold deref. pres_tac. Qed.
#[local] Hint Resolve deref_stable : pres.

Lemma deref_Ok r vm o vm' : deref r vm = Ok (o, vm') -> vm' = vm /\ heap vm !! r = Some o.
Proof.
  unfold deref, mbind, M_bind, read. simpl. destruct (heap vm !! r); [|done].
  by intros [= <- <-].
Qed.

Lemma alloc_stable o : pres stable (alloc o).
Proof.
  intros vm a vm' H. unfold alloc, mbind, M_bind, read, set_heap in H. simpl in H.
  injection H as <- <-. split; [apply keeps_app|]. split; [apply kept_app|done].
Qed.
#[local] Hint Resolve alloc_stable : pres.

Lemma the_frame_stable r : pres stable (the_frame r).
Proof. unfold the_frame. pres_tac. Qed.
Lemma the_closure_stable r : pres stable (the_closure r).
Proof. unfold the_closure. pres_tac. Qed.
Lemma the_function_stable r : pres stable (the_function r).
Proof. unfold the_function. pres_tac. Qed.
Lemma the_class_stable r : pres stable (the_class r).
Proof. unfold the_class. pres_tac. Qed.
Lemma the_upvalue_stable r : pres stable (the_upvalue r).
Proof. unfold the_upvalue. pres_tac. Qed.
#[local] Hint Resolve the_frame_stable the_closure_stable the_function_stable
  the_class_stable the_upvalue_stable : pres.

Lemma bind_inv {A B} (m : M A) (f : A -> M B) vm b vm' :
  (m ≫= f) vm = Ok (b, vm') ->
  exists a vm1, m vm = Ok (a, vm1) /\ f a vm1 = Ok (b, vm').
Proof.
  unfold mbind, M_bind. destruct (m vm) as [[a vm1]| | |]; try done. eauto.
Qed.

Lemma read_inv vm a vm' : read vm = Ok (a, vm') -> a = vm /\ vm' = vm.
Proof. by intros [= <- <-]. Qed.

Lemma ret_inv {A} (x : A) vm a vm' :
  (mret x : M A) vm = Ok (a, vm') -> a = x /\ vm' = vm.
Proof. by intros [= <- <-]. Qed.

Lemma the_frame_Ok r vm x vm' :
  the_frame r vm = Ok (x, vm') ->
  vm' = vm /\ heap vm !! r = Some (OFrame x.1.1 x.1.2 x.2).
Proof.
  unfold the_frame. intros (o & vm1 & [-> Ho]%deref_Ok & H)%bind_inv.
  destruct o; try done. by apply ret_inv in H as [-> ->].
Qed.
Lemma the_closure_Ok r vm x vm' :
  the_closure r vm = Ok (x, vm') ->
  vm' = vm /\ heap vm !! r = Some (OClosure x.1 x.2).
Proof.
  unfold the_closure. intros (o & vm1 & [-> Ho]%deref_Ok & H)%bind_inv.
  destruct o; try done. by apply ret_inv in H as [-> ->].
Qed.
Lemma the_class_Ok r vm x vm' :
  the_class r vm = Ok (x, vm') ->
  vm' = vm /\ heap vm !! r = Some (OClass x.1 x.2).
Proof.
  unfold the_class. intros (o & vm1 & [-> Ho]%deref_Ok & H)%bind_inv.
  destruct o; try done. by apply ret_inv in H as [-> ->].
Qed.
Lemma the_function_Ok r vm x vm' :
  the_function r vm = Ok (x, vm') ->
  vm' = vm /\ heap vm !! r = Some (OFunction x).
Proof.
  unfold the_function. intros (o & vm1 & [-> Ho]%deref_Ok & H)%bind_inv.
  destruct o; try done. by apply ret_inv in H as [-> ->].
Qed.
Lemma the_upvalue_Ok r vm x vm' :
  the_upvalue r vm = Ok (x, vm') ->
  vm' = vm /\ heap vm !! r = Some (OUpvalue x.1.1 x.1.2 x.2).
Proof.
  unfold the_upvalue. intros (o & vm1 & [-> Ho]%deref_Ok & H)%bind_inv.
  destruct o; try done. by apply ret_inv in H as [-> ->].
Qed.

Lemma set_heap_keeps h : forall vm a vm',
  keeps (heap vm) h -> kept (heap vm) h -> set_heap h vm = Ok (a, vm') -> stable vm vm'.
Proof. intros vm a vm' Hk Hkept [= <- <-]. done. Qed.

Lemma set_ip_stable r ip : pres stable (set_ip r ip).
Proof.
  intros vm a vm'. unfold set_ip.
  intros ([[c ip0] off] & vm1 & [-> Ho]%the_frame_Ok & H)%bind_inv.
  apply bind_inv in H as (? & ? & [-> ->]%read_inv & H).
  simpl in Ho. eapply set_heap_keeps; [| |done].
  - apply keeps_insert. unfold upvalue_at. by rewrite Ho.
  - apply kept_insert. intros o0. rewrite Ho. intros [= <-]. simpl. eauto.
Qed.
Lemma set_upvalues_stable r us : pres stable (set_upvalues r us).
Proof.
  intros vm a vm'. unfold set_upvalues.
  intros ([f us0] & vm1 & [-> Ho]%the_closure_Ok & H)%bind_inv.
  apply bind_inv in H as (? & ? & [-> ->]%read_inv & H).
  simpl in Ho. eapply set_heap_keeps; [| |done].
  - apply keeps_insert. unfold upvalue_at. by rewrite Ho.
  - apply kept_insert. intros o0. rewrite Ho. intros [= <-]. simpl. eauto.
Qed.
Lemma set_methods_stable r ms : pres stable (set_methods r ms).
Proof.
  intros vm a vm'. unfold set_methods.
  intros ([n ms0] & vm1 & [-> Ho]%the_class_Ok & H)%bind_inv.
  apply bind_inv in H as (? & ? & [-> ->]%read_inv & H).
  simpl in Ho. eapply set_heap_keeps; [| |done].
  - apply keeps_insert. unfold upvalue_at. by rewrite Ho.
  - apply kept_insert. intros o0. rewrite Ho. intros [= <-]. simpl. eauto.
Qed.
Lemma set_fields_stable r fs : pres stable (set_fields r fs).
Proof.
  intros vm a vm'. unfold set_fields.
  intros (o & vm1 & [-> Ho]%deref_Ok & H)%bind_inv.
  destruct o; try done.
  apply bind_inv in H as (? & ? & [-> ->]%read_inv & H).
  eapply set_heap_keeps; [| |done].
  - apply keeps_insert. unfold upvalue_at. by rewrite Ho.
  - apply kept_insert. intros o0. rewrite Ho. intros [= <-]. simpl. eauto.
Qed.
Lemma set_closed_stable r v : pres stable (set_closed r v).
Proof.
  intros vm a vm'. unfold set_closed.
  intros ([[i n] c] & vm1 & [-> Ho]%the_upvalue_Ok & H)%bind_inv.
  apply bind_inv in H as (? & ? & [-> ->]%read_inv & H).
  simpl in Ho. eapply set_heap_keeps; [| |done].
  - apply keeps_insert. unfold upvalue_at. by rewrite Ho.
  - apply kept_insert. intros o0. rewrite Ho. intros [= <-]. simpl. eauto.
Qed.
#[local] Hint Resolve set_ip_stable set_upvalues_stable set_methods_stable
  set_fields_stable set_closed_stable : pres.

(** **** The methods that leave them alone *)

Lemma push_stable v : pres stable (push v).
Proof. unfold push. pres_tac. Qed.
Lemma pop_stable : pres stable pop.
Proof. unfold pop. pres_tac. Qed.
Lemma peek_stable d : pres stable (peek d).
Proof. unfold peek. pres_tac. Qed.
Lemma put_stable d v : pres stable (put d v).
Proof. unfold put. pres_tac. Qed.
#[local] Hint Resolve push_stable pop_stable peek_stable put_stable : pres.

Lemma trace_line_stable r : pres stable (trace_line r).
Proof. unfold trace_line. pres_tac. Qed.
#[local] Hint Resolve trace_line_stable : pres.
Lemma trace_stable rs : pres stable (trace rs).
Proof. induction rs; simpl; pres_tac. Qed.
#[local] Hint Resolve trace_stable : pres.

Lemma as_closure_stable v : pres stable (as_closure v).
Proof. unfold as_closure. pres_tac. Qed.
Lemma as_class_stable v : pres stable (as_class v).
Proof. unfold as_class. pres_tac. Qed.
Lemma table_get_stable fuel tb key : pres stable (table_get fuel tb key).
Proof. unfold table_get. pres_tac. Qed.
#[local] Hint Resolve as_closure_stable as_class_stable table_get_stable : pres.
Lemma printValue_stable v : pres stable (printValue v).
Proof. unfold printValue. pres_tac. Qed.
Lemma concatenate_stable fuel : pres stable (concatenate fuel).
Proof. unfold concatenate. pres_tac. Qed.
Lemma defineMethod_stable fuel name : pres stable (defineMethod fuel name).
Proof. unfold defineMethod. pres_tac. Qed.
Lemma defineNative_stable fuel name f : pres stable (defineNative fuel name f).
Proof. unfold defineNative. pres_tac. Qed.
Lemma current_stable frame : pres stable (current frame).
Proof. unfold current. pres_tac. Qed.
#[local] Hint Resolve printValue_stable concatenate_stable defineMethod_stable
  defineNative_stable current_stable : pres.
Lemma readByte_stable frame : pres stable (readByte frame).
Proof. unfold readByte. pres_tac. Qed.
#[local] Hint Resolve readByte_stable : pres.
Lemma operand_stable frame : pres stable (operand frame).
Proof. unfold operand. pres_tac. Qed.
#[local] Hint Resolve operand_stable : pres.
Lemma readShort_stable frame : pres stable (readShort frame).
Proof. unfold readShort. pres_tac. Qed.
Lemma readConstant_stable frame : pres stable (readConstant frame).
Proof. unfold readConstant. pres_tac. Qed.
#[local] Hint Resolve readShort_stable readConstant_stable : pres.
Lemma readString_stable frame : pres stable (readString frame).
Proof. unfold readString. pres_tac. Qed.
Lemma jump_stable frame d : pres stable (jump frame d).
Proof. unfold jump. pres_tac. Qed.
Lemma top_frame_stable : pres stable top_frame.
Proof. unfold top_frame. pres_tac. Qed.
#[local] Hint Resolve readString_stable jump_stable top_frame_stable : pres.

(** *** Lists in the store *)

Lemma seg_app h a l1 b l2 c : seg h a l1 b -> seg h b l2 c -> seg h a (l1 ++ l2) c.
Proof. induction 1; simpl; [done|]. intros. econstructor; eauto. Qed.

Lemma seg_snoc_inv h a l p ip b :
  seg h a (l ++ [(p, ip)]) b -> seg h a l (Some p) /\ upvalue_at h p = Some (ip, b).
Proof.
  revert a. induction l as [|[u i] l IH]; intros a H; simpl in H.
  - inversion H as [|? ? ? ? ? Hu Hs]; subst. inversion Hs; subst. split; [constructor|done].
  - inversion H as [|? ? ? ? ? Hu Hs]; subst. apply IH in Hs as [Hs Hp].
    split; [by econstructor|done].
Qed.

Lemma seg_index h a l b u i : seg h a l b -> (u, i) ∈ l -> exists n, upvalue_at h u = Some (i, n).
Proof.
  induction 1 as [|u0 i0 next l b Hu Hs IH]; intros Hin.
  - by apply elem_of_nil in Hin.
  - apply elem_of_cons in Hin as [[= -> ->]|Hin]; eauto.
Qed.

Lemma seg_lt h a l b u i : seg h a l b -> (u, i) ∈ l -> u < length h.
Proof.
  intros Hs Hin. destruct (seg_index _ _ _ _ _ _ Hs Hin) as [n Hn].
  unfold upvalue_at in Hn. destruct (h !! u) eqn:E; [|done]. by eapply lookup_lt_Some.
Qed.

Lemma descending_lt i l j : descending (i :: l) -> j ∈ l -> (j < i)%Z.
Proof.
  revert i. induction l as [|k l IH]; intros i Hd Hin; [by apply elem_of_nil in Hin|].
  destruct Hd as [Hki Hd]. apply elem_of_cons in Hin as [->|Hin]; [done|].
  specialize (IH k Hd Hin). lia.
Qed.

Lemma descending_tail i l : descending (i :: l) -> descending l.
Proof. destruct l; [done|]. by intros [_ ?]. Qed.

Lemma descending_app_r l1 l2 : descending (l1 ++ l2) -> descending l2.
Proof. induction l1 as [|i l1 IH]; [done|]. intros H. by apply IH, (descending_tail i). Qed.

(** In a descending list every upvalue occurs once. *)
Lemma seg_head_fresh h u i next l b :
  upvalue_at h u = Some (i, next) -> seg h next l b -> descending (i :: l.*2) ->
  u ∉ l.*1.
Proof.
  intros Hu Hs Hd Hin. apply list_elem_of_fmap in Hin as ([u' j] & -> & Hin). simpl in *.
  destruct (seg_index _ _ _ _ _ _ Hs Hin) as [n Hn].
  assert (j = i) as -> by congruence.
  assert ((i < i)%Z); [|lia]. eapply descending_lt; [done|].
  apply list_elem_of_fmap. by exists (u', i).
Qed.

Lemma seg_insert h a l b r o :
  r ∉ l.*1 -> seg h a l b -> seg (<[r := o]> h) a l b.
Proof.
  intros Hr. induction 1 as [|u i next l b Hu Hs IH]; [constructor|].
  simpl in Hr. apply not_elem_of_cons in Hr as [Hne Hr].
  econstructor; [|by apply IH]. unfold upvalue_at in *.
  by rewrite list_lookup_insert_ne.
Qed.

Lemma upvalue_at_insert h r i n c :
  r < length h -> upvalue_at (<[r := OUpvalue i n c]> h) r = Some (i, n).
Proof. intros. unfold upvalue_at. by rewrite list_lookup_insert_eq. Qed.

Lemma upvalue_at_new h i n c :
  upvalue_at (h ++ [OUpvalue i n c]) (length h) = Some (i, n).
Proof.
  unfold upvalue_at. rewrite lookup_app_r by lia. by rewrite Nat.sub_diag.
Qed.

Lemma descending_insert la lb (index : Z) :
  descending (la ++ lb) ->
  Forall (fun i => index < i)%Z la ->
  (forall i, head lb = Some i -> (i < index)%Z) ->
  descending (la ++ index :: lb).
Proof.
  induction la as [|a la IH]; simpl; intros Hd Hla Hlb.
  - destruct lb as [|b lb]; [done|]. split; [by apply Hlb|done].
  - inversion Hla as [|? ? Ha Hla']; subst.
    assert (descending (la ++ index :: lb)) as Hrec.
    { apply IH; [|done..]. by eapply descending_tail. }
    destruct la as [|a' la]; simpl in *; [done|].
    split; [|done]. by destruct Hd.
Qed.

(** *** closeUpvalues *)

Lemma set_openUpvalues_inv u vm a vm' :
  set_openUpvalues u vm = Ok (a, vm') ->
  heap vm' = heap vm /\ openUpvalues vm' = u /\ frames vm' = frames vm /\
  stack vm' = stack vm.
Proof. by intros [= <- <-]. Qed.

Lemma close_inv u v vm a vm' :
  close u v vm = Ok (a, vm') ->
  exists i n c, heap vm !! u = Some (OUpvalue i n c) /\
    heap vm' = <[u := OUpvalue (-1) n v]> (heap vm) /\
    openUpvalues vm' = openUpvalues vm /\ frames vm' = frames vm /\
    stack vm' = stack vm.
Proof.
  unfold close. intros ([[i n] c] & vm1 & [-> Ho]%the_upvalue_Ok & H)%bind_inv.
  apply bind_inv in H as (? & ? & [-> ->]%read_inv & H).
  injection H as <- <-. simpl in *. eauto 10.
Qed.

Lemma closeUpvalues_loop_spec last n : forall vm vm' l,
  chain (heap vm) (openUpvalues vm) l -> descending l.*2 ->
  closeUpvalues_loop n last vm = Ok (tt, vm') ->
  frames vm' = frames vm /\ stack vm' = stack vm /\ kept (heap vm) (heap vm') /\
  exists la lb, l = la ++ lb /\ chain (heap vm') (openUpvalues vm') lb /\
    Forall (fun x => last <= x.2)%Z la /\
    (forall x, head lb = Some x -> (x.2 < last)%Z).
Proof.
  induction n as [|n IH]; intros vm vm' l Hc Hd H; simpl in H; [done|].
  apply bind_inv in H as (? & ? & [-> ->]%read_inv & H).
  destruct (openUpvalues vm) as [u|] eqn:Eo.
  - apply bind_inv in H as ([[i next] c] & vm1 & [-> Ho]%the_upvalue_Ok & H). simpl in Ho.
    inversion Hc as [|? i' next' l0 ? Hu Hs]; subst.
    assert (i' = i /\ next' = next) as [-> ->].
    { unfold upvalue_at in Hu. rewrite Ho in Hu. by injection Hu as <- <-. }
    destruct (Z.leb_spec last i) as [Hle|Hgt].
    + apply bind_inv in H as (? & vm1 & Hcl & H).
      apply close_inv in Hcl as (i0 & n0 & c0 & Ho' & Hh1 & Ho1 & Hf1 & Hs1).
      rewrite Ho in Ho'. injection Ho' as <- <- <-.
      apply bind_inv in H as (? & vm2 & (Hh2 & Ho2 & Hf2 & Hs2)%set_openUpvalues_inv & H).
      apply IH with (l := l0) in H as (Hf & Hst & Hk & la & lb & -> & Hc' & Hla & Hlb).
      * split; [congruence|]. split; [congruence|]. split.
        { etrans; [|exact Hk]. rewrite Hh2, Hh1. apply kept_insert.
          intros o0. rewrite Ho. by intros [= <-]. }
        exists ((u, i) :: la), lb. split; [done|]. split; [done|]. split; [|done].
        by constructor.
      * unfold chain. rewrite Hh2, Ho2, Hh1. apply seg_insert; [|done].
        by eapply seg_head_fresh.
      * by eapply descending_tail.
    + apply ret_inv in H as [_ ->]. split; [done|]. split; [done|].
      split; [reflexivity|].
      exists [], ((u, i) :: l0). split; [done|]. split; [by rewrite Eo|].
      split; [done|]. intros x [= <-]. simpl. lia.
  - apply ret_inv in H as [_ ->]. inversion Hc; subst. split; [done|]. split; [done|].
    split; [reflexivity|].
    exists [], []. split; [done|]. split; [rewrite Eo; constructor|]. done.
Qed.

Lemma closeUpvalues_Inv fuel last : pres keeps_Inv (closeUpvalues fuel last).
Proof.
  intros vm [] vm' H (Hf & (l & Hc & Hd) & Hfs).
  destruct (closeUpvalues_loop_spec _ _ _ _ _ Hc Hd H)
    as (Hf' & _ & Hk & la & lb & -> & Hc' & _).
  split; [by rewrite Hf'|]. split.
  - exists lb. split; [done|]. rewrite fmap_app in Hd. by eapply descending_app_r.
  - unfold frames_ok. rewrite Hf'. by eapply frames_ok_kept.
Qed.

(** *** captureUpvalue *)

Lemma capture_walk_spec h index n : forall l prev up prev' up',
  seg h up l None ->
  capture_walk n h prev up index = Ok (prev', up') ->
  exists la lb, l = la ++ lb /\ seg h up la up' /\ seg h up' lb None /\
    Forall (fun x => index < x.2)%Z la /\
    (forall x, head lb = Some x -> (x.2 <= index)%Z) /\
    (la = [] /\ prev' = prev \/ exists la0 p, la = la0 ++ [p] /\ prev' = Some p.1).
Proof.
  induction n as [|n IH]; intros l prev up prev' up' Hs H; simpl in H; [done|].
  destruct up as [u|].
  - inversion Hs as [|? i next l0 ? Hu Hs0]; subst.
    unfold upvalue_at in Hu. destruct (h !! u) as [[]|] eqn:Eh; try done.
    injection Hu as -> ->.
    destruct (Z.ltb_spec index i) as [Hlt|Hge].
    + apply (IH l0) in H as (la & lb & -> & Hsa & Hsb & Hla & Hlb & Hprev); [|done].
      exists ((u, i) :: la), lb. split; [done|]. split_and!; try done.
      * econstructor; [|done]. unfold upvalue_at. by rewrite Eh.
      * by constructor.
      * right. destruct Hprev as [[-> ->]|(la0 & p & -> & ->)].
        -- by exists [], (u, i).
        -- by exists ((u, i) :: la0), p.
    + injection H as <- <-. exists [], ((u, i) :: l0). split; [done|].
      split; [constructor|]. split; [done|]. split; [constructor|].
      split; [|by left]. intros x [= <-]. simpl. lia.
  - injection H as <- <-. inversion Hs; subst. exists [], [].
    split; [done|]. split; [constructor|]. split; [constructor|].
    split; [constructor|]. split; [done|by left].
Qed.

(** With a budget above the length of the list the walk returns. *)
Lemma capture_walk_total h index : forall l n prev up,
  seg h up l None -> length l < n ->
  is_Ok (capture_walk n h prev up index).
Proof.
  induction l as [|[u i] l IH]; intros n prev up Hs Hn;
    (destruct n as [|n]; [simpl in Hn; lia|]); simpl.
  - inversion Hs; subst. by eexists.
  - inversion Hs as [|? ? next ? ? Hu Hs0]; subst.
    unfold upvalue_at in Hu. destruct (h !! u) as [[]|] eqn:Eh; try done.
    injection Hu as -> ->.
    destruct (index <? i)%Z; [|by eexists]. apply (IH n); [done|simpl in Hn; lia].
Qed.

Lemma alloc_inv o vm r vm' :
  alloc o vm = Ok (r, vm') ->
  r = length (heap vm) /\ heap vm' = heap vm ++ [o] /\
  openUpvalues vm' = openUpvalues vm /\ frames vm' = frames vm /\
  stack vm' = stack vm.
Proof.
  unfold alloc. intros (? & ? & [-> ->]%read_inv & H)%bind_inv.
  apply bind_inv in H as (? & vm1 & H1 & H). unfold set_heap in H1.
  injection H1 as <- <-. by apply ret_inv in H as [-> ->].
Qed.

Lemma set_next_inv u n vm a vm' :
  set_next u n vm = Ok (a, vm') ->
  exists i n0 c, heap vm !! u = Some (OUpvalue i n0 c) /\
    heap vm' = <[u := OUpvalue i n c]> (heap vm) /\
    openUpvalues vm' = openUpvalues vm /\ frames vm' = frames vm /\
    stack vm' = stack vm.
Proof.
  unfold set_next. intros ([[i n0] c] & vm1 & [-> Ho]%the_upvalue_Ok & H)%bind_inv.
  apply bind_inv in H as (? & ? & [-> ->]%read_inv & H).
  injection H as <- <-. simpl in *. eauto 10.
Qed.

Lemma lift_inv {A} (r : Result A) vm a vm' : lift r vm = Ok (a, vm') -> r = Ok a /\ vm' = vm.
Proof. unfold lift. destruct r; try done. by intros [= <- <-]. Qed.

(** [captureUpvalue] returns an upvalue of the list with the index asked
    for: one that was there, and then nothing changes, or a new one, put
    where the order wants it. *)
Lemma captureUpvalue_spec fuel index vm u vm' l :
  chain (heap vm) (openUpvalues vm) l -> descending l.*2 ->
  captureUpvalue fuel index vm = Ok (u, vm') ->
  frames vm' = frames vm /\ stack vm' = stack vm /\ kept (heap vm) (heap vm') /\
  exists l', chain (heap vm') (openUpvalues vm') l' /\ descending l'.*2 /\
    (u, index) ∈ l' /\
    (l' = l \/
     (index ∉ l.*2) /\ exists la lb, l = la ++ lb /\ l' = la ++ (u, index) :: lb).
Proof.
  intros Hc Hd H. unfold captureUpvalue in H.
  apply bind_inv in H as (? & ? & [-> ->]%read_inv & H).
  apply bind_inv in H as ([prev up] & ? & [Hw ->]%lift_inv & H).
  destruct (capture_walk_spec _ _ _ _ _ _ _ _ Hc Hw)
    as (la & lb & -> & Hsa & Hsb & Hla & Hlb & Hprev).
  apply bind_inv in H as (found & vm1 & Hfound & H).
  assert (vm1 = vm /\
          (found = true -> exists u0 lb0, up = Some u0 /\ lb = (u0, index) :: lb0) /\
          (found = false -> forall x, head lb = Some x -> x.2 <> index)) as (-> & Hyes & Hno).
  { destruct up as [u0|].
    - apply bind_inv in Hfound as ([[i n0] c] & ? & [-> Ho]%the_upvalue_Ok & Hfound).
      apply ret_inv in Hfound as [-> ->]. simpl in Ho.
      inversion Hsb as [|? i' next' lb0 ? Hu Hs0]; subst.
      unfold upvalue_at in Hu. rewrite Ho in Hu. injection Hu as <- <-.
      split; [done|]. split.
      + intros ->%bool_decide_eq_true. eauto.
      + intros Hne%bool_decide_eq_false x [= <-]. done.
    - apply ret_inv in Hfound as [-> ->]. split; [done|]. split; [done|].
      inversion Hsb; subst. done. }
  destruct found.
  - destruct (Hyes eq_refl) as (u0 & lb0 & -> & ->).
    apply ret_inv in H as [-> ->]. split; [done|]. split; [done|].
    split; [reflexivity|].
    exists (la ++ (u0, index) :: lb0). split; [done|]. split; [done|].
    split; [|by left]. apply elem_of_app. right. by left.
  - specialize (Hno eq_refl).
    apply bind_inv in H as (created & vm1 & (-> & Hh1 & Ho1 & Hf1 & Hs1)%alloc_inv & H).
    apply bind_inv in H as (? & vm2 & Hlink & H). apply ret_inv in H as [-> ->].
    assert (forall x, head lb.*2 = Some x -> (x < index)%Z) as Hlb'.
    { intros z Hz. destruct lb as [|y lb]; [done|]. injection Hz as <-.
      specialize (Hlb y eq_refl). specialize (Hno y eq_refl). lia. }
    assert (descending (la ++ (length (heap vm), index) :: lb).*2) as Hd'.
    { rewrite fmap_app, fmap_cons. simpl. rewrite fmap_app in Hd.
      apply descending_insert; [done| |done].
      apply Forall_fmap. by eapply Forall_impl. }
    assert (index ∉ (la ++ lb).*2) as Hnotin.
    { rewrite fmap_app. intros [Hin|Hin]%elem_of_app.
      - apply list_elem_of_fmap in Hin as (z & -> & Hin).
        rewrite list.Forall_forall in Hla. specialize (Hla z Hin). lia.
      - destruct lb as [|y lb]; [by apply elem_of_nil in Hin|].
        rewrite fmap_app in Hd. apply descending_app_r in Hd.
        specialize (Hlb' y.2 eq_refl).
        apply elem_of_cons in Hin as [->|Hin]; [lia|].
        pose proof (descending_lt _ _ _ Hd Hin). lia. }
    assert (seg (heap vm ++ [OUpvalue index up VNil]) up lb None) as Hsb1
      by (eapply seg_keeps; [apply keeps_app|done]).
    destruct Hprev as [[-> ->]|(la0 & [p ip] & -> & ->)].
    + apply set_openUpvalues_inv in Hlink as (Hh2 & Ho2 & Hf2 & Hs2).
      split; [congruence|]. split; [congruence|].
      split; [rewrite Hh2, Hh1; apply kept_app|].
      exists ((length (heap vm), index) :: lb). split_and!; try done.
      * unfold chain. rewrite Ho2, Hh2, Hh1. econstructor; [apply upvalue_at_new|done].
      * by left.
      * right. split; [done|]. by exists [], lb.
    + apply set_next_inv in Hlink as (i & n0 & c & Hp & Hh2 & Ho2 & Hf2 & Hs2).
      simpl in *. rewrite Hh1 in Hh2, Hp.
      apply seg_snoc_inv in Hsa as [Hsa0 Hup].
      assert (p < length (heap vm)) as Hplt.
      { unfold upvalue_at in Hup. destruct (heap vm !! p) eqn:E; [|done].
        by eapply lookup_lt_Some. }
      assert (i = ip) as ->.
      { unfold upvalue_at in Hup. rewrite lookup_app_l in Hp by done.
        rewrite Hp in Hup. by injection Hup. }
      rewrite <- app_assoc in Hc, Hd, Hnotin |- *. simpl in *.
      assert (NoDup ((la0 ++ (p, ip) :: lb).*1)) as Hnd.
      { clear -Hc Hd. revert Hc Hd. generalize (openUpvalues vm).
        induction (la0 ++ (p, ip) :: lb) as [|[u0 i0] l IH]; intros a Hc Hd; [constructor|].
        inversion Hc as [|? ? next ? ? Hu Hs]; subst. simpl. constructor.
        - by eapply seg_head_fresh.
        - eapply IH; [done|]. by eapply descending_tail. }
      rewrite fmap_app, fmap_cons in Hnd. simpl in Hnd.
      apply list.NoDup_app in Hnd as (Hnd1 & Hnd2 & Hnd3).
      apply list.NoDup_cons in Hnd3 as [Hp_lb _].
      assert (p ∉ la0.*1) as Hp_la0.
      { intros Hin. apply (Hnd2 _ Hin). by left. }
      split; [congruence|]. split; [congruence|].
      split.
      { rewrite Hh2. etrans; [apply (kept_app _ [OUpvalue index up VNil])|].
        apply kept_insert. intros o0. rewrite Hp. by intros [= <-]. }
      exists (la0 ++ (p, ip) :: (length (heap vm), index) :: lb).
      split_and!.
      * unfold chain. rewrite Ho2, Ho1, Hh2.
        apply seg_app with (b := Some p).
        -- apply seg_insert; [done|]. eapply seg_keeps; [apply keeps_app|done].
        -- econstructor.
           { apply upvalue_at_insert. rewrite length_app. simpl. lia. }
           econstructor.
           { unfold upvalue_at. rewrite list_lookup_insert_ne by lia.
             apply upvalue_at_new. }
           by apply seg_insert.
      * replace (la0 ++ (p, ip) :: (length (heap vm), index) :: lb)
          with ((la0 ++ [(p, ip)]) ++ (length (heap vm), index) :: lb)
          by by rewrite <- app_assoc.
        done.
      * apply elem_of_app. right. right. by left.
      * right. split; [done|]. exists (la0 ++ [(p, ip)]), lb.
        by rewrite <- !app_assoc.
Qed.

Lemma captureUpvalue_Inv fuel index : pres keeps_Inv (captureUpvalue fuel index).
Proof.
  intros vm u vm' H (Hf & (l & Hc & Hd) & Hfs).
  destruct (captureUpvalue_spec _ _ _ _ _ _ Hc Hd H)
    as (Hf' & _ & Hk & l' & Hc' & Hd' & _).
  split; [by rewrite Hf'|]. split; [by exists l'|].
  unfold frames_ok. rewrite Hf'. by eapply frames_ok_kept.
Qed.

(** *** The frames *)

Lemma set_frames_inv fs vm a vm' :
  set_frames fs vm = Ok (a, vm') ->
  heap vm' = heap vm /\ openUpvalues vm' = openUpvalues vm /\ frames vm' = fs /\
  stack vm' = stack vm.
Proof. by intros [= <- <-]. Qed.

Lemma set_stack_inv st vm a vm' :
  set_stack st vm = Ok (a, vm') ->
  heap vm' = heap vm /\ openUpvalues vm' = openUpvalues vm /\
  frames vm' = frames vm /\ stack vm' = st.
Proof. by intros [= <- <-]. Qed.

(** After [resetStack] no frame is left and no upvalue is open. *)
Lemma resetStack_inv vm a vm' :
  resetStack vm = Ok (a, vm') ->
  frames vm' = [] /\ stack vm' = [] /\ openUpvalues vm' = None /\
  heap vm' = heap vm /\ globals vm' = globals vm /\ err vm' = err vm /\
  out vm' = out vm.
Proof. by intros [= <- <-]. Qed.

Lemma resetStack_Inv : pres keeps_Inv resetStack.
Proof.
  intros vm a vm' (Hf & _ & Ho & _)%resetStack_inv _. split; [|split].
  - rewrite Hf. simpl. lia.
  - exists []. split; [|done]. unfold chain. rewrite Ho. constructor.
  - unfold frames_ok. rewrite Hf. constructor.
Qed.
#[local] Hint Resolve resetStack_Inv closeUpvalues_Inv captureUpvalue_Inv
  pres_stable_Inv : pres.

Lemma runtimeError_Inv message : pres keeps_Inv (runtimeError message).
Proof. unfold runtimeError. pres_tac. Qed.
#[local] Hint Resolve runtimeError_Inv : pres.

Lemma runtimeError_frames message vm a vm' :
  runtimeError message vm = Ok (a, vm') -> frames vm' = [] /\ stack vm' = [].
Proof.
  unfold runtimeError. intros (? & ? & _ & H)%bind_inv.
  apply bind_inv in H as (? & ? & _ & H). apply bind_inv in H as (? & ? & _ & H).
  by apply resetStack_inv in H as (? & ? & _).
Qed.

Lemma drop_frame_Inv : pres keeps_Inv drop_frame.
Proof.
  intros vm a vm' H (Hf & Ho & Hfs). unfold drop_frame in H.
  apply bind_inv in H as (? & ? & [-> ->]%read_inv & H).
  destruct (reverse (frames vm)) as [|f rest] eqn:E; [done|].
  apply set_frames_inv in H as (Hh & Hop & Hfr & _).
  assert (frames vm = reverse rest ++ [f]) as Hfs'.
  { rewrite <- (reverse_involutive (frames vm)), E. by rewrite reverse_cons. }
  split; [|split].
  - rewrite Hfr. rewrite Hfs', length_app in Hf. simpl in Hf. lia.
  - destruct Ho as (l & Hc & Hd). exists l. unfold chain. by rewrite Hh, Hop.
  - unfold frames_ok in *. rewrite Hfr, Hh. rewrite Hfs' in Hfs.
    by apply Forall_app in Hfs as [? _].
Qed.
#[local] Hint Resolve drop_frame_Inv : pres.

(** [call] pushes a frame only below 64 frames. *)
Lemma call_Inv closure argCount : pres keeps_Inv (call closure argCount).
Proof.
  intros vm a vm' H HI. unfold call in H.
  apply bind_inv in H as ([f us] & ? & [-> Hcl]%the_closure_Ok & H).
  apply bind_inv in H as (func & ? & [-> Hfn]%the_function_Ok & H). simpl in Hcl.
  destruct (negb (bool_decide (argCount = arity func))).
  { apply bind_inv in H as (? & vm1 & H1 & H). apply ret_inv in H as [_ ->].
    by eapply runtimeError_Inv. }
  apply bind_inv in H as (? & ? & [-> ->]%read_inv & H).
  case_bool_decide as E64.
  { apply bind_inv in H as (? & vm1 & H1 & H). apply ret_inv in H as [_ ->].
    by eapply runtimeError_Inv. }
  apply bind_inv in H as (frame & vm1 & (-> & Hh1 & Ho1 & Hf1 & Hs1)%alloc_inv & H).
  apply bind_inv in H as (? & ? & [-> ->]%read_inv & H).
  apply bind_inv in H as (? & vm2 & (Hh2 & Ho2 & Hf2 & Hs2)%set_frames_inv & H).
  apply ret_inv in H as [_ ->].
  destruct HI as (Hf & (l & Hc & Hd) & Hfs). split; [|split].
  - rewrite Hf2, Hf1, length_app. simpl. lia.
  - exists l. split; [|done]. unfold chain. rewrite Ho2, Hh2, Ho1, Hh1.
    eapply seg_keeps; [apply keeps_app|done].
  - unfold frames_ok. rewrite Hf2, Hh2, Hf1, Hh1. apply Forall_app. split.
    + eapply frames_ok_kept; [apply kept_app|done].
    + constructor; [|constructor]. unfold frame_ok.
      eexists closure, _, _, f, us, func. split_and!.
      * rewrite lookup_app_r by lia. by rewrite Nat.sub_diag.
      * by apply lookup_app_l_Some.
      * by apply lookup_app_l_Some.
Qed.
#[local] Hint Resolve call_Inv : pres.

Lemma callValue_Inv fuel callee argCount : pres keeps_Inv (callValue fuel callee argCount).
Proof. unfold callValue. pres_tac. Qed.
#[local] Hint Resolve callValue_Inv : pres.
Lemma invokeFromClass_Inv fuel klass name argCount :
  pres keeps_Inv (invokeFromClass fuel klass name argCount).
Proof. unfold invokeFromClass. pres_tac. Qed.
#[local] Hint Resolve invokeFromClass_Inv : pres.
Lemma invoke_Inv fuel name argCount : pres keeps_Inv (invoke fuel name argCount).
Proof. unfold invoke. pres_tac. Qed.
Lemma bindMethod_Inv fuel klass name : pres keeps_Inv (bindMethod fuel klass name).
Proof. unfold bindMethod. pres_tac. Qed.
Lemma binaryOp_Inv op : pres keeps_Inv (binaryOp op).
Proof. unfold binaryOp. pres_tac. Qed.
Lemma called_Inv ok : pres keeps_Inv (called ok).
Proof. unfold called. pres_tac. Qed.
#[local] Hint Resolve invoke_Inv bindMethod_Inv binaryOp_Inv called_Inv : pres.
Lemma capture_all_Inv fuel n frame closure :
  pres keeps_Inv (capture_all fuel n frame closure).
Proof. induction n; simpl; pres_tac. Qed.
#[local] Hint Resolve capture_all_Inv : pres.

Lemma execute_Inv fuel frame op : pres keeps_Inv (execute fuel frame op).
Proof. unfold execute. pres_tac. Qed.
#[local] Hint Resolve execute_Inv : pres.

(** Every turn of the dispatch loop keeps the invariant. *)
Lemma step_Inv fuel frame : pres keeps_Inv (step fuel frame).
Proof. unfold step. pres_tac. Qed.

Lemma run_from_Inv fuel steps : forall frame, pres keeps_Inv (run_from fuel steps frame).
Proof.
  induction steps as [|steps IH]; intros frame; simpl; [pres_tac|].
  apply pres_bind; [apply _|apply step_Inv|]. intros [f|r]; [apply IH|pres_tac].
Qed.

Lemma enter_Inv func : pres keeps_Inv (enter func).
Proof. unfold enter. pres_tac. Qed.

Lemma interpret_Inv fuel steps func : pres keeps_Inv (interpret fuel steps func).
Proof.
  unfold interpret, run. pose proof (run_from_Inv fuel steps).
  pose proof (enter_Inv func). pres_tac.
Qed.

(** *** Running a computation *)

Lemma bind_run {A B} (m : M A) (f : A -> M B) vm a vm1 :
  m vm = Ok (a, vm1) -> (m ≫= f) vm = f a vm1.
Proof. intros H. unfold mbind, M_bind. by rewrite H. Qed.

(** *** The readers of the code move the instruction pointers only *)

Definition moved (vm vm' : t) : Prop :=
  frames vm' = frames vm /\ stack vm' = stack vm /\ globals vm' = globals vm /\
  initString vm' = initString vm /\ openUpvalues vm' = openUpvalues vm /\
  pool vm' = pool vm /\ out vm' = out vm /\ err vm' = err vm /\
  length (heap vm') = length (heap vm) /\
  forall r o, heap vm !! r = Some o ->
    match o with
    | OFrame c _ off => exists ip, heap vm' !! r = Some (OFrame c ip off)
    | _ => heap vm' !! r = Some o
    end.

#[local] Instance moved_refl : Reflexive moved.
Proof.
  intros vm. unfold moved. split_and!; try done. intros r o Hr. destruct o; eauto.
Qed.

#[local] Instance moved_trans : Transitive moved.
Proof.
  intros a b c (F1 & S1 & G1 & I1 & O1 & P1 & U1 & E1 & L1 & H1)
    (F2 & S2 & G2 & I2 & O2 & P2 & U2 & E2 & L2 & H2).
  unfold moved. split_and!; try congruence. intros r o Hr.
  specialize (H1 r o Hr). destruct o; try (by apply (H2 r _ H1)).
  destruct H1 as (ip1 & H1). apply H2 in H1. done.
Qed.

Lemma moved_stable vm vm' : moved vm vm' -> stable vm vm'.
Proof.
  intros (F & _ & _ & _ & O & _ & _ & _ & _ & H). split_and!; try done.
  - intros u x Hu. unfold upvalue_at in *.
    destruct (heap vm !! u) as [[]|] eqn:E; try done. by rewrite (H _ _ E).
  - intros r o Hr. specialize (H r o Hr). destruct o; simpl; eauto.
    destruct H as (ip' & H). eauto.
Qed.

Lemma deref_moved r : pres moved (deref r).
Proof. unfold deref. pres_tac. Qed.
#[local] Hint Resolve deref_moved : pres.
Lemma the_frame_moved r : pres moved (the_frame r).
Proof. unfold the_frame. pres_tac. Qed.
Lemma the_closure_moved r : pres moved (the_closure r).
Proof. unfold the_closure. pres_tac. Qed.
Lemma the_function_moved r : pres moved (the_function r).
Proof. unfold the_function. pres_tac. Qed.
#[local] Hint Resolve the_frame_moved the_closure_moved the_function_moved : pres.

Lemma set_ip_moved r ip : pres moved (set_ip r ip).
Proof.
  intros vm a vm'. unfold set_ip.
  intros ([[c ip0] off] & vm1 & [-> Ho]%the_frame_Ok & H)%bind_inv.
  apply bind_inv in H as (? & ? & [-> ->]%read_inv & H).
  injection H as <- <-. simpl in Ho. unfold moved. simpl. split_and!; try done.
  - by rewrite length_insert.
  - intros r' o Hr'. destruct (decide (r' = r)) as [->|Hne].
    + rewrite Ho in Hr'. injection Hr' as <-. exists ip.
      apply list_lookup_insert_eq. by eapply lookup_lt_Some.
    + rewrite list_lookup_insert_ne by done. destruct o; eauto.
Qed.
#[local] Hint Resolve set_ip_moved : pres.

Lemma current_moved frame : pres moved (current frame).
Proof. unfold current. pres_tac. Qed.
#[local] Hint Resolve current_moved : pres.
Lemma readByte_moved frame : pres moved (readByte frame).
Proof. unfold readByte. pres_tac. Qed.
#[local] Hint Resolve readByte_moved : pres.
Lemma operand_moved frame : pres moved (operand frame).
Proof. unfold operand. pres_tac. Qed.
#[local] Hint Resolve operand_moved : pres.
Lemma readConstant_moved frame : pres moved (readConstant frame).
Proof. unfold readConstant. pres_tac. Qed.
#[local] Hint Resolve readConstant_moved : pres.
Lemma readString_moved frame : pres moved (readString frame).
Proof. unfold readString. pres_tac. Qed.

Lemma frames_ok_moved vm vm' : moved vm vm' -> frames_ok vm -> frames_ok vm'.
Proof.
  intros Hm Hf. pose proof (moved_stable _ _ Hm) as (_ & Hk & _ & Hfr).
  unfold frames_ok. rewrite Hfr. by eapply frames_ok_kept.
Qed.

(** *** The stack *)

Lemma peek_top vm st v : stack vm = st ++ [v] -> peek 0 vm = Ok (v, vm).
Proof.
  intros Hs. unfold peek, mbind, M_bind, read, mret, M_ret. simpl. do 2 f_equal.
  rewrite Hs, length_app. simpl. unfold value_at_Z, at_Z.
  replace (Z.of_nat (length st + 1) - 1 - Z.of_nat 0)%Z
    with (Z.of_nat (length st)) by lia.
  destruct (Z.ltb_spec (Z.of_nat (length st)) 0); [lia|].
  rewrite Nat2Z.id, lookup_app_r by lia. by rewrite Nat.sub_diag.
Qed.

(** *** runtimeError returns *)

(** What [runtimeError(message)] leaves: the message and one line for each
    frame on [console.error], no frame, no value and no open upvalue. *)
Definition failed (message : string) (vm vm' : t) : Prop :=
  frames vm' = [] /\ stack vm' = [] /\ openUpvalues vm' = None /\
  heap vm' = heap vm /\ globals vm' = globals vm /\ pool vm' = pool vm /\
  initString vm' = initString vm /\ out vm' = out vm /\
  exists ls, err vm' = err vm ++ message :: ls /\ length ls = length (frames vm).

Lemma trace_line_Ok vm r :
  frame_ok (heap vm) r -> exists l, trace_line r vm = Ok (l, vm).
Proof.
  intros (c & ip & off & f & us & func & Hr & Hc & Hf).
  unfold trace_line, the_frame, the_closure, the_function, deref.
  unfold mbind, M_bind, read, mret, M_ret. simpl.
  rewrite Hr. simpl. rewrite Hc. simpl. rewrite Hf. simpl. eauto.
Qed.

Lemma trace_Ok rs : forall vm,
  Forall (frame_ok (heap vm)) rs ->
  exists ls vm', trace rs vm = Ok (tt, vm') /\ length ls = length rs /\
    frames vm' = frames vm /\ stack vm' = stack vm /\
    openUpvalues vm' = openUpvalues vm /\ heap vm' = heap vm /\
    globals vm' = globals vm /\ pool vm' = pool vm /\
    initString vm' = initString vm /\ out vm' = out vm /\
    err vm' = err vm ++ ls.
Proof.
  induction rs as [|r rs IH]; intros vm Hrs.
  - exists [], vm. rewrite app_nil_r. by split_and!.
  - apply list.Forall_cons in Hrs as [Hr Hrs].
    destruct (trace_line_Ok vm r Hr) as (l & Hl). simpl.
    rewrite (bind_run _ _ _ _ _ Hl).
    destruct (log_error l vm) as [[[] vm1]| | |] eqn:E; try done.
    injection E as <-. erewrite bind_run by reflexivity.
    match goal with |- context [trace rs ?s] => destruct (IH s Hrs)
      as (ls & vm' & Ht & Hlen & ? & ? & ? & ? & ? & ? & ? & ? & He) end.
    exists (l :: ls), vm'. simpl in *. split_and!; try done.
    + by rewrite Hlen.
    + by rewrite He, <- app_assoc.
Qed.

Lemma runtimeError_Ok message vm :
  frames_ok vm -> exists vm', runtimeError message vm = Ok (tt, vm') /\ failed message vm vm'.
Proof.
  intros Hf. unfold runtimeError.
  destruct (log_error message vm) as [[[] vm1]| | |] eqn:E; try done.
  rewrite (bind_run _ _ _ _ _ E), (bind_run read _ vm1 vm1 vm1 eq_refl).
  injection E as E.
  destruct (trace_Ok (reverse (frames vm1)) vm1)
    as (ls & vm2 & Ht & Hlen & ? & ? & ? & ? & ? & ? & ? & ? & He).
  { subst vm1. simpl. apply Forall_reverse. exact Hf. }
  rewrite (bind_run _ _ _ _ _ Ht). eexists. split; [reflexivity|].
  subst vm1. unfold failed. simpl in *. split_and!; try done.
  exists ls. split; [by rewrite He, <- app_assoc|]. by rewrite Hlen, length_reverse.
Qed.

(** *** With a budget above the length of the list, the walks return *)

Lemma the_upvalue_run vm u i n c :
  heap vm !! u = Some (OUpvalue i n c) -> the_upvalue u vm = Ok ((i, n, c), vm).
Proof.
  intros H. unfold the_upvalue, deref, mbind, M_bind, read. simpl. by rewrite H.
Qed.

Lemma upvalue_at_Some h u i n :
  upvalue_at h u = Some (i, n) -> exists c, h !! u = Some (OUpvalue i n c).
Proof.
  unfold upvalue_at. destruct (h !! u) as [[]|]; try done. intros [= -> ->]. eauto.
Qed.

Lemma closeUpvalues_loop_total last : forall l n vm,
  chain (heap vm) (openUpvalues vm) l -> descending l.*2 -> length l < n ->
  is_Ok (closeUpvalues_loop n last vm).
Proof.
  induction l as [|[u i] l IH]; intros n vm Hc Hd Hn;
    (destruct n as [|n]; [simpl in Hn; lia|]); simpl;
    rewrite (bind_run read _ vm vm vm eq_refl); cbv beta.
  - unfold chain in Hc. destruct (openUpvalues vm); [inversion Hc|by eexists].
  - unfold chain in Hc. destruct (openUpvalues vm) as [u'|]; [|inversion Hc].
    inversion Hc as [|? ? next ? ? Hu Hs Eo]; subst.
    destruct (upvalue_at_Some _ _ _ _ Hu) as (c & Hh).
    pose proof (the_upvalue_run _ _ _ _ _ Hh) as Hrun.
    rewrite (bind_run _ _ _ _ _ Hrun).
    destruct (last <=? i)%Z; [|by eexists].
    erewrite bind_run; cycle 1.
    { unfold close. rewrite (bind_run _ _ _ _ _ Hrun).
      rewrite (bind_run read _ vm vm vm eq_refl). reflexivity. }
    erewrite bind_run by reflexivity.
    apply IH; simpl.
    + apply seg_insert; [|done]. by eapply seg_head_fresh.
    + by eapply descending_tail.
    + simpl in Hn. lia.
Qed.

Lemma captureUpvalue_total fuel index vm l :
  chain (heap vm) (openUpvalues vm) l -> length l < fuel ->
  is_Ok (captureUpvalue fuel index vm).
Proof.
  intros Hc Hn.
  destruct (capture_walk_total (heap vm) index l fuel None (openUpvalues vm) Hc Hn)
    as ([prev up] & Hw).
  destruct (capture_walk_spec _ _ _ _ _ _ _ _ Hc Hw)
    as (la & lb & -> & Hsa & Hsb & Hla & Hlb & Hprev).
  unfold captureUpvalue. rewrite (bind_run read _ vm vm vm eq_refl), Hw.
  erewrite bind_run by reflexivity.
  assert (forall created st, heap st = heap vm ++ [created] ->
    is_Ok (match prev with
           | None => set_openUpvalues (Some (length (heap vm)))
           | Some p => set_next p (Some (length (heap vm)))
           end st)) as Hlink.
  { intros created st Hst. destruct Hprev as [[-> ->]|(la0 & p & -> & ->)]; [by eexists|].
    destruct (seg_index _ _ _ _ p.1 p.2 Hsa) as (n & Hp).
    { apply elem_of_app. right. destruct p. by left. }
    destruct (upvalue_at_Some _ _ _ _ Hp) as (c & Hh).
    unfold set_next.
    erewrite bind_run; [|apply the_upvalue_run; rewrite Hst; by apply lookup_app_l_Some].
    by eexists. }
  assert (is_Ok ((createdUpvalue ← alloc (OUpvalue index up VNil);
                  _ ← match prev with
                      | None => set_openUpvalues (Some createdUpvalue)
                      | Some p => set_next p (Some createdUpvalue)
                      end;
                  mret createdUpvalue) vm)) as Hnew.
  { erewrite bind_run; cycle 1.
    { unfold alloc. rewrite (bind_run read _ vm vm vm eq_refl).
      erewrite bind_run by reflexivity. reflexivity. }
    match goal with |- is_Ok ((_ ≫= _) ?s) =>
      destruct (Hlink (OUpvalue index up VNil) s eq_refl) as ([[] vm2] & Hl) end.
    erewrite bind_run by exact Hl. by eexists. }
  destruct up as [u0|].
  - inversion Hsb as [|? i next lb0 ? Hu Hs0]; subst.
    destruct (upvalue_at_Some _ _ _ _ Hu) as (c & Hh).
    pose proof (the_upvalue_run _ _ _ _ _ Hh) as Hrun.
    erewrite bind_run; cycle 1.
    { rewrite (bind_run _ _ _ _ _ Hrun). reflexivity. }
    destruct (bool_decide (i = index)); [by eexists|done].
  - erewrite bind_run by reflexivity. done.
Qed.

(** In a strictly descending list no index occurs twice. *)
Lemma descending_NoDup l : descending l -> NoDup l.
Proof.
  induction l as [|i l IH]; [constructor|]. intros Hd. constructor.
  - intros Hin. pose proof (descending_lt _ _ _ Hd Hin). lia.
  - apply IH. by eapply descending_tail.
Qed.

(** *** The states of the machine *)

(** The methods of [class VM], and the two parts of [interpret]: what comes
    before the loop, and one turn of the loop. *)
Inductive Method : Type :=
| ResetStack
| RuntimeError (message : string)
| DefineNative (name : string) (f : NativeFn)
| Push (v : Value)
| Pop
| Put (distance : nat) (v : Value)
| Call (closure argCount : nat)
| CallValue (callee : Value) (argCount : nat)
| InvokeFromClass (klass : nat) (name : LoxString) (argCount : nat)
| Invoke (name : LoxString) (argCount : nat)
| BindMethod (klass : nat) (name : LoxString)
| CaptureUpvalue (index : Z)
| CloseUpvalues (last : Z)
| DefineMethod (name : LoxString)
| Concatenate
| BinaryOp (op : float -> float -> Value)
| Enter (func : nat)
| Step (frame : option nat).

Definition perform (fuel : nat) (m : Method) : M unit :=
  match m with
  | ResetStack => resetStack
  | RuntimeError message => runtimeError message
  | DefineNative name f => defineNative fuel name f
  | Push v => push v
  | Pop => _ ← pop; mret tt
  | Put distance v => put distance v
  | Call closure argCount => _ ← call closure argCount; mret tt
  | CallValue callee argCount => _ ← callValue fuel callee argCount; mret tt
  | InvokeFromClass klass name argCount =>
      _ ← invokeFromClass fuel klass name argCount; mret tt
  | Invoke name argCount => _ ← invoke fuel name argCount; mret tt
  | BindMethod klass name => _ ← bindMethod fuel klass name; mret tt
  | CaptureUpvalue index => _ ← captureUpvalue fuel index; mret tt
  | CloseUpvalues last => closeUpvalues fuel last
  | DefineMethod name => defineMethod fuel name
  | Concatenate => concatenate fuel
  | BinaryOp op => _ ← binaryOp op; mret tt
  | Enter func => _ ← enter func; mret tt
  | Step frame => _ ← step fuel frame; mret tt
  end.

(** [new VM()], what the compiler adds to the store and to the pool, and
    the methods, each with the budget it needs. *)
Inductive vm_reachable : t -> Prop :=
| vm_new fuel pool clock vm : new fuel pool clock = Ok vm -> vm_reachable vm
| vm_load fs p vm : vm_reachable vm -> vm_reachable (load fs p vm)
| vm_perform fuel m vm vm' :
    vm_reachable vm -> perform fuel m vm = Ok (tt, vm') -> vm_reachable vm'.

Lemma perform_Inv fuel m : pres keeps_Inv (perform fuel m).
Proof.
  pose proof (enter_Inv). pose proof (step_Inv fuel).
  destruct m; unfold perform; pres_tac.
Qed.

Lemma new_Inv fuel pool clock vm : new fuel pool clock = Ok vm -> Inv vm.
Proof.
  unfold new. intros H.
  destruct (intern fuel pool "clock") as [c| | |]; try done. simpl in H.
  destruct (Table.set fuel Table.new c.2 (VObj 0)) as [g| | |]; try done. simpl in H.
  destruct (intern fuel c.1 "init") as [i| | |]; try done. simpl in H.
  injection H as <-. split; [simpl; lia|]. split.
  - exists []. split; [constructor|done].
  - constructor.
Qed.

Lemma load_Inv fs p vm : Inv vm -> Inv (load fs p vm).
Proof.
  intros (Hf & (l & Hc & Hd) & Hfs). split; [done|]. split.
  - exists l. split; [|done]. unfold chain, load. simpl.
    eapply seg_keeps; [|done]. intros u x Hu. unfold upvalue_at in *.
    destruct (heap vm !! u) as [o|] eqn:E; [|done].
    by rewrite (lookup_app_l_Some _ _ _ _ E).
  - unfold frames_ok, load. simpl. eapply frames_ok_kept; [apply kept_app|done].
Qed.

Lemma vm_reachable_Inv vm : vm_reachable vm -> Inv vm.
Proof.
  induction 1 as [fuel pool clock vm H|fs p vm _ IH|fuel m vm vm' _ IH H].
  - by eapply new_Inv.
  - by apply load_Inv.
  - by eapply perform_Inv.
Qed.

(** Turns of the loop, one after the other: the first [n] turns of [run]. *)
Fixpoint turns (fuel n : nat) (frame : option nat) : M Next :=
  match n with
  | O => mret (Continue frame)
  | S n =>
      x ← step fuel frame;
      match x with
      | Continue frame => turns fuel n frame
      | Halt result => mret (Halt result)
      end
  end.

Lemma turns_reachable fuel n : forall frame vm x vm',
  vm_reachable vm -> turns fuel n frame vm = Ok (x, vm') -> vm_reachable vm'.
Proof.
  induction n as [|n IH]; intros frame vm x vm' Hr H; simpl in H.
  - by apply ret_inv in H as [_ ->].
  - apply bind_inv in H as (y & vm1 & Hs & H).
    assert (vm_reachable vm1) as Hr1.
    { apply (vm_perform fuel (Step frame) vm); [done|]. simpl.
      by rewrite (bind_run _ _ _ _ _ Hs). }
    destruct y; [by eapply IH|]. by apply ret_inv in H as [_ ->].
Qed.

(** *** Programs *)

(** The host's clock is any function: nothing below depends on its value. *)
Definition clock0 : NativeFn := fun _ _ => VNumber 0.

Definition function (name : option LoxString) (code : list nat)
    (constants : list Value) : LoxFunction :=
  {| arity := 0; upvalueCount := 0;
     chunk := {| code := code; lines := replicate (length code) 1;
                 constants := constants |};
     name := name |}.

Fixpoint intern_all (fuel : nat) (p : Pool) (names : list string)
    : Result (Pool * list LoxString) :=
  match names with
  | [] => Ok (p, [])
  | name :: names =>
      r ← intern fuel p name;
      rs ← intern_all fuel r.1 names;
      Ok (rs.1, r.2 :: rs.2)
  end.

(** [new VM()], then [compile]: the identifiers and the string literals of
    the source are interned in the order in which the compiler meets them,
    and the functions go to the store, the script first, at address 1. *)
Definition compiled (names : list string)
    (build : list LoxString -> list LoxFunction) : Result t :=
  vm ← new 64 Pool_new clock0;
  r ← intern_all 64 (pool vm) names;
  Ok (load (build r.2) r.1 vm).

(** [interpret] up to the loop, [n] turns of the loop, and the state where
    the loop stands then, with the frame it works on. *)
Definition after (n : nat) (program : Result t) : Result (Next * t) :=
  vm ← program;
  (_ ← enter 1; frame ← top_frame; turns 64 n frame) vm.

(** The same, and the next opcode read. *)
Definition inside (n : nat) (program : Result t) : Result (option nat * t) :=
  r ← after n program;
  match r.1 with
  | Continue frame => readByte frame r.2
  | Halt _ => IllTyped
  end.

Definition state {A} (r : Result (A * t)) (d : t) : t :=
  match r with Ok (_, vm) => vm | _ => d end.

Definition blank : t :=
  {| frames := []; stack := []; globals := Table.new;
     initString := {| ref := 0; chars := "init"; hash := 0 |};
     openUpvalues := None; pool := Pool_new; heap := []; out := []; err := [] |}.

(** [class A {} var a = A(); a.x = 0; print a.x;] *)
Definition field_zero : Result t :=
  compiled ["A"; "a"; "x"] (fun ss =>
    match ss with
    | [A; a; x] =>
        [function None
           [34; 0; 7; 0; 6; 1; 4; 6; 3; 28; 0; 7; 2; 6; 4; 0; 6; 13; 5; 4;
            6; 7; 12; 8; 24; 1; 33]
           [VString A; VString A; VString a; VString A; VString a; VString x;
            VNumber 0; VString a; VString x]]
    | _ => []
    end).

(** [true - 1; print "after";] *)
Definition minus_true : Result t :=
  compiled ["after"] (fun ss =>
    match ss with
    | [s] => [function None [2; 0; 0; 19; 4; 0; 1; 24; 1; 33] [VNumber 1; VString s]]
    | _ => []
    end).

(** [{ var t = clock(); print t; }] *)
Definition local_clock : Result t :=
  compiled ["clock"] (fun ss =>
    match ss with
    | [c] => [function None [6; 0; 28; 0; 5; 1; 24; 4; 1; 33] [VString c]]
    | _ => []
    end).

(** [x = 1;] *)
Definition assign_x : Result t :=
  compiled ["x"] (fun ss =>
    match ss with
    | [x] => [function None [0; 1; 9; 0; 4; 1; 33] [VString x; VNumber 1]]
    | _ => []
    end).

(** [fun f() { f(); } f();] *)
Definition recursion : Result t :=
  compiled ["f"] (fun ss =>
    match ss with
    | [f] =>
        [function None [31; 1; 7; 0; 6; 2; 28; 0; 4; 1; 33]
           [VString f; VObj 2; VString f];
         function (Some f) [6; 0; 28; 0; 4; 1; 33] [VString f]]
    | _ => []
    end).

Lemma compiled_reachable names build vm :
  compiled names build = Ok vm -> vm_reachable vm.
Proof.
  unfold compiled. pose proof (vm_new 64 Pool_new clock0) as Hnew. revert Hnew.
  generalize (new 64 Pool_new clock0). intros [vm0| | |] Hnew H; try discriminate H.
  simpl in H. destruct (intern_all 64 (pool vm0) names) as [r| | |]; try discriminate H.
  simpl in H. injection H as <-. apply vm_load. by apply Hnew.
Qed.

Fixpoint perform_all (fuel : nat) (ms : list Method) : M unit :=
  match ms with
  | [] => mret tt
  | m :: ms => _ ← perform fuel m; perform_all fuel ms
  end.

Lemma perform_all_reachable fuel ms : forall vm vm',
  vm_reachable vm -> perform_all fuel ms vm = Ok (tt, vm') -> vm_reachable vm'.
Proof.
  induction ms as [|m ms IH]; intros vm vm' Hr H; simpl in H.
  - by apply ret_inv in H as [_ ->].
  - apply bind_inv in H as ([] & vm1 & Hm & H). eapply IH; [|exact H].
    by eapply vm_perform.
Qed.

(** The state a computation ends in, when it returns. *)
Lemma state_Ok {A} (r : Result (A * t)) d :
  is_Ok r -> exists a, r = Ok (a, state r d).
Proof. intros [[a vm] ->]. by exists a. Qed.

Lemma started_reachable fuel pool clock ms d :
  is_Ok (vm ← new fuel pool clock; perform_all fuel ms vm) ->
  vm_reachable (state (vm ← new fuel pool clock; perform_all fuel ms vm) d).
Proof.
  intros Hok. destruct (state_Ok _ d Hok) as ([] & H). revert H.
  generalize (state (vm ← new fuel pool clock; perform_all fuel ms vm) d). intros vm' H.
  pose proof (vm_new fuel pool clock) as Hnew. revert Hnew H.
  generalize (new fuel pool clock). intros [vm0| | |] Hnew H; try discriminate H.
  simpl in H. eapply perform_all_reachable; [|exact H]. by apply Hnew.
Qed.

Lemma after_reachable n program x vm' :
  (forall vm, program = Ok vm -> vm_reachable vm) ->
  after n program = Ok (x, vm') -> vm_reachable vm'.
Proof.
  intros Hp H. unfold after in H.
  destruct program as [vm| | |]; try discriminate H. simpl in H. specialize (Hp vm eq_refl).
  apply bind_inv in H as (ok & vm1 & He & H).
  apply bind_inv in H as (frame & vm2 & Ht & H).
  apply bind_inv in Ht as (? & ? & [-> ->]%read_inv & Ht). apply ret_inv in Ht as [-> ->].
  eapply turns_reachable; [|exact H].
  apply (vm_perform 64 (Enter 1) vm); [done|]. simpl. by rewrite (bind_run _ _ _ _ _ He).
Qed.

Lemma state_after_reachable n names build :
  is_Ok (after n (compiled names build)) ->
  vm_reachable (state (after n (compiled names build)) blank).
Proof.
  intros Hok. destruct (state_Ok _ blank Hok) as (x & H).
  eapply after_reachable; [|exact H]. apply compiled_reachable.
Qed.

Lemma inside_frames_ok n program b vm' :
  (forall vm, program = Ok vm -> vm_reachable vm) ->
  inside n program = Ok (b, vm') -> frames_ok vm'.
Proof.
  intros Hp H. unfold inside in H. revert H.
  pose proof (after_reachable n program) as Ha. revert Ha.
  generalize (after n program). intros [[x vm]| | |] Ha H; try discriminate H.
  simpl in H. destruct x as [frame|]; [|discriminate H].
  specialize (Ha _ _ Hp eq_refl). apply vm_reachable_Inv in Ha as (_ & _ & Hfs).
  eapply frames_ok_moved; [|done]. by eapply readByte_moved.
Qed.

Lemma state_inside_frames_ok n names build :
  is_Ok (inside n (compiled names build)) ->
  frames_ok (state (inside n (compiled names build)) blank).
Proof.
  intros Hok. destruct (state_Ok _ blank Hok) as (x & H).
  eapply inside_frames_ok; [|exact H]. apply compiled_reachable.
Qed.

(** *** Properties of the machine *)

(** The open upvalues of a state, from the head of the list, each with its
    index, in strictly descending order of the indices. *)
Definition open_list (vm : t) (l : list (nat * Z)) : Prop :=
  chain (heap vm) (openUpvalues vm) l /\ descending l.*2 /\ NoDup l.*2.

Lemma descending_below (l : list (nat * Z)) (last : Z) :
  descending l.*2 -> (forall x, head l = Some x -> (x.2 < last)%Z) ->
  Forall (fun x => x.2 < last)%Z l.
Proof.
  intros Hd Hh. destruct l as [|x l]; [constructor|].
  specialize (Hh x eq_refl). constructor; [done|].
  apply list.Forall_forall. intros y Hy.
  assert (y.2 < x.2)%Z; [|lia]. eapply descending_lt; [exact Hd|].
  apply list_elem_of_fmap. by exists y.
Qed.

(** C7: in every state of the machine the open upvalues are in strictly
    descending order of their indices, and no index occurs twice.
    [captureUpvalue] and [closeUpvalues] keep it so: the first returns an
    upvalue of the list with the index asked for, the one that was there or
    a new one at its place in the order; the second takes from the head the
    upvalues whose index is not below [last].  Both return when the budget
    of their walk is above the length of the list. *)
Theorem open_upvalues_descending vm :
  vm_reachable vm ->
  exists l, open_list vm l /\
    (forall fuel index u vm', captureUpvalue fuel index vm = Ok (u, vm') ->
       exists l', open_list vm' l' /\ (u, index) ∈ l' /\
         (l' = l \/
          (index ∉ l.*2) /\
          exists la lb, l = la ++ lb /\ l' = la ++ (u, index) :: lb)) /\
    (forall fuel last vm', closeUpvalues fuel last vm = Ok (tt, vm') ->
       exists la lb, l = la ++ lb /\ open_list vm' lb /\
         Forall (fun x => last <= x.2)%Z la /\ Forall (fun x => x.2 < last)%Z lb) /\
    (forall fuel, length l < fuel ->
       (forall index, is_Ok (captureUpvalue fuel index vm)) /\
       (forall last, is_Ok (closeUpvalues fuel last vm))).
Proof.
  intros (_ & (l & Hc & Hd) & _)%vm_reachable_Inv. exists l. split_and!.
  - split; [done|]. split; [done|]. by apply descending_NoDup.
  - intros fuel index u vm' H.
    destruct (captureUpvalue_spec _ _ _ _ _ _ Hc Hd H)
      as (_ & _ & _ & l' & Hc' & Hd' & Hin & Hl').
    exists l'. split; [|done]. split; [done|]. split; [done|]. by apply descending_NoDup.
  - intros fuel last vm' H.
    destruct (closeUpvalues_loop_spec _ _ _ _ _ Hc Hd H)
      as (_ & _ & _ & la & lb & -> & Hc' & Hla & Hlb).
    rewrite fmap_app in Hd. apply descending_app_r in Hd.
    exists la, lb. split; [done|]. split; [|split; [done|by apply descending_below]].
    split; [done|]. split; [done|]. by apply descending_NoDup.
  - intros fuel Hf. split.
    + intros index. by eapply captureUpvalue_total.
    + intros last. by eapply closeUpvalues_loop_total.
Qed.

(** [new VM()], then [captureUpvalue] of 3, of 1 and of 2. *)
Definition three_open : t :=
  state (vm ← new 64 Pool_new clock0;
         perform_all 64 [CaptureUpvalue 3; CaptureUpvalue 1; CaptureUpvalue 2] vm)
        blank.

Lemma open_upvalues_descending_witness :
  exists l, open_list three_open l /\
    (forall fuel index u vm', captureUpvalue fuel index three_open = Ok (u, vm') ->
       exists l', open_list vm' l' /\ (u, index) ∈ l' /\
         (l' = l \/
          (index ∉ l.*2) /\
          exists la lb, l = la ++ lb /\ l' = la ++ (u, index) :: lb)) /\
    (forall fuel last vm', closeUpvalues fuel last three_open = Ok (tt, vm') ->
       exists la lb, l = la ++ lb /\ open_list vm' lb /\
         Forall (fun x => last <= x.2)%Z la /\ Forall (fun x => x.2 < last)%Z lb) /\
    (forall fuel, length l < fuel ->
       (forall index, is_Ok (captureUpvalue fuel index three_open)) /\
       (forall last, is_Ok (closeUpvalues fuel last three_open))).
Proof.
  apply (open_upvalues_descending three_open).
  apply started_reachable. vm_compute. by eexists.
Defined.

(** The message of [call] when it pushes no frame: the number of arguments
    is looked at first, the number of frames after it. *)
Definition call_error (func : LoxFunction) (argCount : nat) : string :=
  if bool_decide (argCount = arity func) then "Stack overflow."
  else "Expected " +:+ show_nat (arity func) +:+ " arguments but got " +:+
       show_nat argCount +:+ ".".

Lemma the_closure_run vm r f us :
  heap vm !! r = Some (OClosure f us) -> the_closure r vm = Ok ((f, us), vm).
Proof.
  intros H. unfold the_closure, deref, mbind, M_bind, read. simpl. by rewrite H.
Qed.

Lemma the_function_run vm r func :
  heap vm !! r = Some (OFunction func) -> the_function r vm = Ok (func, vm).
Proof.
  intros H. unfold the_function, deref, mbind, M_bind, read. simpl. by rewrite H.
Qed.

Lemma the_class_run vm r n ms :
  heap vm !! r = Some (OClass n ms) -> the_class r vm = Ok ((n, ms), vm).
Proof.
  intros H. unfold the_class, deref, mbind, M_bind, read. simpl. by rewrite H.
Qed.

(** After [runtimeError] in front of a [return]. *)
Ltac run_error :=
  lazymatch goal with
  | |- context [(runtimeError ?m ≫= ?k) ?s] =>
      let vm' := fresh "vm'" in
      let Hrun := fresh "Hrun" in
      let Hfail := fresh "Hfail" in
      destruct (runtimeError_Ok m s) as (vm' & Hrun & Hfail);
      [|rewrite (bind_run _ _ _ _ _ Hrun)]
  end.

(** C8 (amended): in every state of the machine there are at most 64
    frames.  With 64 frames, a call of a closure with the number of
    arguments its function expects writes [Stack overflow.] and pushes no
    frame; with another number of arguments it writes
    [Expected N arguments but got M.], and pushes no frame either.  Below 64
    frames the call with the expected number of arguments pushes one
    frame. *)
Theorem frames_at_most_64 vm :
  vm_reachable vm ->
  length (frames vm) <= 64 /\
  forall closure f us func argCount,
    heap vm !! closure = Some (OClosure f us) ->
    heap vm !! f = Some (OFunction func) ->
    (length (frames vm) = 64 ->
     exists vm', call closure argCount vm = Ok (false, vm') /\
       failed (call_error func argCount) vm vm') /\
    (length (frames vm) < 64 -> argCount = arity func ->
     exists vm', call closure argCount vm = Ok (true, vm') /\
       length (frames vm') = S (length (frames vm))).
Proof.
  intros (Hlen & _ & Hfs)%vm_reachable_Inv. split; [done|].
  intros closure f us func argCount Hc Hf.
  pose proof (the_closure_run _ _ _ _ Hc) as Hcr.
  pose proof (the_function_run _ _ _ Hf) as Hfr.
  split.
  - intros H64. unfold call, call_error.
    rewrite (bind_run _ _ _ _ _ Hcr), (bind_run _ _ _ _ _ Hfr).
    case_bool_decide as Ha; simpl.
    + rewrite (bind_run read _ vm vm vm eq_refl). rewrite bool_decide_eq_true_2 by done.
      run_error; [done|]. by exists vm'.
    + run_error; [done|]. by exists vm'.
  - intros Hlt ->. unfold call.
    rewrite (bind_run _ _ _ _ _ Hcr), (bind_run _ _ _ _ _ Hfr).
    rewrite bool_decide_eq_true_2 by done. simpl.
    rewrite (bind_run read _ vm vm vm eq_refl).
    rewrite bool_decide_eq_false_2 by lia.
    eexists. split; [reflexivity|]. simpl. rewrite length_app. simpl. lia.
Qed.

(** [fun f() { f(); } f();] after 128 turns of the loop: 64 frames. *)
Definition deep : t := state (after 128 recursion) blank.

Lemma deep_reachable : vm_reachable deep.
Proof. apply state_after_reachable. vm_compute. by eexists. Qed.

Definition f_function : LoxFunction :=
  function (Some {| ref := 2; chars := "f"; hash := hashString "f" |})
    [6; 0; 28; 0; 4; 1; 33]
    [VString {| ref := 2; chars := "f"; hash := hashString "f" |}].

Lemma frames_at_most_64_witness :
  length (frames deep) <= 64 /\
  forall closure f us func argCount,
    heap deep !! closure = Some (OClosure f us) ->
    heap deep !! f = Some (OFunction func) ->
    (length (frames deep) = 64 ->
     exists vm', call closure argCount deep = Ok (false, vm') /\
       failed (call_error func argCount) deep vm') /\
    (length (frames deep) < 64 -> argCount = arity func ->
     exists vm', call closure argCount deep = Ok (true, vm') /\
       length (frames vm') = S (length (frames deep))).
Proof.
  apply (frames_at_most_64 deep).
  apply state_after_reachable. vm_compute. by eexists.
Defined.

(** C8, as the specification words it, fails in the state [deep]: there are
    64 frames, and the call of the closure of [f] with one argument writes
    [Expected 0 arguments but got 1.], not [Stack overflow.]. *)
Lemma arity_is_checked_before_depth :
  vm_reachable deep /\
  length (frames deep) = 64 /\
  heap deep !! 5 = Some (OClosure 2 []) /\
  heap deep !! 2 = Some (OFunction f_function) /\
  exists vm', call 5 1 deep = Ok (false, vm') /\
    err vm' = "Expected 0 arguments but got 1." ::
              replicate 63 "[line 1] in f()" ++ ["[line 1] in script"].
Proof.
  split; [exact deep_reachable|].
  split; [by vm_compute|]. split; [by vm_compute|]. split; [by vm_compute|].
  eexists (state (call 5 1 deep) blank). split; by vm_compute.
Qed.


(** [x = 1;] at its [SET_GLOBAL]. *)
Definition at_set_global : t := state (inside 1 assign_x) blank.

Definition name_x : LoxString := {| ref := 2; chars := "x"; hash := hashString "x" |}.


(** [typeof v === "number"] *)
Definition is_number (v : Value) : bool :=
  match v with VNumber _ => true | _ => false end.

Lemma pop_top vm st v :
  stack vm = st ++ [v] -> exists vm', pop vm = Ok (v, vm') /\ stack vm' = st /\
    frames vm' = frames vm /\ heap vm' = heap vm /\ err vm' = err vm /\
    out vm' = out vm /\ globals vm' = globals vm /\ openUpvalues vm' = openUpvalues vm /\
    pool vm' = pool vm /\ initString vm' = initString vm.
Proof.
  intros Hs. unfold pop. rewrite (bind_run read _ vm vm vm eq_refl).
  rewrite Hs, reverse_app. simpl. erewrite bind_run by reflexivity.
  eexists. split; [reflexivity|]. simpl. by rewrite reverse_involutive.
Qed.

Lemma binaryOp_fails op vm st a b :
  stack vm = st ++ [a; b] -> is_number a && is_number b = false -> frames_ok vm ->
  exists vm', binaryOp op vm = Ok (Some RUNTIME_ERROR, vm') /\
    failed "Operands must be numbers." vm vm'.
Proof.
  intros Hs Hn Hfs. unfold binaryOp.
  destruct (pop_top vm (st ++ [a]) b) as (vm1 & Hp1 & Hs1 & F1 & H1 & E1 & O1 & G1 & U1 & P1 & I1).
  { by rewrite Hs, <- app_assoc. }
  destruct (pop_top vm1 st a Hs1) as (vm2 & Hp2 & Hs2 & F2 & H2 & E2 & O2 & G2 & U2 & P2 & I2).
  rewrite (bind_run _ _ _ _ _ Hp1), (bind_run _ _ _ _ _ Hp2).
  assert (frames_ok vm2) as Hfs2. { unfold frames_ok. by rewrite F2, H2, F1, H1. }
  assert (exists vm', (_ ← runtimeError "Operands must be numbers.";
                       mret (Some RUNTIME_ERROR)) vm2 = Ok (Some RUNTIME_ERROR, vm') /\
                      failed "Operands must be numbers." vm vm') as (vm' & Hr & Hf).
  { run_error; [done|]. exists vm'. split; [done|].
    destruct Hfail as (? & ? & ? & ? & ? & ? & ? & ? & ls & ? & ?).
    unfold failed. split_and!; try congruence. exists ls. split; congruence. }
  exists vm'. split; [|done]. destruct a, b; try done.
Qed.

(** C2: a turn of the loop on [GREATER], [LESS], [SUBTRACT], [MULTIPLY] or
    [DIVIDE] with an operand that is no number writes
    [Operands must be numbers.] and resets the machine, but the loop does
    not halt: [run] drops what [binaryOp] returns and goes on with the next
    opcode, in the frame it worked on. *)
Theorem binary_op_error_does_not_halt fuel frame vm byte vm0 op st a b :
  readByte frame vm = Ok (Some byte, vm0) ->
  decode byte = Some op ->
  op ∈ [OP_GREATER; OP_LESS; OP_SUBTRACT; OP_MULTIPLY; OP_DIVIDE] ->
  stack vm = st ++ [a; b] ->
  is_number a && is_number b = false ->
  frames_ok vm ->
  exists vm',
    step fuel frame vm = Ok (Continue frame, vm') /\
    failed "Operands must be numbers." vm0 vm' /\
    forall steps, run_from fuel (S steps) frame vm = run_from fuel steps frame vm'.
Proof.
  intros Hread Hdec Hop Hs Hn Hfs.
  pose proof (readByte_moved _ _ _ _ Hread) as Hm.
  pose proof (frames_ok_moved _ _ Hm Hfs) as Hfs0.
  destruct Hm as (_ & St & _).
  assert (forall f, exists vm', (_ ← binaryOp f; mret (Continue frame)) vm0
                                = Ok (Continue frame, vm') /\
                     failed "Operands must be numbers." vm0 vm') as Hbin.
  { intros f. destruct (binaryOp_fails f vm0 st a b) as (vm' & Hb & Hf); try done.
    { congruence. }
    exists vm'. by rewrite (bind_run _ _ _ _ _ Hb). }
  assert (exists vm', execute fuel frame op vm0 = Ok (Continue frame, vm') /\
                      failed "Operands must be numbers." vm0 vm') as (vm' & He & Hf).
  { repeat (apply elem_of_cons in Hop as [->|Hop]); try apply Hbin.
    by apply elem_of_nil in Hop. }
  assert (step fuel frame vm = Ok (Continue frame, vm')) as Hstep.
  { unfold step. rewrite (bind_run _ _ _ _ _ Hread). simpl. by rewrite Hdec. }
  exists vm'. split; [done|]. split; [done|].
  intros steps. simpl. by rewrite (bind_run _ _ _ _ _ Hstep).
Qed.

(** [true - 1; print "after";] before its [SUBTRACT]. *)
Definition at_subtract : t := state (after 2 minus_true) blank.

Lemma binary_op_error_does_not_halt_witness :
  exists vm0 vm',
    readByte (Some 3) at_subtract = Ok (Some 19, vm0) /\
    step 64 (Some 3) at_subtract = Ok (Continue (Some 3), vm') /\
    failed "Operands must be numbers." vm0 vm' /\
    forall steps,
      run_from 64 (S steps) (Some 3) at_subtract = run_from 64 steps (Some 3) vm'.
Proof.
  exists (state (readByte (Some 3) at_subtract) blank).
  assert (readByte (Some 3) at_subtract =
          Ok (Some 19, state (readByte (Some 3) at_subtract) blank)) as Hread
    by by vm_compute.
  destruct (binary_op_error_does_not_halt 64 (Some 3) at_subtract 19 _ OP_SUBTRACT
              [VObj 2] (VBool true) (VNumber 1) Hread) as (vm' & H).
  - reflexivity.
  - apply elem_of_cons; right. apply elem_of_cons; right. apply elem_of_cons; by left.
  - by vm_compute.
  - reflexivity.
  - apply vm_reachable_Inv. apply state_after_reachable. vm_compute. by eexists.
  - exists vm'. split; [exact Hread|exact H].
Defined.

(** The whole of [true - 1; print "after";]: the error is written, then
    [after] is printed, and the [RETURN] at the end finds no frame to drop:
    [this.frames.length--] throws, and [interpret] returns nothing. *)
Lemma the_program_goes_on_after_the_error :
  (exists vm, after 6 minus_true = Ok (Continue (Some 3), vm) /\
     err vm = ["Operands must be numbers."; "[line 1] in script"] /\
     out vm = [Text "after"]) /\
  (vm ← minus_true; interpret 64 100 1 vm) = Throw "RangeError".
Proof.
  split; [|by vm_compute].
  exists (state (after 6 minus_true) blank). split_and!; by vm_compute.
Qed.

(** C3: the call of a native function with [argCount] arguments takes the
    arguments from the stack and pushes the result; the callee stays where
    it was, under the result. *)
Theorem native_call_leaves_the_callee fuel vm st r nativeFn args :
  stack vm = st ++ VObj r :: args ->
  heap vm !! r = Some (ONative nativeFn) ->
  exists vm',
    callValue fuel (VObj r) (length args) vm = Ok (true, vm') /\
    stack vm' = st ++ [VObj r; nativeFn (length args) args] /\
    length (stack vm') + length args = length (stack vm) + 1 /\
    frames vm' = frames vm /\ heap vm' = heap vm.
Proof.
  intros Hs Hr. unfold callValue.
  assert (deref r vm = Ok (ONative nativeFn, vm)) as Hd.
  { unfold deref. rewrite (bind_run read _ vm vm vm eq_refl). by rewrite Hr. }
  rewrite (bind_run _ _ _ _ _ Hd), (bind_run read _ vm vm vm eq_refl).
  assert (length (stack vm) = length st + S (length args)) as Hlen.
  { rewrite Hs, length_app. simpl. lia. }
  rewrite bool_decide_eq_false_2 by lia.
  erewrite bind_run by reflexivity. erewrite bind_run by reflexivity.
  eexists. split; [reflexivity|]. simpl.
  replace (length (stack vm) - length args) with (S (length st)) by lia.
  rewrite Hs. replace (st ++ VObj r :: args) with ((st ++ [VObj r]) ++ args)
    by (by rewrite <- app_assoc).
  assert (length (st ++ [VObj r]) = S (length st)) as Hl1
    by (rewrite length_app; simpl; lia).
  rewrite <- Hl1, take_app_length, drop_app_length, <- app_assoc. simpl.
  split_and!; try done. rewrite !length_app. simpl. lia.
Qed.

(** [{ var t = clock(); print t; }] at its [CALL], the operand read. *)
Definition at_clock_call : t :=
  state (r ← inside 1 local_clock; operand (Some 3) r.2) blank.

Lemma native_call_leaves_the_callee_witness :
  exists vm',
    callValue 64 (VObj 0) 0 at_clock_call = Ok (true, vm') /\
    stack vm' = [VObj 2] ++ [VObj 0; clock0 0 []] /\
    length (stack vm') + 0 = length (stack at_clock_call) + 1 /\
    frames vm' = frames at_clock_call /\ heap vm' = heap at_clock_call.
Proof.
  apply (native_call_leaves_the_callee 64 at_clock_call [VObj 2] 0 clock0 []).
  - by vm_compute.
  - by vm_compute.
Defined.

(** The whole of [{ var t = clock(); print t; }]: the local [t] is the slot
    above the script's closure, where the callee was left, and [print t]
    writes the function, not the time. *)
Lemma the_local_holds_the_callee :
  exists vm, (vm ← local_clock; interpret 64 100 1 vm) = Ok (INTERPRET_OK, vm) /\
    out vm = [Text "<native fn>"].
Proof.
  exists (state (vm ← local_clock; interpret 64 100 1 vm) blank). split; by vm_compute.
Qed.

Lemma bindMethod_undefined fuel klass name vm cname methods :
  heap vm !! klass = Some (OClass cname methods) ->
  Table.get fuel methods name = Ok VUndefined ->
  frames_ok vm ->
  exists vm', bindMethod fuel klass name vm = Ok (false, vm') /\
    failed ("Undefined property '" +:+ chars name +:+ "'.") vm vm'.
Proof.
  intros Hk Hm Hfs. unfold bindMethod.
  rewrite (bind_run _ _ _ _ _ (the_class_run _ _ _ _ Hk)).
  unfold table_get. rewrite Hm. erewrite bind_run by reflexivity. simpl.
  run_error; [done|]. by exists vm'.
Qed.

(** C1: [GET_PROPERTY] on an instance whose field [name] holds a value [v]
    that JavaScript takes for false ([nil], [false], 0) does not push [v]:
    the test [if (value)] fails, the method of that name is looked for, and
    as the class has none the loop halts with [RUNTIME_ERROR] and writes
    [Undefined property 'name'.]. *)
Theorem get_property_of_falsey_field fuel frame vm st r klass fields name vm1 v
    cname methods :
  stack vm = st ++ [VObj r] ->
  heap vm !! r = Some (OInstance klass fields) ->
  readString frame vm = Ok (name, vm1) ->
  Table.get fuel fields name = Ok v ->
  is_undefined v = false ->
  truthy v = false ->
  heap vm !! klass = Some (OClass cname methods) ->
  Table.get fuel methods name = Ok VUndefined ->
  frames_ok vm ->
  exists vm',
    execute fuel frame OP_GET_PROPERTY vm = Ok (Halt RUNTIME_ERROR, vm') /\
    failed ("Undefined property '" +:+ chars name +:+ "'.") vm1 vm'.
Proof.
  intros Hs Hr Hread Hget Hdef Hv Hk Hm Hfs.
  pose proof (readString_moved _ _ _ _ Hread) as Hmv.
  pose proof (frames_ok_moved _ _ Hmv Hfs) as Hfs1.
  destruct Hmv as (_ & _ & _ & _ & _ & _ & _ & _ & _ & Hheap).
  pose proof (Hheap _ _ Hk) as Hk1. simpl in Hk1.
  unfold execute.
  rewrite (bind_run _ _ _ _ _ (peek_top vm st (VObj r) Hs)).
  rewrite (bind_run read _ vm vm vm eq_refl), Hr.
  rewrite (bind_run _ _ _ _ _ Hread). unfold table_get at 1. rewrite Hget.
  erewrite bind_run by reflexivity. rewrite Hv.
  destruct (bindMethod_undefined fuel klass name vm1 cname methods Hk1 Hm Hfs1)
    as (vm' & Hb & Hf).
  rewrite (bind_run _ _ _ _ _ Hb). by exists vm'.
Qed.

(** [class A {} var a = A(); a.x = 0; print a.x;] at its [GET_PROPERTY]. *)
Definition at_get_property : t := state (inside 12 field_zero) blank.

Definition name_x4 : LoxString := {| ref := 4; chars := "x"; hash := hashString "x" |}.

Definition fields_of (o : option Obj) : Table.t :=
  match o with Some (OInstance _ fields) => fields | _ => Table.new end.
Definition methods_of (o : option Obj) : Table.t :=
  match o with Some (OClass _ methods) => methods | _ => Table.new end.

Lemma get_property_of_falsey_field_witness :
  exists vm1 vm',
    readString (Some 3) at_get_property = Ok (name_x4, vm1) /\
    Table.get 64 (fields_of (heap at_get_property !! 5)) name_x4 = Ok (VNumber 0) /\
    execute 64 (Some 3) OP_GET_PROPERTY at_get_property = Ok (Halt RUNTIME_ERROR, vm') /\
    failed "Undefined property 'x'." vm1 vm'.
Proof.
  exists (state (readString (Some 3) at_get_property) blank).
  assert (readString (Some 3) at_get_property =
          Ok (name_x4, state (readString (Some 3) at_get_property) blank)) as Hread
    by by vm_compute.
  assert (Table.get 64 (fields_of (heap at_get_property !! 5)) name_x4 = Ok (VNumber 0))
    as Hget by by vm_compute.
  destruct (get_property_of_falsey_field 64 (Some 3) at_get_property [VObj 2] 5 4
              (fields_of (heap at_get_property !! 5)) name_x4
              (state (readString (Some 3) at_get_property) blank) (VNumber 0)
              {| ref := 2; chars := "A"; hash := hashString "A" |}
              (methods_of (heap at_get_property !! 4))) as (vm' & H).
  - by vm_compute.
  - by vm_compute.
  - exact Hread.
  - exact Hget.
  - reflexivity.
  - by vm_compute.
  - by vm_compute.
  - by vm_compute.
  - apply state_inside_frames_ok. vm_compute. by eexists.
  - exists vm'. split; [exact Hread|]. split; [exact Hget|exact H].
Defined.

(** The whole of [class A {} var a = A(); a.x = 0; print a.x;]: nothing is
    printed. *)
Lemma the_field_zero_is_not_found :
  exists vm, (vm ← field_zero; interpret 64 100 1 vm) = Ok (RUNTIME_ERROR, vm) /\
    out vm = [] /\
    err vm = ["Undefined property 'x'."; "[line 1] in script"].
Proof.
  exists (state (vm ← field_zero; interpret 64 100 1 vm) blank). split_and!; by vm_compute.
Qed.

(** *** What the methods and the opcodes do *)

Lemma trace_line_heap r vm vm1 l :
  heap vm1 = heap vm -> trace_line r vm1 = Ok (l, vm1) -> trace_line r vm = Ok (l, vm).
Proof.
  intros Hh H.
  unfold trace_line, the_frame, the_closure, the_function, deref, mbind, M_bind, read in *.
  simpl in *. rewrite Hh in H. destruct (heap vm !! r) as [[]|]; try done. simpl in *.
  rewrite Hh in H. destruct (heap vm !! closure) as [[]|]; try done. simpl in *.
  rewrite Hh in H. destruct (heap vm !! func) as [[]|]; try done. simpl in *.
  by injection H as ->.
Qed.

Lemma trace_lines rs : forall vm,
  Forall (frame_ok (heap vm)) rs ->
  exists ls vm', trace rs vm = Ok (tt, vm') /\
    Forall2 (fun r l => trace_line r vm = Ok (l, vm)) rs ls /\
    frames vm' = frames vm /\ stack vm' = stack vm /\
    openUpvalues vm' = openUpvalues vm /\ heap vm' = heap vm /\
    globals vm' = globals vm /\ pool vm' = pool vm /\
    initString vm' = initString vm /\ out vm' = out vm /\
    err vm' = err vm ++ ls.
Proof.
  induction rs as [|r rs IH]; intros vm Hrs.
  - exists [], vm. rewrite app_nil_r. split_and!; first [done|constructor].
  - apply list.Forall_cons in Hrs as [Hr Hrs].
    destruct (trace_line_Ok vm r Hr) as (l & Hl). simpl.
    rewrite (bind_run _ _ _ _ _ Hl).
    destruct (log_error l vm) as [[[] vm1]| | |] eqn:E; try done.
    rewrite (bind_run _ _ _ _ _ E). injection E as E.
    assert (heap vm1 = heap vm) as Hh by (by subst vm1).
    destruct (IH vm1) as (ls & vm' & Ht & Hall & ? & ? & ? & ? & ? & ? & ? & ? & He).
    { by rewrite Hh. }
    exists (l :: ls), vm'. rewrite Ht. subst vm1. simpl in *. split_and!; try done.
    + constructor; [done|]. eapply list.Forall2_impl; [exact Hall|]. simpl.
      intros r' l' H'. eapply trace_line_heap; [|exact H']. done.
    + by rewrite He, <- app_assoc.
Qed.

(** X10: [runtimeError(message)] returns; it writes the message and then
    one line for each frame, from the innermost one outwards, empties the
    stack, the frames and the list of open upvalues, and leaves the
    globals, the pool and the objects as they are. *)
Theorem runtimeError_resets message vm :
  vm_reachable vm ->
  exists vm' ls,
    runtimeError message vm = Ok (tt, vm') /\
    err vm' = err vm ++ message :: ls /\
    Forall2 (fun r l => trace_line r vm = Ok (l, vm)) (reverse (frames vm)) ls /\
    frames vm' = [] /\ stack vm' = [] /\ openUpvalues vm' = None /\
    heap vm' = heap vm /\ globals vm' = globals vm /\ pool vm' = pool vm /\
    out vm' = out vm.
Proof.
  intros (_ & _ & Hfs)%vm_reachable_Inv. unfold runtimeError.
  destruct (log_error message vm) as [[[] vm1]| | |] eqn:E; try done.
  rewrite (bind_run _ _ _ _ _ E), (bind_run read _ vm1 vm1 vm1 eq_refl).
  injection E as E.
  destruct (trace_lines (reverse (frames vm1)) vm1)
    as (ls & vm2 & Ht & Hall & ? & ? & ? & ? & ? & ? & ? & ? & He).
  { subst vm1. simpl. apply Forall_reverse. exact Hfs. }
  rewrite (bind_run _ _ _ _ _ Ht). eexists _, ls. split; [reflexivity|].
  subst vm1. simpl in *. split_and!; try done.
  - by rewrite He, <- app_assoc.
  - eapply list.Forall2_impl; [exact Hall|]. simpl. intros r l H'.
    eapply trace_line_heap; [|exact H']. done.
Qed.

(** **** Global variables *)

Lemma get_global_defined fuel frame vm name vm1 v :
  readString frame vm = Ok (name, vm1) ->
  Table.get fuel (globals vm) name = Ok v -> is_undefined v = false ->
  exists vm', execute fuel frame OP_GET_GLOBAL vm = Ok (Continue frame, vm') /\
    stack vm' = stack vm ++ [v] /\ globals vm' = globals vm /\
    frames vm' = frames vm.
Proof.
  intros Hread Hget Hv.
  destruct (readString_moved _ _ _ _ Hread) as (F & St & G & _).
  unfold execute. rewrite (bind_run _ _ _ _ _ Hread).
  rewrite (bind_run read _ vm1 vm1 vm1 eq_refl). unfold table_get. rewrite G, Hget.
  erewrite bind_run by reflexivity. rewrite Hv.
  eexists. split; [reflexivity|]. simpl. by rewrite St, G, F.
Qed.

(** X11: [DEFINE_GLOBAL] takes the value from the stack and binds the name
    to it, and from then on, as long as the globals are not changed, every
    [GET_GLOBAL] of the name pushes that value. *)
Theorem define_then_get_global fuel frame vm name vm1 st v :
  readString frame vm = Ok (name, vm1) ->
  stack vm = st ++ [v] ->
  is_undefined v = false ->
  TableFacts.reachable (globals vm) ->
  2 * Table.capacity (globals vm) + 8 <= fuel ->
  exists vm2,
    execute fuel frame OP_DEFINE_GLOBAL vm = Ok (Continue frame, vm2) /\
    stack vm2 = st /\ frames vm2 = frames vm /\
    TableFacts.reachable (globals vm2) /\
    forall frame' vm3 vm4,
      globals vm3 = globals vm2 ->
      readString frame' vm3 = Ok (name, vm4) ->
      exists vm5,
        execute fuel frame' OP_GET_GLOBAL vm3 = Ok (Continue frame', vm5) /\
        stack vm5 = stack vm3 ++ [v].
Proof.
  intros Hread Hst Hv Hreach Hfuel.
  destruct (readString_moved _ _ _ _ Hread) as (F & St & G & _).
  pose proof (TableFacts.reachable_wf _ Hreach) as [Hc Ht].
  destruct (TableFacts.set_spec fuel (globals vm) name v Hc Hfuel)
    as (tb' & b & Hset & Hc' & _ & _ & Hcap & _ & Hp & _).
  unfold execute. rewrite (bind_run _ _ _ _ _ Hread).
  destruct (pop_top vm1 st v) as (vm1' & Hpop & Hs1 & F1 & _ & _ & _ & G1 & _);
    [congruence|].
  rewrite (bind_run _ _ _ _ _ Hpop), (bind_run read _ vm1' vm1' vm1' eq_refl).
  rewrite G1, G, Hset. erewrite bind_run by reflexivity. simpl.
  erewrite bind_run by reflexivity.
  eexists. split; [reflexivity|]. simpl. split; [done|]. split; [congruence|].
  split; [by eapply TableFacts.reach_set|].
  intros frame' vm3 vm4 Hg Hread'.
  destruct (get_global_defined fuel frame' vm3 name vm4 v Hread') as (vm5 & He & Hs5 & _);
    [|done|by exists vm5].
  rewrite Hg. apply (TableFacts.answers_present tb' name v Hc' Hp). lia.
Qed.

(** X12: [GET_GLOBAL] of a name the globals lack halts the loop with
    [RUNTIME_ERROR] and writes [Undefined global 'name'.]. *)
Theorem get_global_of_undefined_name fuel frame vm name vm1 :
  readString frame vm = Ok (name, vm1) ->
  TableFacts.reachable (globals vm) ->
  TableFacts.absent (globals vm) name ->
  frames_ok vm ->
  Table.capacity (globals vm) <= fuel ->
  exists vm',
    execute fuel frame OP_GET_GLOBAL vm = Ok (Halt RUNTIME_ERROR, vm') /\
    failed ("Undefined global '" +:+ chars name +:+ "'.") vm1 vm'.
Proof.
  intros Hread Hreach Habs Hfs Hfuel.
  pose proof (readString_moved _ _ _ _ Hread) as Hm.
  pose proof (frames_ok_moved _ _ Hm Hfs) as Hfs1.
  destruct Hm as (F & St & G & _).
  pose proof (TableFacts.reachable_wf _ Hreach) as [Hc Ht].
  unfold execute. rewrite (bind_run _ _ _ _ _ Hread).
  rewrite (bind_run read _ vm1 vm1 vm1 eq_refl). unfold table_get.
  rewrite G, (TableFacts.answers_absent _ _ Hc Habs fuel Hfuel).
  erewrite bind_run by reflexivity. simpl.
  run_error; [done|]. by exists vm'.
Qed.

(** X13: [SET_GLOBAL] of a name the globals hold binds the name to the
    value on top of the stack, leaves that value on the stack, and goes on;
    the other names keep their values. *)
Theorem set_global_of_defined_name fuel frame vm name vm1 st v old :
  readString frame vm = Ok (name, vm1) ->
  stack vm = st ++ [v] ->
  is_undefined v = false ->
  TableFacts.reachable (globals vm) ->
  TableFacts.answers (globals vm) name old -> is_undefined old = false ->
  2 * Table.capacity (globals vm) + 8 <= fuel ->
  exists vm',
    execute fuel frame OP_SET_GLOBAL vm = Ok (Continue frame, vm') /\
    stack vm' = stack vm /\ frames vm' = frames vm /\ err vm' = err vm /\
    TableFacts.reachable (globals vm') /\
    TableFacts.answers (globals vm') name v /\
    forall key w, key <> name ->
      TableFacts.answers (globals vm) key w -> TableFacts.answers (globals vm') key w.
Proof.
  intros Hread Hst Hv Hreach Hold Hdef Hfuel.
  destruct (readString_moved _ _ _ _ Hread) as (F & St & G & _ & _ & _ & _ & E & _).
  pose proof (TableFacts.reachable_wf _ Hreach) as Hwf. pose proof Hwf as [Hc Ht].
  destruct (TableFacts.set_spec fuel (globals vm) name v Hc Hfuel)
    as (tb' & b & Hset & Hc' & _ & _ & _ & Hb & Hp & Ho & _).
  assert (b = false) as ->.
  { destruct b; [|done]. exfalso.
    destruct (TableFacts.answers_inv _ _ _ Hwf Hold) as [[_ Hpo]|[-> _]]; [|done].
    eapply TableFacts.present_absent; [exact Hpo|]. by apply Hb. }
  unfold execute. rewrite (bind_run _ _ _ _ _ Hread).
  assert (peek 0 vm1 = Ok (v, vm1)) as Hpeek by (apply (peek_top vm1 st); congruence).
  rewrite (bind_run _ _ _ _ _ Hpeek), (bind_run read _ vm1 vm1 vm1 eq_refl).
  rewrite G, Hset. erewrite bind_run by reflexivity. simpl.
  erewrite bind_run by reflexivity.
  eexists. split; [reflexivity|]. simpl. split_and!; try done.
  - by apply (TableFacts.reach_set fuel (globals vm) name v tb' false).
  - by apply TableFacts.answers_present.
  - intros key w Hne Hw. eapply TableFacts.answers_carried; [exact Hwf|done| |done].
    intros u. by apply Ho.
Qed.

(** **** The theorems at work *)

Lemma runtimeError_resets_witness :
  exists vm' ls,
    runtimeError "Stack overflow." deep = Ok (tt, vm') /\
    err vm' = err deep ++ "Stack overflow." :: ls /\
    Forall2 (fun r l => trace_line r deep = Ok (l, deep)) (reverse (frames deep)) ls /\
    frames vm' = [] /\ stack vm' = [] /\ openUpvalues vm' = None /\
    heap vm' = heap deep /\ globals vm' = globals deep /\ pool vm' = pool deep /\
    out vm' = out deep.
Proof.
  apply (runtimeError_resets "Stack overflow." deep).
  apply state_after_reachable. vm_compute. by eexists.
Defined.

(** [var x = 1; print x;] *)
Definition define_x : Result t :=
  compiled ["x"] (fun ss =>
    match ss with
    | [x] => [function None [0; 1; 7; 0; 6; 2; 24; 1; 33]
                [VString x; VNumber 1; VString x]]
    | _ => []
    end).

(** [print x;] *)
Definition print_x : Result t :=
  compiled ["x"] (fun ss =>
    match ss with
    | [x] => [function None [6; 0; 24; 1; 33] [VString x]]
    | _ => []
    end).

(** [var x = 1; x = 2;] *)
Definition define_assign_x : Result t :=
  compiled ["x"] (fun ss =>
    match ss with
    | [x] => [function None [0; 1; 7; 0; 0; 3; 9; 2; 4; 1; 33]
                [VString x; VNumber 1; VString x; VNumber 2]]
    | _ => []
    end).

Definition name_clock : LoxString :=
  {| ref := 0; chars := "clock"; hash := hashString "clock" |}.

(** The globals of a fresh machine: [clock] alone. *)
Lemma fresh_globals_reachable : TableFacts.reachable (globals at_set_global).
Proof.
  apply (TableFacts.reach_set 64 Table.new name_clock (VObj 0) _ true);
    [apply TableFacts.reach_new|reflexivity|by vm_compute].
Qed.

Definition at_define_global : t := state (inside 1 define_x) blank.
Definition at_get_global : t := state (inside 0 print_x) blank.
Definition at_second_set_global : t := state (inside 3 define_assign_x) blank.

Lemma define_then_get_global_witness :
  exists vm1 vm2,
    readString (Some 3) at_define_global = Ok (name_x, vm1) /\
    execute 64 (Some 3) OP_DEFINE_GLOBAL at_define_global = Ok (Continue (Some 3), vm2) /\
    stack vm2 = [VObj 2] /\ frames vm2 = frames at_define_global /\
    TableFacts.reachable (globals vm2) /\
    forall frame' vm3 vm4,
      globals vm3 = globals vm2 ->
      readString frame' vm3 = Ok (name_x, vm4) ->
      exists vm5,
        execute 64 frame' OP_GET_GLOBAL vm3 = Ok (Continue frame', vm5) /\
        stack vm5 = stack vm3 ++ [VNumber 1].
Proof.
  exists (state (readString (Some 3) at_define_global) blank).
  assert (readString (Some 3) at_define_global =
          Ok (name_x, state (readString (Some 3) at_define_global) blank)) as Hread
    by by vm_compute.
  destruct (define_then_get_global 64 (Some 3) at_define_global name_x _
              [VObj 2] (VNumber 1) Hread) as (vm2 & H).
  - by vm_compute.
  - reflexivity.
  - exact fresh_globals_reachable.
  - vm_compute. lia.
  - exists vm2. split; [exact Hread|exact H].
Defined.

Lemma get_global_of_undefined_name_witness :
  exists vm1 vm',
    readString (Some 3) at_get_global = Ok (name_x, vm1) /\
    execute 64 (Some 3) OP_GET_GLOBAL at_get_global = Ok (Halt RUNTIME_ERROR, vm') /\
    failed "Undefined global 'x'." vm1 vm'.
Proof.
  exists (state (readString (Some 3) at_get_global) blank).
  assert (readString (Some 3) at_get_global =
          Ok (name_x, state (readString (Some 3) at_get_global) blank)) as Hread
    by by vm_compute.
  destruct (get_global_of_undefined_name 64 (Some 3) at_get_global name_x _ Hread)
    as (vm' & H).
  - exact fresh_globals_reachable.
  - apply TableFacts.absent_check. by vm_compute.
  - apply state_inside_frames_ok. vm_compute. by eexists.
  - vm_compute. lia.
  - exists vm'. split; [exact Hread|exact H].
Defined.

Lemma second_globals_reachable : TableFacts.reachable (globals at_second_set_global).
Proof.
  apply (TableFacts.reach_set 64 (globals at_set_global) name_x (VNumber 1) _ true);
    [exact fresh_globals_reachable|reflexivity|by vm_compute].
Qed.

Lemma set_global_of_defined_name_witness :
  exists vm1 vm',
    readString (Some 3) at_second_set_global = Ok (name_x, vm1) /\
    execute 64 (Some 3) OP_SET_GLOBAL at_second_set_global = Ok (Continue (Some 3), vm') /\
    stack vm' = stack at_second_set_global /\
    frames vm' = frames at_second_set_global /\
    err vm' = err at_second_set_global /\
    TableFacts.reachable (globals vm') /\
    TableFacts.answers (globals vm') name_x (VNumber 2) /\
    forall key w, key <> name_x ->
      TableFacts.answers (globals at_second_set_global) key w -> TableFacts.answers (globals vm') key w.
Proof.
  exists (state (readString (Some 3) at_second_set_global) blank).
  assert (readString (Some 3) at_second_set_global =
          Ok (name_x, state (readString (Some 3) at_second_set_global) blank)) as Hread
    by by vm_compute.
  destruct (set_global_of_defined_name 64 (Some 3) at_second_set_global name_x _
              [VObj 2] (VNumber 2) (VNumber 1) Hread) as (vm' & H).
  - by vm_compute.
  - reflexivity.
  - exact second_globals_reachable.
  - apply TableFacts.answers_check; [apply TableFacts.reachable_wf, second_globals_reachable|by vm_compute].
  - reflexivity.
  - vm_compute. lia.
  - exists vm'. split; [exact Hread|exact H].
Defined.

(** *** Calls *)

(** The state but for the stack. *)
Definition restacked (vm vm' : t) : Prop :=
  frames vm' = frames vm /\ heap vm' = heap vm /\ globals vm' = globals vm /\
  initString vm' = initString vm /\ openUpvalues vm' = openUpvalues vm /\
  pool vm' = pool vm /\ out vm' = out vm /\ err vm' = err vm.

Lemma peek_at vm st v args :
  stack vm = st ++ v :: args -> peek (length args) vm = Ok (v, vm).
Proof.
  intros Hs. unfold peek, mbind, M_bind, read, mret, M_ret. simpl. do 2 f_equal.
  rewrite Hs, length_app. simpl. unfold value_at_Z, at_Z.
  replace (Z.of_nat (length st + S (length args)) - 1 - Z.of_nat (length args))%Z
    with (Z.of_nat (length st)) by lia.
  destruct (Z.ltb_spec (Z.of_nat (length st)) 0); [lia|].
  rewrite Nat2Z.id, lookup_app_r by lia. by rewrite Nat.sub_diag.
Qed.

Lemma put_at vm st v args w :
  stack vm = st ++ v :: args ->
  exists vm', put (length args) w vm = Ok (tt, vm') /\
    stack vm' = st ++ w :: args /\ restacked vm vm'.
Proof.
  intros Hs. unfold put. rewrite (bind_run read _ vm vm vm eq_refl). cbv beta zeta.
  rewrite Hs, length_app. simpl.
  replace (Z.of_nat (length st + S (length args)) - 1 - Z.of_nat (length args))%Z
    with (Z.of_nat (length st)) by lia.
  destruct (Z.ltb_spec (Z.of_nat (length st)) 0); [lia|].
  eexists. split; [reflexivity|]. simpl. split; [|done].
  unfold store_at. rewrite Nat2Z.id, length_app. simpl.
  rewrite bool_decide_eq_true_2 by lia.
  rewrite insert_app_r_alt by lia. by rewrite Nat.sub_diag.
Qed.

Lemma deref_run vm r o : heap vm !! r = Some o -> deref r vm = Ok (o, vm).
Proof.
  intros H. unfold deref. rewrite (bind_run read _ vm vm vm eq_refl). by rewrite H.
Qed.

(** The objects [callValue] calls. *)
Definition callable (o : Obj) : bool :=
  match o with
  | OBoundMethod _ _ | OClass _ _ | OClosure _ _ | ONative _ => true
  | _ => false
  end.

(** A value that is no object, or an object of the store that is not
    callable. *)
Definition no_function (h : list Obj) (v : Value) : Prop :=
  match v with
  | VObj r => exists o, h !! r = Some o /\ callable o = false
  | _ => True
  end.

Lemma callValue_no_function fuel vm callee argCount :
  no_function (heap vm) callee -> frames_ok vm ->
  exists vm', callValue fuel callee argCount vm = Ok (false, vm') /\
    failed "Can only call functions and classes." vm vm'.
Proof.
  intros Hno Hfs. unfold callValue.
  assert (exists vm', (_ ← runtimeError "Can only call functions and classes.";
                       mret false) vm = Ok (false, vm') /\
            failed "Can only call functions and classes." vm vm') as Herr.
  { run_error; [done|]. by exists vm'. }
  destruct callee as [| |b|n|s|r]; try exact Herr.
  destruct Hno as (o & Ho & Hc). rewrite (bind_run _ _ _ _ _ (deref_run _ _ _ Ho)).
  destruct o; try done; exact Herr.
Qed.

(** X14: [CALL] of a value that is no bound method, class, closure or
    native function, a number or a string or an instance say, halts the
    loop with [RUNTIME_ERROR] and writes
    [Can only call functions and classes.]. *)
Theorem call_of_a_value_that_is_no_function fuel frame vm vm1 st callee args :
  operand frame vm = Ok (length args, vm1) ->
  stack vm = st ++ callee :: args ->
  no_function (heap vm) callee ->
  frames_ok vm ->
  exists vm',
    execute fuel frame OP_CALL vm = Ok (Halt RUNTIME_ERROR, vm') /\
    failed "Can only call functions and classes." vm1 vm'.
Proof.
  intros Hop Hs Hno Hfs.
  pose proof (operand_moved _ _ _ _ Hop) as Hm.
  pose proof (frames_ok_moved _ _ Hm Hfs) as Hfs1.
  destruct Hm as (_ & St & _ & _ & _ & _ & _ & _ & _ & Hheap).
  unfold execute. rewrite (bind_run _ _ _ _ _ Hop).
  rewrite (bind_run _ _ _ _ _ (peek_at vm1 st callee args ltac:(congruence))).
  destruct (callValue_no_function fuel vm1 callee (length args)) as (vm' & Hc & Hf);
    [|done|].
  { destruct callee as [| |b|n|s|r]; try done. simpl in *.
    destruct Hno as (o & Ho & Hc). specialize (Hheap _ _ Ho).
    destruct o; try done; eauto.
    destruct Hheap as (ip' & Hip). by exists (OFrame closure ip' offset). }
  rewrite (bind_run _ _ _ _ _ Hc). by exists vm'.
Qed.

Lemma call_pushes vm st callee args closure f us func :
  stack vm = st ++ callee :: args ->
  heap vm !! closure = Some (OClosure f us) ->
  heap vm !! f = Some (OFunction func) ->
  length args = arity func ->
  length (frames vm) < 64 ->
  exists vm', call closure (length args) vm = Ok (true, vm') /\
    heap vm' = heap vm ++ [OFrame closure 0 (Z.of_nat (length st))] /\
    frames vm' = frames vm ++ [length (heap vm)] /\
    stack vm' = stack vm /\ globals vm' = globals vm /\ pool vm' = pool vm /\
    openUpvalues vm' = openUpvalues vm /\ out vm' = out vm /\ err vm' = err vm.
Proof.
  intros Hs Hc Hf Ha Hlt. unfold call.
  rewrite (bind_run _ _ _ _ _ (the_closure_run _ _ _ _ Hc)).
  rewrite (bind_run _ _ _ _ _ (the_function_run _ _ _ Hf)).
  rewrite bool_decide_eq_true_2 by done. simpl.
  rewrite (bind_run read _ vm vm vm eq_refl).
  rewrite bool_decide_eq_false_2 by lia.
  eexists. split; [reflexivity|]. simpl. split_and!; try done.
  do 3 f_equal. rewrite Hs, length_app. simpl. lia.
Qed.

(** X15: the call of a class that has no method [init] puts a new
    instance, without fields, where the class stood on the stack, and
    pushes no frame; with arguments it then fails with
    [Expected 0 arguments but got N.], the instance made all the same. *)
Theorem call_of_a_class_without_init fuel vm st k cname methods args :
  stack vm = st ++ VObj k :: args ->
  heap vm !! k = Some (OClass cname methods) ->
  Table.get fuel methods (initString vm) = Ok VUndefined ->
  frames_ok vm ->
  exists vm',
    callValue fuel (VObj k) (length args) vm
      = Ok (match args with [] => true | _ => false end, vm') /\
    heap vm' = heap vm ++ [OInstance k Table.new] /\
    globals vm' = globals vm /\ out vm' = out vm /\
    match args with
    | [] => stack vm' = st ++ [VObj (length (heap vm))] /\
            frames vm' = frames vm /\ err vm' = err vm
    | _ => stack vm' = [] /\ frames vm' = [] /\
           exists ls, err vm' = err vm ++
             ("Expected 0 arguments but got " +:+ show_nat (length args) +:+ ".") :: ls
    end.
Proof.
  intros Hs Hk Hget Hfs. unfold callValue.
  rewrite (bind_run _ _ _ _ _ (deref_run _ _ _ Hk)).
  erewrite bind_run by reflexivity.
  match goal with |- context [(put _ _ ≫= _) ?s] => set (vm1 := s) end.
  destruct (put_at vm1 st (VObj k) args (VObj (length (heap vm))))
    as (vm2 & Hput & Hs2 & F2 & H2 & G2 & I2 & U2 & P2 & O2 & E2); [done|].
  rewrite (bind_run _ _ _ _ _ Hput), (bind_run read _ vm2 vm2 vm2 eq_refl).
  unfold table_get. rewrite I2. simpl. rewrite Hget.
  erewrite bind_run by reflexivity. simpl.
  destruct args as [|a args]; simpl.
  - eexists. split; [reflexivity|]. rewrite H2, G2, O2, Hs2, F2, E2. done.
  - run_error.
    { unfold frames_ok. rewrite F2, H2. simpl.
      eapply frames_ok_kept; [apply kept_app|done]. }
    destruct Hfail as (F3 & S3 & _ & H3 & G3 & _ & _ & O3 & ls & E3 & _).
    exists vm'. split; [done|]. rewrite H3, G3, O3, H2, G2, O2. split_and!; try done.
    exists ls. by rewrite E3, E2.
Qed.

(** X16: the call of a class that has a method [init] puts the new
    instance where the class stood and enters [init] on the arguments: the
    frame pushed starts at the slot of the instance. *)
Theorem call_of_a_class_with_init fuel vm st k cname methods args c f us func :
  stack vm = st ++ VObj k :: args ->
  heap vm !! k = Some (OClass cname methods) ->
  Table.get fuel methods (initString vm) = Ok (VObj c) ->
  heap vm !! c = Some (OClosure f us) ->
  heap vm !! f = Some (OFunction func) ->
  length args = arity func ->
  length (frames vm) < 64 ->
  exists vm',
    callValue fuel (VObj k) (length args) vm = Ok (true, vm') /\
    heap vm' = heap vm ++ [OInstance k Table.new; OFrame c 0 (Z.of_nat (length st))] /\
    stack vm' = st ++ VObj (length (heap vm)) :: args /\
    frames vm' = frames vm ++ [S (length (heap vm))] /\
    value_at_Z (stack vm') (Z.of_nat (length st)) = VObj (length (heap vm)).
Proof.
  intros Hs Hk Hget Hc Hf Ha Hlt. unfold callValue.
  rewrite (bind_run _ _ _ _ _ (deref_run _ _ _ Hk)).
  erewrite bind_run by reflexivity.
  match goal with |- context [(put _ _ ≫= _) ?s] => set (vm1 := s) end.
  destruct (put_at vm1 st (VObj k) args (VObj (length (heap vm))))
    as (vm2 & Hput & Hs2 & F2 & H2 & G2 & I2 & U2 & P2 & O2 & E2); [done|].
  rewrite (bind_run _ _ _ _ _ Hput), (bind_run read _ vm2 vm2 vm2 eq_refl).
  unfold table_get. rewrite I2. simpl. rewrite Hget.
  erewrite bind_run by reflexivity. simpl.
  assert (heap vm2 !! c = Some (OClosure f us)) as Hc2.
  { rewrite H2. simpl. by apply lookup_app_l_Some. }
  assert (heap vm2 !! f = Some (OFunction func)) as Hf2.
  { rewrite H2. simpl. by apply lookup_app_l_Some. }
  erewrite bind_run; cycle 1.
  { unfold as_closure. rewrite (bind_run _ _ _ _ _ (the_closure_run _ _ _ _ Hc2)).
    reflexivity. }
  destruct (call_pushes vm2 st (VObj (length (heap vm))) args c f us func)
    as (vm' & Hcall & H3 & F3 & S3 & _); try done.
  { by rewrite F2. }
  exists vm'. split; [done|]. rewrite H3, F3, S3, Hs2, H2, F2. simpl.
  rewrite <- app_assoc, length_app. simpl. split_and!; try done.
  - do 2 f_equal. lia.
  - unfold value_at_Z, at_Z. destruct (Z.ltb_spec (Z.of_nat (length st)) 0); [lia|].
    rewrite Nat2Z.id, lookup_app_r by lia. by rewrite Nat.sub_diag.
Qed.

(** X17: the call of a bound method puts the receiver where the bound
    method stood and enters the method on the arguments: the frame pushed
    starts at the slot of the receiver. *)
Theorem call_of_a_bound_method fuel vm st b receiver args c f us func :
  stack vm = st ++ VObj b :: args ->
  heap vm !! b = Some (OBoundMethod receiver c) ->
  heap vm !! c = Some (OClosure f us) ->
  heap vm !! f = Some (OFunction func) ->
  length args = arity func ->
  length (frames vm) < 64 ->
  exists vm',
    callValue fuel (VObj b) (length args) vm = Ok (true, vm') /\
    heap vm' = heap vm ++ [OFrame c 0 (Z.of_nat (length st))] /\
    stack vm' = st ++ receiver :: args /\
    frames vm' = frames vm ++ [length (heap vm)] /\
    value_at_Z (stack vm') (Z.of_nat (length st)) = receiver.
Proof.
  intros Hs Hb Hc Hf Ha Hlt. unfold callValue.
  rewrite (bind_run _ _ _ _ _ (deref_run _ _ _ Hb)).
  destruct (put_at vm st (VObj b) args receiver)
    as (vm2 & Hput & Hs2 & F2 & H2 & G2 & I2 & U2 & P2 & O2 & E2); [done|].
  rewrite (bind_run _ _ _ _ _ Hput).
  destruct (call_pushes vm2 st receiver args c f us func)
    as (vm' & Hcall & H3 & F3 & S3 & _); try done; try congruence.
  exists vm'. split; [done|]. rewrite H3, F3, S3, Hs2, H2, F2. split_and!; try done.
  unfold value_at_Z, at_Z. destruct (Z.ltb_spec (Z.of_nat (length st)) 0); [lia|].
  rewrite Nat2Z.id, lookup_app_r by lia. by rewrite Nat.sub_diag.
Qed.

(** *** Closing upvalues, and the return *)

Lemma closeUpvalues_loop_values last n : forall vm vm' l,
  chain (heap vm) (openUpvalues vm) l -> descending l.*2 ->
  closeUpvalues_loop n last vm = Ok (tt, vm') ->
  length (heap vm') = length (heap vm) /\
  (forall u i, (u, i) ∈ l ->
     if (last <=? i)%Z
     then exists next,
            heap vm' !! u = Some (OUpvalue (-1) next (value_at_Z (stack vm) i))
     else heap vm' !! u = heap vm !! u) /\
  (forall r, r ∉ l.*1 -> heap vm' !! r = heap vm !! r).
Proof.
  induction n as [|n IH]; intros vm vm' l Hc Hd H; simpl in H; [done|].
  apply bind_inv in H as (? & ? & [-> ->]%read_inv & H).
  destruct (openUpvalues vm) as [u|] eqn:Eo.
  - apply bind_inv in H as ([[i next] c] & vm1 & [-> Ho]%the_upvalue_Ok & H). simpl in Ho.
    inversion Hc as [|? i' next' l0 ? Hu Hs]; subst.
    assert (i' = i /\ next' = next) as [-> ->].
    { unfold upvalue_at in Hu. rewrite Ho in Hu. by injection Hu as <- <-. }
    pose proof (seg_head_fresh _ _ _ _ _ _ Hu Hs Hd) as Hfresh.
    destruct (Z.leb_spec last i) as [Hle|Hgt].
    + apply bind_inv in H as (? & vm1 & Hcl & H).
      apply close_inv in Hcl as (i0 & n0 & c0 & Ho' & Hh1 & Ho1 & Hf1 & Hs1).
      rewrite Ho in Ho'. injection Ho' as <- <- <-.
      apply bind_inv in H as (? & vm2 & (Hh2 & Ho2 & Hf2 & Hs2)%set_openUpvalues_inv & H).
      apply IH with (l := l0) in H as (Hlen & Hin & Hout).
      * rewrite Hh2, Hh1, length_insert in Hlen. split; [done|].
        rewrite Hs2, Hs1 in Hin. rewrite Hh2, Hh1 in Hin, Hout. split.
        -- intros u' i' [[= -> ->]|Hx]%elem_of_cons.
           ++ destruct (Z.leb_spec last i); [|lia]. exists next.
              rewrite (Hout u Hfresh). apply list_lookup_insert_eq.
              by eapply lookup_lt_Some.
           ++ specialize (Hin u' i' Hx). destruct (last <=? i')%Z; [done|].
              rewrite Hin. apply list_lookup_insert_ne. intros ->. apply Hfresh.
              apply list_elem_of_fmap. by exists (u', i').
        -- intros r Hr. rewrite fmap_cons in Hr. apply not_elem_of_cons in Hr as [Hne Hr].
           rewrite (Hout r Hr). by apply list_lookup_insert_ne.
      * unfold chain. rewrite Hh2, Ho2, Hh1. by apply seg_insert.
      * by eapply descending_tail.
    + apply ret_inv in H as [_ ->]. split; [done|]. split; [|done].
      intros u' i' Hx. destruct (Z.leb_spec last i'); [|done]. exfalso.
      apply elem_of_cons in Hx as [[= -> ->]|Hx]; [lia|].
      assert (i' < i)%Z; [|lia]. eapply descending_lt; [exact Hd|].
      apply list_elem_of_fmap. by exists (u', i').
  - apply ret_inv in H as [_ ->]. inversion Hc; subst. split; [done|]. split; [|done].
    intros u i Hx. by apply elem_of_nil in Hx.
Qed.

Lemma closeUpvalues_loop_rest last n : forall vm vm',
  closeUpvalues_loop n last vm = Ok (tt, vm') ->
  globals vm' = globals vm /\ out vm' = out vm /\ err vm' = err vm /\
  pool vm' = pool vm /\ initString vm' = initString vm.
Proof.
  induction n as [|n IH]; intros vm vm' H; [done|].
  simpl in H. apply bind_inv in H as (? & ? & [-> ->]%read_inv & H).
  destruct (openUpvalues vm) as [u|]; [|by apply ret_inv in H as [_ ->]].
  apply bind_inv in H as ([[i next] c] & ? & [-> Ho]%the_upvalue_Ok & H).
  destruct (last <=? i)%Z; [|by apply ret_inv in H as [_ ->]].
  apply bind_inv in H as (? & vm2 & Hcl & H).
  unfold close in Hcl.
  apply bind_inv in Hcl as ([[i0 n0] c0] & ? & [-> _]%the_upvalue_Ok & Hcl).
  apply bind_inv in Hcl as (? & ? & [-> ->]%read_inv & Hcl). injection Hcl as <-.
  apply bind_inv in H as (? & vm3 & Hso & H). injection Hso as <-.
  apply IH in H as (G & O & E & P & I). subst. simpl in *. done.
Qed.

(** X18: [closeUpvalues(last)] returns when the budget of its walk is
    above the length of the list; an open upvalue whose index is not below
    [last] is closed over the value its slot of the stack holds at that
    moment, and nothing else of the store changes, nor the stack. *)
Theorem closed_upvalues_keep_the_values fuel last vm l :
  open_list vm l -> length l < fuel ->
  exists vm',
    closeUpvalues fuel last vm = Ok (tt, vm') /\
    stack vm' = stack vm /\ frames vm' = frames vm /\
    length (heap vm') = length (heap vm) /\
    (forall u i, (u, i) ∈ l ->
       if (last <=? i)%Z
       then exists next,
              heap vm' !! u = Some (OUpvalue (-1) next (value_at_Z (stack vm) i))
       else heap vm' !! u = heap vm !! u) /\
    (forall r, r ∉ l.*1 -> heap vm' !! r = heap vm !! r).
Proof.
  intros (Hc & Hd & _) Hf.
  destruct (closeUpvalues_loop_total last l fuel vm Hc Hd Hf) as ([[] vm'] & Hrun).
  exists vm'. split; [done|].
  destruct (closeUpvalues_loop_spec _ _ _ _ _ Hc Hd Hrun) as (F & St & _).
  destruct (closeUpvalues_loop_values _ _ _ _ _ Hc Hd Hrun) as (Hlen & Hin & Hout).
  done.
Qed.

Lemma the_frame_run vm r c ip off :
  heap vm !! r = Some (OFrame c ip off) -> the_frame r vm = Ok ((c, ip, off), vm).
Proof.
  intros H. unfold the_frame, deref, mbind, M_bind, read. simpl. by rewrite H.
Qed.

Lemma current_run vm r c ip off f us func :
  heap vm !! r = Some (OFrame c ip off) ->
  heap vm !! c = Some (OClosure f us) ->
  heap vm !! f = Some (OFunction func) ->
  current (Some r) vm = Ok ((r, c, ip, off, func), vm).
Proof.
  intros Hr Hc Hf. unfold current.
  rewrite (bind_run _ _ _ _ _ (the_frame_run _ _ _ _ _ Hr)). simpl.
  rewrite (bind_run _ _ _ _ _ (the_closure_run _ _ _ _ Hc)). simpl.
  by rewrite (bind_run _ _ _ _ _ (the_function_run _ _ _ Hf)).
Qed.

Lemma pop_any vm :
  exists v vm', pop vm = Ok (v, vm') /\
    stack vm' = take (length (stack vm) - 1) (stack vm) /\
    frames vm' = frames vm /\ heap vm' = heap vm /\
    openUpvalues vm' = openUpvalues vm /\ globals vm' = globals vm /\
    out vm' = out vm /\ err vm' = err vm.
Proof.
  unfold pop. rewrite (bind_run read _ vm vm vm eq_refl).
  destruct (reverse (stack vm)) as [|x rest] eqn:Erev;
    apply (f_equal reverse) in Erev; rewrite reverse_involutive in Erev.
  - eexists _, _. split; [reflexivity|]. by rewrite Erev.
  - erewrite bind_run by reflexivity. eexists _, _. split; [reflexivity|]. simpl.
    rewrite Erev, reverse_cons, length_app. simpl.
    replace (length (reverse rest) + 1 - 1) with (length (reverse rest)) by lia.
    by rewrite take_app_length.
Qed.

Lemma drop_frame_run vm fs r :
  frames vm = fs ++ [r] ->
  exists vm', drop_frame vm = Ok (tt, vm') /\ frames vm' = fs /\
    stack vm' = stack vm /\ heap vm' = heap vm /\ openUpvalues vm' = openUpvalues vm /\
    globals vm' = globals vm /\ out vm' = out vm /\ err vm' = err vm.
Proof.
  intros Hf. unfold drop_frame. rewrite (bind_run read _ vm vm vm eq_refl).
  rewrite Hf, reverse_app. simpl. eexists. split; [reflexivity|]. simpl.
  by rewrite reverse_involutive.
Qed.

(** X19: [RETURN] takes the result from the stack, closes the upvalues of
    the frame and drops the frame.  From the last frame the run ends with
    [OK], the script's closure popped; otherwise the stack is cut back to
    where the frame began, the callee and its arguments and locals gone,
    the result is pushed, and the loop goes on in the caller's frame. *)
Theorem return_to_the_caller fuel r vm c ip off f us func fs st result l :
  frames vm = fs ++ [r] ->
  heap vm !! r = Some (OFrame c ip off) ->
  heap vm !! c = Some (OClosure f us) ->
  heap vm !! f = Some (OFunction func) ->
  stack vm = st ++ [result] ->
  open_list vm l -> length l < fuel ->
  (0 <= off)%Z ->
  exists vm' la lb,
    execute fuel (Some r) OP_RETURN vm =
      Ok (match fs with
          | [] => Halt INTERPRET_OK
          | _ => Continue (list.last fs)
          end, vm') /\
    frames vm' = fs /\
    stack vm' = match fs with
                | [] => take (length st - 1) st
                | _ => resize st (Z.to_nat off) ++ [result]
                end /\
    l = la ++ lb /\ open_list vm' lb /\
    Forall (fun x => off <= x.2)%Z la /\ Forall (fun x => x.2 < off)%Z lb /\
    globals vm' = globals vm /\ out vm' = out vm /\ err vm' = err vm.
Proof.
  intros Hfr Hr Hc Hf Hs (Hch & Hd & _) Hfuel Hoff. unfold execute.
  destruct (pop_top vm st result Hs)
    as (vm1 & Hpop & Hs1 & F1 & H1 & E1 & O1 & G1 & U1 & P1 & I1).
  rewrite (bind_run _ _ _ _ _ Hpop).
  assert (current (Some r) vm1 = Ok ((r, c, ip, off, func), vm1)) as Hcur.
  { rewrite <- H1 in Hr, Hc, Hf. by eapply current_run. }
  rewrite (bind_run _ _ _ _ _ Hcur). cbv beta iota.
  assert (chain (heap vm1) (openUpvalues vm1) l) as Hch1 by by rewrite H1, U1.
  destruct (closeUpvalues_loop_total off l fuel vm1 Hch1 Hd Hfuel) as ([[] vm2] & Hrun).
  destruct (closeUpvalues_loop_spec _ _ _ _ _ Hch1 Hd Hrun)
    as (F2 & S2 & _ & la & lb & -> & Hch2 & Hla & Hlb).
  destruct (closeUpvalues_loop_rest _ _ _ _ Hrun) as (G2 & O2 & E2 & _).
  unfold closeUpvalues. rewrite (bind_run _ _ _ _ _ Hrun).
  destruct (drop_frame_run vm2 fs r) as (vm3 & Hdrop & F3 & S3 & H3 & U3 & G3 & O3 & E3).
  { congruence. }
  rewrite (bind_run _ _ _ _ _ Hdrop), (bind_run read _ vm3 vm3 vm3 eq_refl).
  assert (open_list vm3 lb) as Hopen.
  { rewrite fmap_app in Hd. apply descending_app_r in Hd.
    split; [unfold chain; by rewrite H3, U3|]. split; [done|by apply descending_NoDup]. }
  pose proof (descending_below lb off ltac:(by destruct Hopen as (_ & ? & _)) Hlb) as Hlb'.
  rewrite F3. destruct fs as [|f0 fs'] eqn:Efs.
  - simpl. destruct (pop_any vm3) as (v & vm4 & Hpop4 & S4 & F4 & H4 & U4 & G4 & O4 & E4).
    rewrite (bind_run _ _ _ _ _ Hpop4). exists vm4, la, lb. split; [done|].
    split; [congruence|]. split; [congruence|]. split; [done|]. split.
    { destruct Hopen as (? & ? & ?). unfold open_list, chain. by rewrite H4, U4. }
    split_and!; try done; congruence.
  - rewrite bool_decide_eq_false_2 by (simpl; lia).
    destruct (Z.ltb_spec off 0); [lia|].
    erewrite bind_run by reflexivity. erewrite bind_run by reflexivity.
    erewrite bind_run by reflexivity. simpl. rewrite F3.
    eexists _, la, lb. split; [reflexivity|]. simpl.
    rewrite S3, S2, Hs1. split_and!; try done; try congruence.
Qed.

(** *** Operators *)

(** [v instanceof LoxString] *)
Definition is_string (v : Value) : bool :=
  match v with VString _ => true | _ => false end.

Lemma peek_second vm st a b : stack vm = st ++ [a; b] -> peek 1 vm = Ok (a, vm).
Proof. intros Hs. by apply (peek_at vm st a [b]). Qed.

Lemma peek_first vm st a b : stack vm = st ++ [a; b] -> peek 0 vm = Ok (b, vm).
Proof.
  intros Hs. apply (peek_top vm (st ++ [a])). by rewrite Hs, <- app_assoc.
Qed.

(** X20: [ADD] of two strings takes them from the stack and pushes the
    interned string of their characters, the first operand's first: a
    string the pool holds already if there is one with these characters,
    and then the pool stays as it is. *)
Theorem add_of_two_strings fuel frame vm st a b :
  stack vm = st ++ [VString a; VString b] ->
  TableFacts.pool_steps Pool_new (pool vm) ->
  2 * Table.capacity (strings (pool vm)) + 8 <= fuel ->
  exists vm' s,
    execute fuel frame OP_ADD vm = Ok (Continue frame, vm') /\
    stack vm' = st ++ [VString s] /\
    chars s = chars a +:+ chars b /\
    TableFacts.interned (pool vm') s /\
    TableFacts.pool_steps Pool_new (pool vm') /\
    (forall k, TableFacts.interned (pool vm) k -> chars k = chars a +:+ chars b ->
       s = k /\ pool vm' = pool vm) /\
    frames vm' = frames vm /\ heap vm' = heap vm /\ globals vm' = globals vm /\
    err vm' = err vm.
Proof.
  intros Hs Hsteps Hfuel.
  destruct (TableFacts.pool_steps_inv _ _ TableFacts.pool_inv_new Hsteps) as [Hinv _].
  destruct (TableFacts.intern_spec fuel (pool vm) (chars a +:+ chars b) Hinv Hfuel)
    as (p' & s & Hi & Hinv' & Hc & Hint & Hsame & Hiff).
  unfold execute.
  rewrite (bind_run _ _ _ _ _ (peek_first vm st _ _ Hs)).
  rewrite (bind_run _ _ _ _ _ (peek_second vm st _ _ Hs)).
  destruct (pop_top vm (st ++ [VString a]) (VString b))
    as (vm1 & Hp1 & Hs1 & F1 & H1 & E1 & O1 & G1 & U1 & P1 & I1).
  { by rewrite Hs, <- app_assoc. }
  destruct (pop_top vm1 st (VString a) Hs1)
    as (vm2 & Hp2 & Hs2 & F2 & H2 & E2 & O2 & G2 & U2 & P2 & I2).
  erewrite bind_run; cycle 1.
  { unfold concatenate. rewrite (bind_run _ _ _ _ _ Hp1), (bind_run _ _ _ _ _ Hp2).
    rewrite (bind_run read _ vm2 vm2 vm2 eq_refl). rewrite P2, P1, Hi.
    erewrite bind_run by reflexivity. erewrite bind_run by reflexivity.
    reflexivity. }
  eexists _, s. split; [reflexivity|]. simpl. rewrite Hs2.
  split_and!; try done; try congruence.
  - eapply TableFacts.pool_steps_intern; [exact Hsteps|exact Hi].
  - intros k Hk Hck.
    assert (s = k) as ->.
    { apply (TableFacts.pi_chars _ Hinv'); [done|apply Hiff; by left|congruence]. }
    split; [done|]. by apply Hsame.
Qed.

(** X21: [ADD] of operands that are neither two strings nor two numbers
    halts the loop with [RUNTIME_ERROR], and the message names the kinds of
    the two operands, the first operand's first. *)
Theorem add_of_other_operands_halts fuel frame vm st a b :
  stack vm = st ++ [a; b] ->
  is_string a && is_string b = false ->
  is_number a && is_number b = false ->
  frames_ok vm ->
  exists vm',
    execute fuel frame OP_ADD vm = Ok (Halt RUNTIME_ERROR, vm') /\
    failed ("Operands must be two numbers or two strings, where " +:+
            valueType a +:+ " and " +:+ valueType b) vm vm'.
Proof.
  intros Hs Hstr Hnum Hfs. unfold execute.
  rewrite (bind_run _ _ _ _ _ (peek_first vm st _ _ Hs)).
  rewrite (bind_run _ _ _ _ _ (peek_second vm st _ _ Hs)).
  destruct a, b; try done; (run_error; [done|]; by exists vm').
Qed.

(** X22: [NEGATE] of a value that is no number halts the loop with
    [RUNTIME_ERROR] and writes [Operand must be a number.]; of a number it
    replaces the number by its opposite. *)
Theorem negate_of_a_value fuel frame vm st v :
  stack vm = st ++ [v] ->
  frames_ok vm ->
  exists vm',
    match v with
    | VNumber x =>
        execute fuel frame OP_NEGATE vm = Ok (Continue frame, vm') /\
        stack vm' = st ++ [VNumber (PrimFloat.opp x)] /\ restacked vm vm'
    | _ =>
        execute fuel frame OP_NEGATE vm = Ok (Halt RUNTIME_ERROR, vm') /\
        failed "Operand must be a number." vm vm'
    end.
Proof.
  intros Hs Hfs. unfold execute.
  rewrite (bind_run _ _ _ _ _ (peek_top vm st v Hs)).
  destruct v as [| |b|x|s|r]; try (run_error; [done|]; by exists vm').
  destruct (pop_top vm st (VNumber x) Hs)
    as (vm1 & Hp1 & Hs1 & F1 & H1 & E1 & O1 & G1 & U1 & P1 & I1).
  rewrite (bind_run _ _ _ _ _ Hp1). erewrite bind_run by reflexivity.
  eexists. split; [reflexivity|]. simpl. rewrite Hs1. split; [done|].
  unfold restacked. simpl. by split_and!.
Qed.

(** *** Properties and classes *)

(** X23: [SET_PROPERTY] on an instance binds the name to the value in the
    fields of the instance and leaves the value in the place of the two
    operands; from then on, as long as the fields stay as they are,
    [GET_PROPERTY] of the name on that instance replaces the instance by
    the value, if JavaScript takes the value for true. *)
Theorem set_then_get_property fuel frame vm vm1 st r klass fields name v :
  stack vm = st ++ [VObj r; v] ->
  heap vm !! r = Some (OInstance klass fields) ->
  readString frame vm = Ok (name, vm1) ->
  is_undefined v = false ->
  TableFacts.reachable fields ->
  2 * Table.capacity fields + 8 <= fuel ->
  exists vm2 fields',
    execute fuel frame OP_SET_PROPERTY vm = Ok (Continue frame, vm2) /\
    stack vm2 = st ++ [v] /\
    heap vm2 = <[r := OInstance klass fields']> (heap vm1) /\
    frames vm2 = frames vm /\
    TableFacts.reachable fields' /\ TableFacts.answers fields' name v /\
    (forall key w, key <> name ->
       TableFacts.answers fields key w -> TableFacts.answers fields' key w) /\
    (truthy v = true ->
     forall frame' vm3 vm4 st3,
       stack vm3 = st3 ++ [VObj r] ->
       heap vm3 !! r = Some (OInstance klass fields') ->
       readString frame' vm3 = Ok (name, vm4) ->
       exists vm5,
         execute fuel frame' OP_GET_PROPERTY vm3 = Ok (Continue frame', vm5) /\
         stack vm5 = st3 ++ [v]).
Proof.
  intros Hs Hr Hread Hv Hreach Hfuel.
  destruct (readString_moved _ _ _ _ Hread) as (F & St & _ & _ & _ & _ & _ & _ & _ & Hheap).
  pose proof (Hheap _ _ Hr) as Hr1. simpl in Hr1.
  pose proof (TableFacts.reachable_wf _ Hreach) as Hwf. pose proof Hwf as [Hc Ht].
  destruct (TableFacts.set_spec fuel fields name v Hc Hfuel)
    as (fields' & b & Hset & Hc' & _ & _ & Hcap & _ & Hp & Ho & _).
  unfold execute.
  rewrite (bind_run _ _ _ _ _ (peek_second vm st _ _ Hs)).
  rewrite (bind_run read _ vm vm vm eq_refl), Hr.
  rewrite (bind_run _ _ _ _ _ Hread).
  rewrite (bind_run _ _ _ _ _ (peek_first vm1 st (VObj r) v ltac:(congruence))).
  rewrite Hset. erewrite bind_run by reflexivity. simpl.
  erewrite bind_run; cycle 1.
  { unfold set_fields. rewrite (bind_run _ _ _ _ _ (deref_run _ _ _ Hr1)).
    rewrite (bind_run read _ vm1 vm1 vm1 eq_refl). reflexivity. }
  match goal with |- context [(pop ≫= _) ?s] => set (vm1' := s) end.
  destruct (pop_top vm1' (st ++ [VObj r]) v)
    as (vm2 & Hp2 & Hs2 & F2 & H2 & _).
  { subst vm1'. simpl. by rewrite St, Hs, <- app_assoc. }
  destruct (pop_top vm2 st (VObj r) Hs2) as (vm3 & Hp3 & Hs3 & F3 & H3 & _).
  rewrite (bind_run _ _ _ _ _ Hp2), (bind_run _ _ _ _ _ Hp3).
  erewrite bind_run by reflexivity.
  eexists _, fields'. split; [reflexivity|]. simpl. rewrite Hs3, H3, H2, F3, F2.
  subst vm1'. simpl. split_and!; try done.
  - by apply (TableFacts.reach_set fuel fields name v fields' b).
  - by apply TableFacts.answers_present.
  - intros key w Hne Hw. eapply TableFacts.answers_carried; [exact Hwf|done| |done].
    intros u. by apply Ho.
  - intros Htrue frame' vm3' vm4 st3 Hs3' Hr3 Hread'.
    destruct (readString_moved _ _ _ _ Hread') as (_ & St4 & _).
    unfold execute.
    rewrite (bind_run _ _ _ _ _ (peek_top vm3' st3 (VObj r) Hs3')).
    rewrite (bind_run read _ vm3' vm3' vm3' eq_refl), Hr3.
    rewrite (bind_run _ _ _ _ _ Hread'). unfold table_get.
    rewrite (TableFacts.answers_present fields' name v Hc' Hp fuel ltac:(lia)).
    erewrite bind_run by reflexivity. rewrite Htrue.
    destruct (pop_top vm4 st3 (VObj r) ltac:(congruence)) as (vm5 & Hp5 & Hs5 & _).
    rewrite (bind_run _ _ _ _ _ Hp5). erewrite bind_run by reflexivity.
    eexists. split; [reflexivity|]. simpl. by rewrite Hs5.
Qed.



(** A value that is no instance of a class. *)
Definition no_instance (h : list Obj) (v : Value) : Prop :=
  match v with
  | VObj r => match h !! r with Some (OInstance _ _) => False | _ => True end
  | _ => True
  end.

Lemma no_instance_moved vm vm' v :
  moved vm vm' -> no_instance (heap vm) v -> no_instance (heap vm') v.
Proof.
  intros (_ & _ & _ & _ & _ & _ & _ & _ & Hlen & Hheap) Hno.
  destruct v as [| |b|n|s|r]; try done. simpl in *.
  destruct (heap vm !! r) as [o|] eqn:E.
  - specialize (Hheap _ _ E). destruct o; try done; try by rewrite Hheap.
    destruct Hheap as (ip' & ->). done.
  - apply lookup_ge_None in E. rewrite <- Hlen in E. apply lookup_ge_None in E.
    by rewrite E.
Qed.

(** X25: a property access on a value that is no instance halts the loop
    with [RUNTIME_ERROR]: [GET_PROPERTY] writes
    [Only instances have properties.], [SET_PROPERTY]
    [Only instances have fields.], and [INVOKE]
    [Only instances have methods.]. *)
Theorem property_access_needs_an_instance fuel frame vm v :
  frames_ok vm -> no_instance (heap vm) v ->
  (forall st, stack vm = st ++ [v] ->
     exists vm',
       execute fuel frame OP_GET_PROPERTY vm = Ok (Halt RUNTIME_ERROR, vm') /\
       failed "Only instances have properties." vm vm') /\
  (forall st w, stack vm = st ++ [v; w] ->
     exists vm',
       execute fuel frame OP_SET_PROPERTY vm = Ok (Halt RUNTIME_ERROR, vm') /\
       failed "Only instances have fields." vm vm') /\
  (forall st args name vm1 vm2,
     stack vm = st ++ v :: args ->
     readString frame vm = Ok (name, vm1) ->
     operand frame vm1 = Ok (length args, vm2) ->
     exists vm',
       execute fuel frame OP_INVOKE vm = Ok (Halt RUNTIME_ERROR, vm') /\
       failed "Only instances have methods." vm2 vm').
Proof.
  intros Hfs Hno. split_and!.
  - intros st Hs. unfold execute.
    rewrite (bind_run _ _ _ _ _ (peek_top vm st v Hs)).
    rewrite (bind_run read _ vm vm vm eq_refl).
    destruct v as [| |b|n|s|r]; try (run_error; [done|]; by exists vm').
    simpl in Hno. destruct (heap vm !! r) as [[]|]; try done;
      (run_error; [done|]; by exists vm').
  - intros st w Hs. unfold execute.
    rewrite (bind_run _ _ _ _ _ (peek_second vm st _ _ Hs)).
    rewrite (bind_run read _ vm vm vm eq_refl).
    destruct v as [| |b|n|s|r]; try (run_error; [done|]; by exists vm').
    simpl in Hno. destruct (heap vm !! r) as [[]|]; try done;
      (run_error; [done|]; by exists vm').
  - intros st args name vm1 vm2 Hs Hread Hop.
    pose proof (readString_moved _ _ _ _ Hread) as Hm1.
    pose proof (operand_moved _ _ _ _ Hop) as Hm2.
    assert (moved vm vm2) as Hm by (etrans; done).
    pose proof (frames_ok_moved _ _ Hm Hfs) as Hfs2.
    pose proof (no_instance_moved _ _ _ Hm Hno) as Hno2.
    destruct Hm as (_ & St & _).
    unfold execute. rewrite (bind_run _ _ _ _ _ Hread), (bind_run _ _ _ _ _ Hop).
    assert (exists vm', invoke fuel name (length args) vm2 = Ok (false, vm') /\
              failed "Only instances have methods." vm2 vm') as (vm' & Hi & Hf).
    { unfold invoke.
      rewrite (bind_run _ _ _ _ _ (peek_at vm2 st v args ltac:(congruence))).
      rewrite (bind_run read _ vm2 vm2 vm2 eq_refl).
      destruct v as [| |b|n|s|r]; try (run_error; [done|]; by exists vm').
      simpl in Hno2. destruct (heap vm2 !! r) as [[]|]; try done;
        (run_error; [done|]; by exists vm'). }
    rewrite (bind_run _ _ _ _ _ Hi). by exists vm'.
Qed.

(** *** More programs *)

(** [1();] *)
Definition call_one : Result t :=
  compiled [] (fun _ => [function None [0; 0; 28; 0; 4; 1; 33] [VNumber 1]]).

(** [class A { init() {} } A();] *)
Definition class_with_init : Result t :=
  compiled ["A"; "init"] (fun ss =>
    match ss with
    | [A; init] =>
        [function None
           [34; 0; 7; 0; 6; 1; 31; 3; 36; 2; 4; 6; 4; 28; 0; 4; 1; 33]
           [VString A; VString A; VString init; VObj 2; VString A];
         function (Some init) [5; 0; 33] []]
    | _ => []
    end).

(** [class A { m() {} } var m = A().m; m();] *)
Definition bound_m : Result t :=
  compiled ["A"; "m"] (fun ss =>
    match ss with
    | [A; m] =>
        [function None
           [34; 0; 7; 0; 6; 1; 31; 3; 36; 2; 4; 6; 5; 28; 0; 12; 6; 7; 4;
            6; 7; 28; 0; 4; 1; 33]
           [VString A; VString A; VString m; VObj 2; VString m; VString A;
            VString m; VString m];
         function (Some m) [1; 33] []]
    | _ => []
    end).

(** [fun f() {} f();] *)
Definition call_f : Result t :=
  compiled ["f"] (fun ss =>
    match ss with
    | [f] =>
        [function None [31; 1; 7; 0; 6; 2; 28; 0; 4; 1; 33]
           [VString f; VObj 2; VString f];
         function (Some f) [1; 33] []]
    | _ => []
    end).

(** [n] turns of the loop, the next opcode read, and its first operand. *)
Definition at_operand (n : nat) (program : Result t) (frame : option nat)
    : Result (nat * t) :=
  r ← inside n program; operand frame r.2.

Lemma state_at_operand_frames_ok n names build frame :
  is_Ok (at_operand n (compiled names build) frame) ->
  frames_ok (state (at_operand n (compiled names build) frame) blank).
Proof.
  intros Hok. destruct (state_Ok _ blank Hok) as (x & H). revert H.
  generalize (state (at_operand n (compiled names build) frame) blank). intros vm' H.
  unfold at_operand in H. revert H.
  pose proof (inside_frames_ok n (compiled names build)) as Hi. revert Hi.
  generalize (inside n (compiled names build)). intros [[b vm]| | |] Hi H; try discriminate H.
  simpl in H. specialize (Hi _ _ (compiled_reachable names build) eq_refl).
  eapply frames_ok_moved; [|done]. by eapply operand_moved.
Qed.

Definition at_call_one : t := state (inside 1 call_one) blank.

Lemma call_of_a_value_that_is_no_function_witness :
  exists vm1 vm',
    operand (Some 3) at_call_one = Ok (0, vm1) /\
    execute 64 (Some 3) OP_CALL at_call_one = Ok (Halt RUNTIME_ERROR, vm') /\
    failed "Can only call functions and classes." vm1 vm'.
Proof.
  exists (state (operand (Some 3) at_call_one) blank).
  assert (operand (Some 3) at_call_one =
          Ok (0, state (operand (Some 3) at_call_one) blank)) as Hop by by vm_compute.
  destruct (call_of_a_value_that_is_no_function 64 (Some 3) at_call_one _
              [VObj 2] (VNumber 1) [] Hop) as (vm' & H).
  - by vm_compute.
  - done.
  - apply state_inside_frames_ok. vm_compute. by eexists.
  - exists vm'. split; [exact Hop|exact H].
Defined.

(** [class A {} var a = A(); a.x = 0; print a.x;] at its [CALL]. *)
Definition at_class_call : t := state (at_operand 5 field_zero (Some 3)) blank.

Definition name_A : LoxString := {| ref := 2; chars := "A"; hash := hashString "A" |}.

Lemma call_of_a_class_without_init_witness :
  exists vm',
    callValue 64 (VObj 4) 0 at_class_call = Ok (true, vm') /\
    heap vm' = heap at_class_call ++ [OInstance 4 Table.new] /\
    globals vm' = globals at_class_call /\ out vm' = out at_class_call /\
    stack vm' = [VObj 2] ++ [VObj (length (heap at_class_call))] /\
    frames vm' = frames at_class_call /\ err vm' = err at_class_call.
Proof.
  apply (call_of_a_class_without_init 64 at_class_call [VObj 2] 4 name_A Table.new []).
  - by vm_compute.
  - by vm_compute.
  - by vm_compute.
  - apply state_at_operand_frames_ok. vm_compute. by eexists.
Defined.

Definition at_init_call : t := state (at_operand 7 class_with_init (Some 4)) blank.

Definition name_init : LoxString :=
  {| ref := 1; chars := "init"; hash := hashString "init" |}.

Lemma call_of_a_class_with_init_witness :
  exists vm',
    callValue 64 (VObj 5) 0 at_init_call = Ok (true, vm') /\
    heap vm' = heap at_init_call ++ [OInstance 5 Table.new; OFrame 6 0 1] /\
    stack vm' = [VObj 3] ++ [VObj (length (heap at_init_call))] /\
    frames vm' = frames at_init_call ++ [S (length (heap at_init_call))] /\
    value_at_Z (stack vm') 1 = VObj (length (heap at_init_call)).
Proof.
  apply (call_of_a_class_with_init 64 at_init_call [VObj 3] 5 name_A
           (methods_of (heap at_init_call !! 5)) [] 6 2 []
           (function (Some name_init) [5; 0; 33] [])).
  - by vm_compute.
  - by vm_compute.
  - by vm_compute.
  - by vm_compute.
  - by vm_compute.
  - done.
  - vm_compute. lia.
Defined.

Definition at_bound_call : t := state (at_operand 11 bound_m (Some 4)) blank.

Definition name_m : LoxString := {| ref := 3; chars := "m"; hash := hashString "m" |}.

Lemma call_of_a_bound_method_witness :
  exists vm',
    callValue 64 (VObj 8) 0 at_bound_call = Ok (true, vm') /\
    heap vm' = heap at_bound_call ++ [OFrame 6 0 1] /\
    stack vm' = [VObj 3] ++ [VObj 7] /\
    frames vm' = frames at_bound_call ++ [length (heap at_bound_call)] /\
    value_at_Z (stack vm') 1 = VObj 7.
Proof.
  apply (call_of_a_bound_method 64 at_bound_call [VObj 3] 8 (VObj 7) [] 6 2 []
           (function (Some name_m) [1; 33] [])).
  - by vm_compute.
  - by vm_compute.
  - by vm_compute.
  - by vm_compute.
  - done.
  - vm_compute. lia.
Defined.

Lemma three_open_list : open_list three_open [(1, 3%Z); (3, 2%Z); (2, 1%Z)].
Proof.
  split; [|split; [simpl; lia|apply descending_NoDup; simpl; lia]].
  unfold chain. replace (openUpvalues three_open) with (Some 1) by by vm_compute.
  apply seg_cons with (next := Some 3); [by vm_compute|].
  apply seg_cons with (next := Some 2); [by vm_compute|].
  apply seg_cons with (next := None); [by vm_compute|]. constructor.
Qed.

Lemma closed_upvalues_keep_the_values_witness :
  exists vm',
    closeUpvalues 64 2 three_open = Ok (tt, vm') /\
    stack vm' = stack three_open /\ frames vm' = frames three_open /\
    length (heap vm') = length (heap three_open) /\
    (forall u i, (u, i) ∈ [(1, 3%Z); (3, 2%Z); (2, 1%Z)] ->
       if (2 <=? i)%Z
       then exists next,
              heap vm' !! u = Some (OUpvalue (-1) next (value_at_Z (stack three_open) i))
       else heap vm' !! u = heap three_open !! u) /\
    (forall r, r ∉ [(1, 3%Z); (3, 2%Z); (2, 1%Z)].*1 ->
       heap vm' !! r = heap three_open !! r).
Proof.
  apply (closed_upvalues_keep_the_values 64 2 three_open [(1, 3%Z); (3, 2%Z); (2, 1%Z)]).
  - exact three_open_list.
  - simpl. lia.
Defined.

(** [fun f() {} f();] at the [RETURN] of [f]. *)
Definition at_return : t := state (inside 5 call_f) blank.

Definition name_f : LoxString := {| ref := 2; chars := "f"; hash := hashString "f" |}.

Lemma return_to_the_caller_witness :
  exists vm' la lb,
    execute 64 (Some 6) OP_RETURN at_return = Ok (Continue (Some 4), vm') /\
    frames vm' = [4] /\
    stack vm' = resize [VObj 3; VObj 5] 1 ++ [VNil] /\
    [] = la ++ lb /\ open_list vm' lb /\
    Forall (fun x => 1 <= x.2)%Z la /\ Forall (fun x => x.2 < 1)%Z lb /\
    globals vm' = globals at_return /\ out vm' = out at_return /\
    err vm' = err at_return.
Proof.
  apply (return_to_the_caller 64 6 at_return 5 2%Z 1%Z 2 []
           (function (Some name_f) [1; 33] []) [4] [VObj 3; VObj 5] VNil []).
  - by vm_compute.
  - by vm_compute.
  - by vm_compute.
  - by vm_compute.
  - by vm_compute.
  - split; [|split; [done|constructor]].
    unfold chain. replace (openUpvalues at_return) with (@None nat) by by vm_compute.
    constructor.
  - simpl. lia.
  - lia.
Defined.

(** [print "a" + "b";] *)
Definition add_a_b : Result t :=
  compiled ["a"; "b"] (fun ss =>
    match ss with
    | [a; b] => [function None [0; 0; 0; 1; 18; 24; 1; 33] [VString a; VString b]]
    | _ => []
    end).

(** [true + 1;] *)
Definition add_true_one : Result t :=
  compiled [] (fun _ => [function None [2; 0; 0; 18; 4; 1; 33] [VNumber 1]]).

(** [-true;] *)
Definition negate_true : Result t :=
  compiled [] (fun _ => [function None [2; 23; 4; 1; 33] []]).

(** [class A {} var a = A(); a.x = 1; print a.x;] *)
Definition field_one : Result t :=
  compiled ["A"; "a"; "x"] (fun ss =>
    match ss with
    | [A; a; x] =>
        [function None
           [34; 0; 7; 0; 6; 1; 4; 6; 3; 28; 0; 7; 2; 6; 4; 0; 6; 13; 5; 4;
            6; 7; 12; 8; 24; 1; 33]
           [VString A; VString A; VString a; VString A; VString a; VString x;
            VNumber 1; VString a; VString x]]
    | _ => []
    end).


(** [true.x;] *)
Definition true_x : Result t :=
  compiled ["x"] (fun ss =>
    match ss with
    | [x] => [function None [2; 12; 0; 4; 1; 33] [VString x]]
    | _ => []
    end).

Definition at_add : t := state (inside 2 add_a_b) blank.

Definition name_a : LoxString := {| ref := 2; chars := "a"; hash := hashString "a" |}.
Definition name_b : LoxString := {| ref := 3; chars := "b"; hash := hashString "b" |}.

Lemma at_add_pool_steps : TableFacts.pool_steps Pool_new (pool at_add).
Proof.
  eapply (TableFacts.pool_steps_intern 64 _ _ _ "b").
  - eapply (TableFacts.pool_steps_intern 64 _ _ _ "a").
    + eapply (TableFacts.pool_steps_intern 64 _ _ _ "init").
      * eapply (TableFacts.pool_steps_intern 64 _ _ _ "clock"); [apply TableFacts.pool_steps_refl|].
        vm_compute. reflexivity.
      * vm_compute. reflexivity.
    + vm_compute. reflexivity.
  - vm_compute. reflexivity.
Qed.

Lemma add_of_two_strings_witness :
  exists vm' s,
    execute 64 (Some 3) OP_ADD at_add = Ok (Continue (Some 3), vm') /\
    stack vm' = [VObj 2] ++ [VString s] /\
    chars s = chars name_a +:+ chars name_b /\
    TableFacts.interned (pool vm') s /\
    TableFacts.pool_steps Pool_new (pool vm') /\
    (forall k, TableFacts.interned (pool at_add) k -> chars k = chars name_a +:+ chars name_b ->
       s = k /\ pool vm' = pool at_add) /\
    frames vm' = frames at_add /\ heap vm' = heap at_add /\
    globals vm' = globals at_add /\ err vm' = err at_add.
Proof.
  apply (add_of_two_strings 64 (Some 3) at_add [VObj 2] name_a name_b).
  - by vm_compute.
  - exact at_add_pool_steps.
  - vm_compute. lia.
Defined.

Definition at_add_true_one : t := state (inside 2 add_true_one) blank.

Lemma add_of_other_operands_halts_witness :
  exists vm',
    execute 64 (Some 3) OP_ADD at_add_true_one = Ok (Halt RUNTIME_ERROR, vm') /\
    failed "Operands must be two numbers or two strings, where boolean and number"
      at_add_true_one vm'.
Proof.
  apply (add_of_other_operands_halts 64 (Some 3) at_add_true_one [VObj 2]
           (VBool true) (VNumber 1)).
  - by vm_compute.
  - done.
  - done.
  - apply state_inside_frames_ok. vm_compute. by eexists.
Defined.

Definition at_negate : t := state (inside 1 negate_true) blank.

Lemma negate_of_a_value_witness :
  exists vm',
    execute 64 (Some 3) OP_NEGATE at_negate = Ok (Halt RUNTIME_ERROR, vm') /\
    failed "Operand must be a number." at_negate vm'.
Proof.
  apply (negate_of_a_value 64 (Some 3) at_negate [VObj 2] (VBool true)).
  - by vm_compute.
  - apply state_inside_frames_ok. vm_compute. by eexists.
Defined.

Definition at_set_property : t := state (inside 9 field_one) blank.

Lemma set_then_get_property_witness :
  exists vm1 vm2 fields',
    readString (Some 3) at_set_property = Ok (name_x4, vm1) /\
    execute 64 (Some 3) OP_SET_PROPERTY at_set_property = Ok (Continue (Some 3), vm2) /\
    stack vm2 = [VObj 2] ++ [VNumber 1] /\
    heap vm2 = <[5 := OInstance 4 fields']> (heap vm1) /\
    frames vm2 = frames at_set_property /\
    TableFacts.reachable fields' /\ TableFacts.answers fields' name_x4 (VNumber 1) /\
    (forall key w, key <> name_x4 ->
       TableFacts.answers Table.new key w -> TableFacts.answers fields' key w) /\
    (truthy (VNumber 1) = true ->
     forall frame' vm3 vm4 st3,
       stack vm3 = st3 ++ [VObj 5] ->
       heap vm3 !! 5 = Some (OInstance 4 fields') ->
       readString frame' vm3 = Ok (name_x4, vm4) ->
       exists vm5,
         execute 64 frame' OP_GET_PROPERTY vm3 = Ok (Continue frame', vm5) /\
         stack vm5 = st3 ++ [VNumber 1]).
Proof.
  exists (state (readString (Some 3) at_set_property) blank).
  assert (readString (Some 3) at_set_property =
          Ok (name_x4, state (readString (Some 3) at_set_property) blank)) as Hread
    by by vm_compute.
  destruct (set_then_get_property 64 (Some 3) at_set_property
              (state (readString (Some 3) at_set_property) blank) [VObj 2] 5 4
              Table.new name_x4 (VNumber 1)) as (vm2 & fields' & H).
  - by vm_compute.
  - by vm_compute.
  - exact Hread.
  - reflexivity.
  - apply TableFacts.reach_new.
  - vm_compute. lia.
  - exists vm2, fields'. split; [exact Hread|exact H].
Defined.




Definition at_true_x : t := state (inside 1 true_x) blank.

Lemma property_access_needs_an_instance_witness :
  (forall st, stack at_true_x = st ++ [VBool true] ->
     exists vm',
       execute 64 (Some 3) OP_GET_PROPERTY at_true_x = Ok (Halt RUNTIME_ERROR, vm') /\
       failed "Only instances have properties." at_true_x vm') /\
  (forall st w, stack at_true_x = st ++ [VBool true; w] ->
     exists vm',
       execute 64 (Some 3) OP_SET_PROPERTY at_true_x = Ok (Halt RUNTIME_ERROR, vm') /\
       failed "Only instances have fields." at_true_x vm') /\
  (forall st args name vm1 vm2,
     stack at_true_x = st ++ VBool true :: args ->
     readString (Some 3) at_true_x = Ok (name, vm1) ->
     operand (Some 3) vm1 = Ok (length args, vm2) ->
     exists vm',
       execute 64 (Some 3) OP_INVOKE at_true_x = Ok (Halt RUNTIME_ERROR, vm') /\
       failed "Only instances have methods." vm2 vm').
Proof.
  apply (property_access_needs_an_instance 64 (Some 3) at_true_x (VBool true)).
  - apply state_inside_frames_ok. vm_compute. by eexists.
  - done.
Defined.

End VMFacts.
